(** * Window to the World: weather service and application coordinator

  A shallow embedding of [services/weatherService.ts] and of the [App]
  component's handlers, with the properties the specification states about
  them.

  Conventions of the embedding.
  - A JavaScript string is the list of its UTF-16 code units, so that
    [length], [charCodeAt] and the character classes of regular
    expressions mean what they mean in the source.
  - A JavaScript object used as a dictionary ([Record<string, T>]) is a
    finite map; keys are taken to be ordinary data keys, not names of
    [Object.prototype] members.
  - An [async] function is cut at its [await]s: the network answers through
    an explicit outcome, effects are logged in a trace, and a rejected
    promise is the [Throws] completion. *)

From Stdlib Require Import ZArith QArith Qround List Ascii String Lia.
From stdpp Require Import base option list gmap strings pretty.

Local Open Scope Z_scope.

(* ===================================================================== *)
(** * JavaScript values *)
(* ===================================================================== *)

Module JS.

(** UTF-16 code units. *)
Abbreviation jsstring := (list Z).

(** A (seven-bit) literal of the source as a JavaScript string. *)
Definition lit (s : string) : jsstring :=
  (λ a, Z.of_N (N_of_ascii a)) <$> list_ascii_of_string s.

(** [ToInt32]: reduction to the signed 32-bit range. *)
Definition toInt32 (z : Z) : Z := (z + 2 ^ 31) mod 2 ^ 32 - 2 ^ 31.

(** [x << n] on numbers: both sides through [ToInt32], shift count
    masked to five bits. *)
Definition shl (x n : Z) : Z := toInt32 (Z.shiftl (toInt32 x) (Z.land n 31)).

(** [x | y] on numbers. *)
Definition bor (x y : Z) : Z := toInt32 (Z.lor (toInt32 x) (toInt32 y)).

(** [x % y] on integral numbers: the remainder has the sign of [x]. *)
Definition rem (x y : Z) : Z := Z.rem x y.

(** Truthiness of a string: only the empty string is falsy. *)
Definition truthy (s : jsstring) : bool :=
  match s with [] => false | _ => true end.

(** Errors are identified by their message. *)
Record Error := mkError { message : jsstring }.

(** The completion of a call: a value, or a thrown error (for an [async]
    function: a fulfilled or a rejected promise). *)
Inductive completion (A : Type) : Type :=
| Returns (a : A)
| Throws (e : Error).
Arguments Returns {A} a.
Arguments Throws {A} e.

(** Decimal rendering of an integral number ([String(n)], [`${n}`]). *)
Definition String_of_Z (z : Z) : jsstring := lit (pretty z).

(** [s.toUpperCase()] and [s.toLowerCase()] on the letters A-Z, a-z;
    other code units are left as they are (the strings the program applies
    them to are ASCII labels and the AM/PM marker). *)
Definition upper_unit (c : Z) : Z :=
  if (97 <=? c) && (c <=? 122) then c - 32 else c.
Definition lower_unit (c : Z) : Z :=
  if (65 <=? c) && (c <=? 90) then c + 32 else c.
Definition toUpperCase (s : jsstring) : jsstring := upper_unit <$> s.
Definition toLowerCase (s : jsstring) : jsstring := lower_unit <$> s.

(** The [\d] class. *)
Definition is_digit (c : Z) : bool := (48 <=? c) && (c <=? 57).

(** The [\s] class: WhiteSpace and LineTerminator code units. *)
Definition is_space (c : Z) : bool :=
  ((9 <=? c) && (c <=? 13)) || (c =? 32) || (c =? 160) || (c =? 5760)
  || ((8192 <=? c) && (c <=? 8202)) || (c =? 8232) || (c =? 8233)
  || (c =? 8239) || (c =? 8287) || (c =? 12288) || (c =? 65279).

(** [parseInt(s, 10)] on a string of decimal digits.  (Digit strings
    beyond 2^53 are rounded by the source; the comparisons the program
    makes with the result are against constants below 24 and are not
    affected.) *)
Definition parseInt_digits (s : jsstring) : Z :=
  fold_left (λ acc c, acc * 10 + (c - 48)) s 0.

(** [a || b] on strings that may be absent. *)
Definition or_else (a : option jsstring) (b : jsstring) : jsstring :=
  match a with
  | Some s => if truthy s then s else b
  | None => b
  end.

(** ** encodeURIComponent *)

Definition unreserved (c : Z) : bool :=
  ((65 <=? c) && (c <=? 90)) || ((97 <=? c) && (c <=? 122)) || is_digit c
  || existsb (Z.eqb c) (lit "-_.!~*'()").

Definition hex_digit (n : Z) : Z := if n <? 10 then 48 + n else 55 + n.

Definition percent (b : Z) : jsstring := [37; hex_digit (b / 16); hex_digit (b mod 16)].

Definition utf8 (cp : Z) : list Z :=
  if cp <? 128 then [cp]
  else if cp <? 2048 then [192 + cp / 64; 128 + cp mod 64]
  else if cp <? 65536 then
    [224 + cp / 4096; 128 + (cp / 64) mod 64; 128 + cp mod 64]
  else
    [240 + cp / 262144; 128 + (cp / 4096) mod 64; 128 + (cp / 64) mod 64;
     128 + cp mod 64].

Definition escape (cp : Z) : jsstring := concat (percent <$> utf8 cp).

Definition URIError : Error := mkError (lit "URI malformed").

Definition prepend (a : jsstring) (r : completion jsstring) : completion jsstring :=
  match r with
  | Returns b => Returns (a ++ b)
  | Throws e => Throws e
  end.

(** Throws on a surrogate code unit without its partner. *)
Fixpoint encodeURIComponent (s : jsstring) : completion jsstring :=
  match s with
  | [] => Returns []
  | c :: s' =>
      if unreserved c then prepend [c] (encodeURIComponent s')
      else if (56320 <=? c) && (c <=? 57343) then Throws URIError
      else if (55296 <=? c) && (c <=? 56319) then
        match s' with
        | d :: s'' =>
            if (56320 <=? d) && (d <=? 57343)
            then prepend (escape ((c - 55296) * 1024 + (d - 56320) + 65536))
                         (encodeURIComponent s'')
            else Throws URIError
        | [] => Throws URIError
        end
      else prepend (escape c) (encodeURIComponent s')
  end.

(** Sequencing: a throw ends the computation. *)
Definition and_then {A B} (c : completion A) (k : A -> completion B)
    : completion B :=
  match c with
  | Returns a => k a
  | Throws e => Throws e
  end.

(** What a call leaves in the world: requests and timer waits, in order. *)
Inductive Effect :=
| Fetch (url : jsstring)
| Wait (ms : Z).

(** ** Numbers that index arrays

    The numbers the list handlers receive are integers, or [NaN] when
    [parseInt] finds no digits. *)
Inductive number :=
| NaN
| Num (z : Z).

(** [a === b] on numbers: [NaN] equals nothing. *)
Definition strict_eq (a b : number) : bool :=
  match a, b with
  | Num x, Num y => x =? y
  | _, _ => false
  end.

(** The start position [Array.prototype.splice] computes from its first
    argument: [NaN] counts as 0, a negative number counts from the end, and
    the result is clamped to the array. *)
Definition relative_index (start : number) (len : nat) : nat :=
  match start with
  | NaN => O
  | Num z =>
      if z <? 0 then Z.to_nat (Z.max (Z.of_nat len + z) 0)
      else Z.to_nat (Z.min z (Z.of_nat len))
  end.

(** [l.splice(start, deleteCount, ...items)]: the removed elements and the
    array afterwards. *)
Definition splice {A} (start : number) (deleteCount : nat) (items l : list A)
    : list A * list A :=
  let s := relative_index start (length l) in
  let d := Nat.min deleteCount (length l - s) in
  (take d (drop s l), take s l ++ items ++ drop (s + d) l).

(** [s.startsWith(prefix)]. *)
Fixpoint startsWith (s prefix : jsstring) {struct prefix} : bool :=
  match prefix, s with
  | [], _ => true
  | p :: prefix, c :: s => (c =? p) && startsWith s prefix
  | _ :: _, [] => false
  end.

End JS.

Import JS.

(* ===================================================================== *)
(** * types.ts *)
(* ===================================================================== *)

Record City := mkCity {
  id : jsstring;
  name : jsstring;
  country : jsstring;
  lat : Q;
  lng : Q;
  timezone : jsstring;
}.

Record WeatherData := mkWeatherData {
  temperature : Q;
  conditionCode : Z;
  conditionText : jsstring;
  isDay : bool;
  localTime : jsstring;
}.

Inductive ViewStatus := idle | loading_weather | complete | error.

Record ViewState := mkViewState {
  status : ViewStatus;
  description : option jsstring;
}.

(* ===================================================================== *)
(** * services/weatherService.ts *)
(* ===================================================================== *)

Module WeatherService.

Definition RAW_GITHUB_BASE : jsstring :=
  lit "https://raw.githubusercontent.com/Shellwecode/weather-illustrations/main".

Abbreviation FolderManifest := (list jsstring).

(** ** getWeatherCategory *)

Definition includes (l : list Z) (x : Z) : bool := existsb (Z.eqb x) l.

Definition snow_codes : list Z := [71; 73; 75; 77; 85; 86].
Definition rain_codes : list Z :=
  [51; 53; 55; 56; 57; 61; 63; 65; 66; 67; 80; 81; 82; 95; 96; 99].

Definition getWeatherCategory (weather : option WeatherData) : option jsstring :=
  match weather with
  | None => None
  | Some weather =>
      let code := conditionCode weather in
      let condition :=
        if includes snow_codes code then lit "snow"
        else if includes rain_codes code then lit "rain"
        else lit "clear" in
      Some (condition ++ lit "-" ++
            (if isDay weather then lit "day" else lit "night"))
  end.

(** ** selectImageFromManifest *)

(** One turn of the loop body:
    [hash = ((hash << 5) - hash) + seed.charCodeAt(i); hash |= 0]. *)
Definition hash_step (hash c : Z) : Z :=
  let hash := (shl hash 5 - hash) + c in
  bor hash 0.

(** [for (let i = 0; i < seed.length; i++) ...], from [hash = 0]; the code
    units [seed.charCodeAt(i)] are the elements of the list, in order. *)
Definition seed_hash (seed : jsstring) : Z := fold_left hash_step seed 0.

Definition selectImageFromManifest
    (category : jsstring) (manifest : FolderManifest) (seed : jsstring)
    : option jsstring :=
  if (length manifest =? 0)%nat then None
  else
    let hash := seed_hash seed in
    let index := JS.rem (Z.abs hash) (Z.of_nat (length manifest)) in
    let filename :=
      match manifest !! Z.to_nat index with
      | Some f => f
      | None => lit "undefined"
      end in
    Some (RAW_GITHUB_BASE ++ lit "/" ++ category ++ lit "/" ++ filename).

(** The selection as the specification words it: fold
    [hash = hash*31 + charCode] with wrap-around to the signed 32-bit
    range, absolute value modulo the manifest length. *)
Definition spec_hash (seed : jsstring) : Z :=
  fold_left (λ hash c, toInt32 (hash * 31 + c)) seed 0.

Definition spec_index (manifest : FolderManifest) (seed : jsstring) : nat :=
  Z.to_nat (Z.abs (spec_hash seed) mod Z.of_nat (length manifest)).

(** ** The time pattern [/(\d+):(\d+)\s*(AM|PM)/i] *)

(** The longest prefix of [s] whose code units satisfy [p], and the rest. *)
Fixpoint span (p : Z -> bool) (s : jsstring) : jsstring * jsstring :=
  match s with
  | [] => ([], [])
  | c :: s' =>
      if p c then let '(a, b) := span p s' in (c :: a, b) else ([], s)
  end.

(** The alternation [(AM|PM)] under the [i] flag, at the head of [s]. *)
Definition match_ampm (s : jsstring) : option jsstring :=
  match s with
  | a :: m :: _ =>
      if ((upper_unit a =? 65) || (upper_unit a =? 80)) && (upper_unit m =? 77)
      then Some [a; m] else None
  | _ => None
  end.

(** One attempt of the pattern, anchored at the head of [s]; the groups are
    returned.  Each quantifier is greedy and no shorter choice can succeed:
    after a shorter run of digits comes a digit, where the pattern wants
    [:] or a letter, and after a shorter run of spaces comes a space. *)
Definition match_here (s : jsstring) : option (jsstring * jsstring * jsstring) :=
  let '(h, r1) := span is_digit s in
  match h, r1 with
  | _ :: _, c :: r2 =>
      if c =? 58 then
        let '(m, r3) := span is_digit r2 in
        match m with
        | [] => None
        | _ :: _ =>
            let '(_, r4) := span is_space r3 in
            match match_ampm r4 with
            | Some ap => Some (h, m, ap)
            | None => None
            end
        end
      else None
  | _, _ => None
  end.

(** [timeStr.match(...)]: the leftmost position where an attempt succeeds. *)
Fixpoint time_match (s : jsstring) : option (jsstring * jsstring * jsstring) :=
  match match_here s with
  | Some g => Some g
  | None => match s with [] => None | _ :: s' => time_match s' end
  end.

(** The block both resolvers start with:
    [let hour = 12; if (match) { hour = parseInt(match[1], 10); ... }]. *)
Definition hour_of (timeStr : jsstring) : Z :=
  match time_match timeStr with
  | None => 12
  | Some (h, _, ap) =>
      let hour := parseInt_digits h in
      let ampm := toUpperCase ap in
      let hour := if bool_decide (ampm = lit "PM") && (hour <? 12)
                  then hour + 12 else hour in
      let hour := if bool_decide (ampm = lit "AM") && (hour =? 12)
                  then 0 else hour in
      hour
  end.

(** The conversion to the 24-hour clock as the specification words it:
    12 AM is 0, 12 PM stays 12, PM hours below 12 get +12. *)
Definition spec_hour24 (hour12 : Z) (pm : bool) : Z :=
  if pm then (if hour12 <? 12 then hour12 + 12 else hour12)
  else (if hour12 =? 12 then 0 else hour12).

(** ** getTextContrastClass *)

Record Contrast := mkContrast { main : jsstring; sub : jsstring }.

Definition getTextContrastClass (timeStr : option jsstring) : Contrast :=
  match timeStr with
  | None | Some [] => mkContrast (lit "text-zinc-950") (lit "text-zinc-500")
  | Some timeStr =>
      let hour := hour_of timeStr in
      if (6 <=? hour) && (hour <? 18)
      then mkContrast (lit "text-zinc-900") (lit "text-zinc-500")
      else mkContrast (lit "text-white") (lit "text-white/70")
  end.

(** ** getTimeOfDayBg *)

(** The chain of comparisons: the locals [bucket] and [color]. *)
Definition bucket_and_color (hour : Z) : jsstring * jsstring :=
  if (23 <=? hour) || (hour <? 3) then (lit "Deep Night", lit "#273657")
  else if (3 <=? hour) && (hour <? 6) then (lit "Late Night", lit "#4E72A0")
  else if (6 <=? hour) && (hour <? 12) then (lit "Morning", lit "#F7F9FF")
  else if (12 <=? hour) && (hour <? 18) then (lit "Afternoon", lit "#F2F4FF")
  else (lit "Evening", lit "#96A8C2").

(** The optional second parameter [cityName] is never read and is left
    out. *)
Definition getTimeOfDayBg (timeStr : option jsstring) : jsstring :=
  match timeStr with
  | None | Some [] => lit "#F7F9FF"
  | Some timeStr => snd (bucket_and_color (hour_of timeStr))
  end.

(** ** The two resolvers with the reads that can throw

    A property read on [null] throws a TypeError.  Both resolvers make such
    reads: [timeStr.match] on the argument, of type [string | null], and
    [match[1]], [match[3]] on the result of the match, which is [null] when
    the pattern does not occur.  The definitions below follow the
    statements of the two functions once more, with these reads as
    operations that can throw. *)

Module Throwing.

Definition TypeError : Error :=
  mkError (lit "Cannot read properties of null").

(** [timeStr.match(/(\d+):(\d+)\s*(AM|PM)/i)]: [null], or the match with
    its three groups. *)
Definition String_match (timeStr : option jsstring)
    : completion (option (jsstring * jsstring * jsstring)) :=
  match timeStr with
  | None => Throws TypeError
  | Some s => Returns (time_match s)
  end.

(** [match[i]] for a group [i] from 1 to 3. *)
Definition group (match_ : option (jsstring * jsstring * jsstring)) (i : nat)
    : completion jsstring :=
  match match_ with
  | None => Throws TypeError
  | Some (g1, g2, g3) =>
      Returns (match i with 1%nat => g1 | 2%nat => g2 | _ => g3 end)
  end.

(** [const match = ...; let hour = 12; if (match) { ... }]. *)
Definition hour_of (timeStr : option jsstring) : completion Z :=
  and_then (String_match timeStr) (λ match_,
    if bool_decide (is_Some match_) then
      and_then (group match_ 1) (λ g1,
        let hour := parseInt_digits g1 in
        and_then (group match_ 3) (λ g3,
          let ampm := toUpperCase g3 in
          let hour := if bool_decide (ampm = lit "PM") && (hour <? 12)
                      then hour + 12 else hour in
          let hour := if bool_decide (ampm = lit "AM") && (hour =? 12)
                      then 0 else hour in
          Returns hour))
    else Returns 12).

(** [!timeStr]. *)
Definition absent (timeStr : option jsstring) : bool :=
  match timeStr with
  | None => true
  | Some s => negb (truthy s)
  end.

Definition getTextContrastClass (timeStr : option jsstring)
    : completion Contrast :=
  if absent timeStr
  then Returns (mkContrast (lit "text-zinc-950") (lit "text-zinc-500"))
  else
    and_then (hour_of timeStr) (λ hour,
      if (6 <=? hour) && (hour <? 18)
      then Returns (mkContrast (lit "text-zinc-900") (lit "text-zinc-500"))
      else Returns (mkContrast (lit "text-white") (lit "text-white/70"))).

Definition getTimeOfDayBg (timeStr : option jsstring) : completion jsstring :=
  if absent timeStr then Returns (lit "#F7F9FF")
  else
    and_then (hour_of timeStr) (λ hour,
      Returns (snd (bucket_and_color hour))).

End Throwing.

(** ** fetchFolderManifest *)

(** What the network does with one manifest request.  [body = None]: the
    body is not JSON, [res.json()] rejects. *)
Inductive ManifestResponse :=
| ManifestNetworkError
| ManifestHttp (ok : bool) (body : option FolderManifest).

(** The life of the promise stored in [pendingManifests]: the request is
    out; the [then]/[catch] handler has run and produced [v]; the [finally]
    handler has run and the promise is fulfilled with [v]. *)
Inductive Phase :=
| Fetching
| Settled (v : FolderManifest)
| Fulfilled (v : FolderManifest).

(** The module-level state: the two dictionaries, the promises created so
    far (a promise is named by its position) with the category each one
    fetches, and the log of the requests sent. *)
Record ManifestStore := mkStore {
  manifestCache : gmap jsstring FolderManifest;
  pendingManifests : gmap jsstring nat;
  promises : list (jsstring * Phase);
  network : list jsstring;
}.

Definition empty_store : ManifestStore := mkStore ∅ ∅ [] [].

Definition manifest_url (category : jsstring) : jsstring :=
  RAW_GITHUB_BASE ++ lit "/" ++ category ++ lit "/index.json".

(** What the caller of the [async] function holds: a promise already
    resolved with a value, or one that follows the pending promise [p]. *)
Inductive Awaited :=
| Now (v : FolderManifest)
| Later (p : nat).

(** The synchronous part of a call. *)
Definition fetchFolderManifest (category : jsstring) (st : ManifestStore)
    : Awaited * ManifestStore :=
  match manifestCache st !! category with
  | Some v => (Now v, st)
  | None =>
      match pendingManifests st !! category with
      | Some p => (Later p, st)
      | None =>
          let p := length (promises st) in
          (Later p,
           mkStore (manifestCache st)
                   (<[category := p]> (pendingManifests st))
                   (promises st ++ [(category, Fetching)])
                   (network st ++ [manifest_url category]))
      end
  end.

(** The value the [then] handler returns, or [[]] from the [catch]
    handler. *)
Definition settled_value (r : ManifestResponse) : FolderManifest :=
  match r with
  | ManifestHttp true (Some data) => data
  | _ => []
  end.

(** The [then]/[catch] handlers of promise [p], run when the network
    answers: both write [manifestCache[category]]. *)
Definition on_response (p : nat) (r : ManifestResponse) (st : ManifestStore)
    : option ManifestStore :=
  match promises st !! p with
  | Some (category, Fetching) =>
      let v := settled_value r in
      Some (mkStore (<[category := v]> (manifestCache st))
                    (pendingManifests st)
                    (<[p := (category, Settled v)]> (promises st))
                    (network st))
  | _ => None
  end.

(** The [finally] handler of promise [p]:
    [delete pendingManifests[category]]. *)
Definition on_finally (p : nat) (st : ManifestStore) : option ManifestStore :=
  match promises st !! p with
  | Some (category, Settled v) =>
      Some (mkStore (manifestCache st)
                    (delete category (pendingManifests st))
                    (<[p := (category, Fulfilled v)]> (promises st))
                    (network st))
  | _ => None
  end.

(** The event loop interleaves calls with the handlers of outstanding
    promises, one at a time. *)
Inductive Event :=
| Call (category : jsstring)
| Respond (p : nat) (r : ManifestResponse)
| Finally (p : nat).

Definition step (e : Event) (st : ManifestStore) : option ManifestStore :=
  match e with
  | Call category => Some (snd (fetchFolderManifest category st))
  | Respond p r => on_response p r st
  | Finally p => on_finally p st
  end.

Fixpoint run (es : list Event) (st : ManifestStore) : option ManifestStore :=
  match es with
  | [] => Some st
  | e :: es => match step e st with Some st' => run es st' | None => None end
  end.

(** The number of requests sent for a category. *)
Definition requests_for (category : jsstring) (st : ManifestStore) : nat :=
  length (filter (λ u, u = manifest_url category) (network st)).

(** The value a promise is fulfilled with, once it is. *)
Definition resolved (p : nat) (st : ManifestStore) : option FolderManifest :=
  match promises st !! p with
  | Some (_, Fulfilled v) => Some v
  | _ => None
  end.

(** What the two dictionaries, the promises and the request log have to do
    with each other in every state the event loop can reach. *)
Record consistent (st : ManifestStore) : Prop := mkConsistent {
  phases_agree : forall p c ph,
    promises st !! p = Some (c, ph) ->
    match ph with
    | Fetching =>
        manifestCache st !! c = None /\ pendingManifests st !! c = Some p
    | Settled v =>
        manifestCache st !! c = Some v /\ pendingManifests st !! c = Some p
    | Fulfilled v =>
        manifestCache st !! c = Some v /\ pendingManifests st !! c = None
    end;
  one_promise : forall p q c ph ph',
    promises st !! p = Some (c, ph) -> promises st !! q = Some (c, ph') -> p = q;
  requests_logged : network st = manifest_url ∘ fst <$> promises st;
}.

(** The category has been asked for before: its manifest is cached or its
    fetch is outstanding. *)
Definition known (category : jsstring) (st : ManifestStore) : Prop :=
  is_Some (manifestCache st !! category)
  \/ is_Some (pendingManifests st !! category).

(** Every pending entry names a promise of its category. *)
Definition tracked (st : ManifestStore) : Prop :=
  forall c p, pendingManifests st !! c = Some p ->
    exists ph, promises st !! p = Some (c, ph).

(** The only ways the phase of a promise moves on. *)
Definition follows (ph ph' : Phase) : Prop :=
  match ph with
  | Fetching => True
  | Settled v => ph' = Settled v \/ ph' = Fulfilled v
  | Fulfilled v => ph' = Fulfilled v
  end.

(** The manifest fetch failed: the network failed, the answer was not a
    success, or its body was not JSON. *)
Definition failed (r : ManifestResponse) : Prop :=
  r = ManifestNetworkError
  \/ (exists body, r = ManifestHttp false body)
  \/ r = ManifestHttp true None.

(** ** constants.ts: WMO_CODES *)

Definition WMO_CODES : gmap Z jsstring :=
  list_to_map
    [ (0, lit "Clear sky"); (1, lit "Mainly clear"); (2, lit "Partly cloudy");
      (3, lit "Overcast"); (45, lit "Fog"); (48, lit "Depositing rime fog");
      (51, lit "Light drizzle"); (53, lit "Moderate drizzle");
      (55, lit "Dense drizzle"); (61, lit "Slight rain");
      (63, lit "Moderate rain"); (65, lit "Heavy rain");
      (71, lit "Slight snow fall"); (73, lit "Moderate snow fall");
      (75, lit "Heavy snow fall"); (77, lit "Snow grains");
      (80, lit "Slight rain showers"); (81, lit "Moderate rain showers");
      (82, lit "Violent rain showers"); (85, lit "Slight snow showers");
      (86, lit "Heavy snow showers"); (95, lit "Thunderstorm") ].

(** ** fetchWeather *)

(** The [current] object of the provider's answer. *)
Record Current := mkCurrent {
  temperature_2m : Q;
  weather_code : Z;
  is_day : Z;
}.

(** What the network does with one weather request.  [body] is the
    outcome of [await response.json()] followed by the reads of
    [data.current.*]: an error when the body is not JSON or has no
    [current] object. *)
Inductive WeatherResponse :=
| WeatherNetworkError (e : Error)
| WeatherHttp (ok : bool) (http_status : Z) (body : completion Current).

(** The world as [fetchWeather] meets it: the answer to the request of
    each turn of the loop, and what [Intl.DateTimeFormat(...).format(now)]
    gives at that moment (it throws on a time zone it does not know). *)
Record WeatherEnv := mkWeatherEnv {
  respond : nat -> WeatherResponse;
  formatLocalTime : nat -> completion jsstring;
}.

(** How one turn of the loop ends. *)
Inductive Attempt :=
| Succeeded (w : WeatherData)
| RateLimited
| Failed (e : Error).

(** The body of the [try] block at turn [i]. *)
Definition attempt (env : WeatherEnv) (i : nat) : Attempt :=
  match respond env i with
  | WeatherNetworkError e => Failed e
  | WeatherHttp false http_status _ =>
      if http_status =? 429 then RateLimited
      else Failed (mkError (lit "Weather API Error: " ++ String_of_Z http_status))
  | WeatherHttp true _ (Throws e) => Failed e
  | WeatherHttp true _ (Returns current) =>
      match formatLocalTime env i with
      | Throws e => Failed e
      | Returns localTime =>
          Succeeded
            (mkWeatherData
               (temperature_2m current)
               (weather_code current)
               (or_else (WMO_CODES !! weather_code current) (lit "Unknown"))
               (bool_decide (is_day current = 1))
               localTime)
      end
  end.

(** [for (let i = 0; i < retries; i++) { ... }] followed by the final
    [throw]; [todo] is [retries - i], the turns still to run. *)
Fixpoint fetchWeather_loop (url : jsstring) (env : WeatherEnv)
    (retries i todo : nat) : completion WeatherData * list Effect :=
  match todo with
  | O => (Throws (mkError (lit "Weather fetch failed")), [])
  | S todo =>
      match attempt env i with
      | Succeeded w => (Returns w, [Fetch url])
      | RateLimited =>
          let '(r, t) := fetchWeather_loop url env retries (S i) todo in
          (r, Fetch url :: Wait (1500 * (Z.of_nat i + 1)) :: t)
      | Failed e =>
          if (i =? retries - 1)%nat then (Throws e, [Fetch url])
          else
            let '(r, t) := fetchWeather_loop url env retries (S i) todo in
            (r, Fetch url :: Wait (500 * 2 ^ Z.of_nat i) :: t)
      end
  end.

Section FetchWeather.

(** The conversion of a coordinate to the text spliced into the URL. *)
Variable Number_toString : Q -> jsstring.

Definition weather_url (city : City) (tz : jsstring) : jsstring :=
  lit "https://api.open-meteo.com/v1/forecast?latitude="
  ++ Number_toString (lat city) ++ lit "&longitude="
  ++ Number_toString (lng city)
  ++ lit "&current=temperature_2m,weather_code,is_day&timezone=" ++ tz.

Definition fetchWeather_retries (city : City) (retries : nat) (env : WeatherEnv)
    : completion WeatherData * list Effect :=
  let timezoneParam := or_else (Some (timezone city)) (lit "auto") in
  match encodeURIComponent timezoneParam with
  | Throws e => (Throws e, [])
  | Returns tz =>
      fetchWeather_loop (weather_url city tz) env retries 0 retries
  end.

(** [retries = 3] is the default every caller uses. *)
Definition fetchWeather (city : City) (env : WeatherEnv)
    : completion WeatherData * list Effect :=
  fetchWeather_retries city 3 env.

End FetchWeather.

(** The requests in a trace. *)
Definition is_fetch (e : Effect) : bool :=
  match e with Fetch _ => true | Wait _ => false end.

Definition fetches (t : list Effect) : nat := length (filter is_fetch t).

(** ** searchCities *)

(** One entry of the geocoding answer. *)
Record GeoResult := mkGeoResult {
  result_id : Z;
  result_name : jsstring;
  result_country : jsstring;
  result_latitude : Q;
  result_longitude : Q;
  result_timezone : option jsstring;
}.

(** The body of a geocoding answer as the code reads it: [response.json()]
    rejects or the reads throw; [data.results] is absent (or falsy);
    [data.results] is there but is not a list of entries, so that [map] or
    a field read throws; [data.results] is a list of entries. *)
Inductive SearchBody :=
| BodyUnreadable (e : Error)
| BodyWithoutResults
| BodyIllTyped (e : Error)
| BodyResults (results : list GeoResult).

Inductive SearchResponse :=
| SearchNetworkError (e : Error)
| SearchHttp (ok : bool) (body : SearchBody).

Definition search_url (q : jsstring) : jsstring :=
  lit "https://geocoding-api.open-meteo.com/v1/search?name=" ++ q
  ++ lit "&count=8&language=en&format=json".

(** The callback of [data.results.map]. *)
Definition to_city (result : GeoResult) : City :=
  mkCity (String_of_Z (result_id result))
         (result_name result)
         (result_country result)
         (result_latitude result)
         (result_longitude result)
         (or_else (result_timezone result) (lit "UTC")).

(** The City shape of an entry, as the specification words it: the fields
    carried over, the id as text, and ["UTC"] for a missing time zone. *)
Definition normalized (result : GeoResult) (c : City) : Prop :=
  id c = String_of_Z (result_id result)
  /\ name c = result_name result
  /\ country c = result_country result
  /\ lat c = result_latitude result
  /\ lng c = result_longitude result
  /\ (result_timezone result = None -> timezone c = lit "UTC")
  /\ (forall tz, result_timezone result = Some tz -> tz ≠ [] -> timezone c = tz).

(** The [try] block. *)
Definition searchCities_try (query : jsstring) (net : jsstring -> SearchResponse)
    : completion (list City) * list Effect :=
  match encodeURIComponent query with
  | Throws e => (Throws e, [])
  | Returns q =>
      let url := search_url q in
      match net url with
      | SearchNetworkError e => (Throws e, [Fetch url])
      | SearchHttp false _ => (Returns [], [Fetch url])
      | SearchHttp true (BodyUnreadable e) => (Throws e, [Fetch url])
      | SearchHttp true BodyWithoutResults => (Returns [], [Fetch url])
      | SearchHttp true (BodyIllTyped e) => (Throws e, [Fetch url])
      | SearchHttp true (BodyResults results) =>
          (Returns (to_city <$> results), [Fetch url])
      end
  end.

Definition searchCities (query : jsstring) (net : jsstring -> SearchResponse)
    : completion (list City) * list Effect :=
  if (length query <? 2)%nat then (Returns [], [])
  else
    match searchCities_try query net with
    | (Throws _, t) => (Returns [], t)
    | r => r
    end.

(** ** getWeatherGradient *)

Definition getWeatherGradient (weather : option WeatherData) : jsstring :=
  match weather with
  | None => lit "bg-[#0f1012]"
  | Some weather =>
      let code := conditionCode weather in
      if isDay weather then
        if includes [0; 1] code
        then lit "bg-gradient-to-br from-[#4a6fa5] to-[#c0d6df]"
        else if includes [2; 3; 45; 48] code
        then lit "bg-gradient-to-br from-[#748cab] to-[#d4dbe3]"
        else if includes [51; 61; 80; 81; 82; 63; 65] code
        then lit "bg-gradient-to-br from-[#4d5b6b] to-[#8fa2b8]"
        else if includes [71; 73; 75; 77; 85; 86] code
        then lit "bg-gradient-to-br from-[#dfe4ea] to-[#f1f2f6]"
        else lit "bg-gradient-to-br from-[#8d99ae] to-[#edf2f4]"
      else
        if includes [0; 1] code
        then lit "bg-gradient-to-br from-[#0b0f19] to-[#1b263b]"
        else if includes [71; 73; 75; 77; 85; 86] code
        then lit "bg-gradient-to-br from-[#1a1b26] to-[#2e3440]"
        else lit "bg-gradient-to-br from-[#08090a] to-[#161a1d]"
  end.

(** The waits of a trace, added up. *)
Definition total_wait (t : list Effect) : Z :=
  foldr (λ e acc, match e with Wait ms => ms + acc | Fetch _ => acc end) 0 t.

End WeatherService.

Import WeatherService.

(* ===================================================================== *)
(** * App.tsx *)
(* ===================================================================== *)

Module App.

(** The component's state: the [useState] cells and the [cacheRef] ref. *)
Record State := mkState {
  cities : list City;
  selectedCity : option City;
  weather : option WeatherData;
  isGridView : bool;
  weatherCache : gmap jsstring WeatherData;
  cacheRef : gmap jsstring WeatherData;
  viewState : ViewState;
}.

Definition setCities (v : list City) (st : State) : State :=
  mkState v (selectedCity st) (weather st) (isGridView st)
          (weatherCache st) (cacheRef st) (viewState st).

Definition setSelectedCity (v : option City) (st : State) : State :=
  mkState (cities st) v (weather st) (isGridView st)
          (weatherCache st) (cacheRef st) (viewState st).

Definition setWeather (v : option WeatherData) (st : State) : State :=
  mkState (cities st) (selectedCity st) v (isGridView st)
          (weatherCache st) (cacheRef st) (viewState st).

Definition setIsGridView (v : bool) (st : State) : State :=
  mkState (cities st) (selectedCity st) (weather st) v
          (weatherCache st) (cacheRef st) (viewState st).

(** [setWeatherCache(prev => f(prev))]. *)
Definition setWeatherCache
    (f : gmap jsstring WeatherData -> gmap jsstring WeatherData) (st : State)
    : State :=
  mkState (cities st) (selectedCity st) (weather st) (isGridView st)
          (f (weatherCache st)) (cacheRef st) (viewState st).

Definition setCacheRef
    (f : gmap jsstring WeatherData -> gmap jsstring WeatherData) (st : State)
    : State :=
  mkState (cities st) (selectedCity st) (weather st) (isGridView st)
          (weatherCache st) (f (cacheRef st)) (viewState st).

(** [setViewState(prev => f(prev))]. *)
Definition setViewState (f : ViewState -> ViewState) (st : State) : State :=
  mkState (cities st) (selectedCity st) (weather st) (isGridView st)
          (weatherCache st) (cacheRef st) (f (viewState st)).

Definition describe (city : City) (w : WeatherData) : jsstring :=
  lit "A view of " ++ name city ++ lit " in "
  ++ toLowerCase (conditionText w) ++ lit " conditions.".

(** [constants.ts]: the default city list. *)
Definition CITIES : list City :=
  [ mkCity (lit "reykjavik") (lit "Reykjav" ++ [237] ++ lit "k") (lit "Iceland")
           (641466 # 10000) (-(219426 # 10000)) (lit "Atlantic/Reykjavik");
    mkCity (lit "kyoto") (lit "Kyoto") (lit "Japan")
           (350116 # 10000) (1357681 # 10000) (lit "Asia/Tokyo");
    mkCity (lit "tromso") (lit "Troms" ++ [248]) (lit "Norway")
           (696492 # 10000) (189553 # 10000) (lit "Europe/Oslo");
    mkCity (lit "vancouver") (lit "Vancouver") (lit "Canada")
           (492827 # 10000) (-(1231207 # 10000)) (lit "America/Vancouver");
    mkCity (lit "edinburgh") (lit "Edinburgh") (lit "Scotland")
           (559533 # 10000) (-(31883 # 10000)) (lit "Europe/London");
    mkCity (lit "seoul") (lit "Seoul") (lit "South Korea")
           (375665 # 10000) (1269780 # 10000) (lit "Asia/Seoul");
    mkCity (lit "copenhagen") (lit "Copenhagen") (lit "Denmark")
           (556761 # 10000) (125683 # 10000) (lit "Europe/Copenhagen") ].

(** The state of the first render when nothing is stored:
    the default list, its first city selected, empty caches. *)
Definition initial_state : State :=
  mkState CITIES (head CITIES) None false ∅ ∅ (mkViewState idle None).

(** ** loadScene

    The callback closes over the [weatherCache] of the render that created
    it ([useCallback(..., [weatherCache])]); that captured dictionary is
    the parameter [captured], which both tests read.  The function is cut
    at [await fetchWeather(city)]: [loadScene_begin] runs up to it,
    [loadScene_resume] from the outcome on, on whatever the state has
    become in between. *)

Definition loadScene_begin (captured : gmap jsstring WeatherData)
    (city : City) (st : State) : State :=
  match captured !! id city with
  | Some w =>
      setViewState (λ _, mkViewState complete (Some (describe city w)))
        (setWeather (Some w) st)
  | None =>
      setViewState (λ prev, mkViewState loading_weather (description prev)) st
  end.

Definition loadScene_resume (captured : gmap jsstring WeatherData)
    (city : City) (r : completion WeatherData) (st : State) : State :=
  match r with
  | Returns weatherData =>
      setViewState
        (λ _, mkViewState complete (Some (describe city weatherData)))
        (setCacheRef (λ c, <[id city := weatherData]> c)
           (setWeatherCache (λ prev, <[id city := weatherData]> prev)
              (setWeather (Some weatherData) st)))
  | Throws _ =>
      match captured !! id city with
      | None =>
          setWeather None
            (setViewState (λ prev, mkViewState error (description prev)) st)
      | Some _ => st
      end
  end.

(** ** The prefetch effect, for one city of the list

    [if (!cacheRef.current[city.id])] guards the fetch; the [catch] only
    logs. *)

Definition prefetch_wanted (city : City) (st : State) : bool :=
  bool_decide (cacheRef st !! id city = None).

Definition prefetch_resume (city : City) (r : completion WeatherData)
    (st : State) : State :=
  match r with
  | Returns data =>
      setWeatherCache (λ prev, <[id city := data]> prev)
        (setCacheRef (λ c, <[id city := data]> c) st)
  | Throws _ => st
  end.

(** ** handleCityChange *)

Definition handleCityChange (city : City) (st : State) : State :=
  let isNewCity :=
    match selectedCity st with
    | None => true
    | Some sel => negb (bool_decide (id city = id sel))
    end in
  let st :=
    if isNewCity
    then setSelectedCity (Some city) (setWeather (weatherCache st !! id city) st)
    else st in
  if isGridView st then setIsGridView false st else st.

(** ** handleAddCity *)

(** The predicate given to [cities.find]. *)
Definition same_city (newCity c : City) : bool :=
  bool_decide (id c = id newCity)
  || (bool_decide (name c = name newCity)
      && bool_decide (country c = country newCity)).

Definition handleAddCity (newCity : City) (st : State) : State :=
  match find (same_city newCity) (cities st) with
  | Some found => handleCityChange found st
  | None =>
      let updatedCities := cities st ++ [newCity] in
      handleCityChange newCity (setCities updatedCities st)
  end.

(** ** handleRemoveCity

    ([e.stopPropagation()] concerns the DOM only.) *)

Definition handleRemoveCity (cityId : jsstring) (st : State) : State :=
  let newCities := filter (λ c, id c ≠ cityId) (cities st) in
  let st' := setCities newCities st in
  match selectedCity st with
  | Some sel =>
      if bool_decide (id sel = cityId) then
        match newCities with
        | first :: _ => setSelectedCity (Some first) st'
        | [] => setWeather None (setSelectedCity None st')
        end
      else st'
  | None => st'
  end.

(** ** handleReorderCities

    [const [movedCity] = newCities.splice(fromIndex, 1)] is [undefined]
    when nothing was removed, and the second [splice] then inserts that
    [undefined]: the outcome [Undefined_entry] carries the array that
    [setCities] receives in that case. *)

Inductive Reorder :=
| Reordered (st : State)
| Undefined_entry (newCities : list (option City)).

Definition handleReorderCities (fromIndex toIndex : number) (st : State)
    : Reorder :=
  if strict_eq fromIndex toIndex then Reordered st
  else
    let newCities := cities st in
    let '(removed, newCities) := splice fromIndex 1 [] newCities in
    match removed with
    | movedCity :: _ =>
        Reordered (setCities (snd (splice toIndex 0 [movedCity] newCities)) st)
    | [] =>
        Undefined_entry (snd (splice toIndex 0 [None] (Some <$> newCities)))
    end.

(** ** The handlers as events

    What can happen to the component, one event at a time.  A city is
    selected from the dropdown or the grid, which show the cities of the
    list; the other events carry what their handler receives. *)
Inductive Action :=
| SelectCity (index : nat)
| AddCity (newCity : City)
| RemoveCity (cityId : jsstring)
| ReorderCities (fromIndex toIndex : number)
| ToggleGrid
| SceneBegins (captured : gmap jsstring WeatherData) (city : City)
| SceneResumes (captured : gmap jsstring WeatherData) (city : City)
               (r : completion WeatherData)
| PrefetchResumes (city : City) (r : completion WeatherData).

(** [None]: the event cannot happen in this state (there is no such
    listed city to click, the grid button is disabled), or the list has
    been given an [undefined] entry and rendering stops. *)
Definition act (a : Action) (st : State) : option State :=
  match a with
  | SelectCity index =>
      match cities st !! index with
      | Some city => Some (handleCityChange city st)
      | None => None
      end
  | AddCity newCity => Some (handleAddCity newCity st)
  | RemoveCity cityId => Some (handleRemoveCity cityId st)
  | ReorderCities fromIndex toIndex =>
      match handleReorderCities fromIndex toIndex st with
      | Reordered st' => Some st'
      | Undefined_entry _ => None
      end
  | ToggleGrid =>
      match selectedCity st, isGridView st with
      | None, false => None
      | _, _ => Some (setIsGridView (negb (isGridView st)) st)
      end
  | SceneBegins captured city => Some (loadScene_begin captured city st)
  | SceneResumes captured city r => Some (loadScene_resume captured city r st)
  | PrefetchResumes city r => Some (prefetch_resume city r st)
  end.

Fixpoint acts (l : list Action) (st : State) : option State :=
  match l with
  | [] => Some st
  | a :: l => match act a st with Some st' => acts l st' | None => None end
  end.

(** The selected city is one of the listed cities, by id. *)
Definition selection_listed (st : State) : Prop :=
  forall sel, selectedCity st = Some sel ->
    exists c, c ∈ cities st /\ id c = id sel.

(** The prefetch effect for the whole list: the cities whose guard is open
    when the effect starts, and the state after their fetches have come
    back, in the order they came back. *)
Definition prefetch_batch (st : State) : list City :=
  filter (λ city, prefetch_wanted city st = true) (cities st).

Definition prefetch_settle (done : list (City * completion WeatherData))
    (st : State) : State :=
  fold_left (λ st cr, prefetch_resume (fst cr) (snd cr) st) done st.

End App.

Import App.

(* ===================================================================== *)
(** * components/CitySelect.tsx *)
(* ===================================================================== *)

Module CitySelect.

(** The component's [useState] cells (the dropdown position apart). *)
Record Select := mkSelect {
  isDropdownOpen : bool;
  isSearchOpen : bool;
  query : jsstring;
  results : list City;
  isSearching : bool;
  selectedIndex : Z;
}.

Definition closeSearch (cs : Select) : Select :=
  mkSelect (isDropdownOpen cs) false [] [] (isSearching cs) (selectedIndex cs).

Definition setSelectedIndex (f : Z -> Z) (cs : Select) : Select :=
  mkSelect (isDropdownOpen cs) (isSearchOpen cs) (query cs) (results cs)
           (isSearching cs) (f (selectedIndex cs)).

(** [onSelect] and [onAddCity] are the App's [handleCityChange] and
    [handleAddCity]: the handler acts on both states. *)
Definition handleSelectNew (city : City) (cs : Select) (app : App.State)
    : Select * App.State :=
  let app' :=
    match find (λ c, bool_decide (id c = id city)) (cities app) with
    | Some alreadySaved => handleCityChange alreadySaved app
    | None => handleAddCity city app
    end in
  (closeSearch cs, app').

Inductive Key := Escape | ArrowDown | ArrowUp | Enter | OtherKey.

(** [handleSelectNew(results[selectedIndex])] reads [city.id]: on an
    [undefined] entry it would throw. *)
Definition handleSearchKeyDown (key : Key) (cs : Select) (app : App.State)
    : completion (Select * App.State) :=
  match key with
  | Escape => Returns (closeSearch cs, app)
  | ArrowDown =>
      Returns (setSelectedIndex
                 (λ prev, Z.min (prev + 1) (Z.of_nat (length (results cs)) - 1))
                 cs, app)
  | ArrowUp =>
      Returns (setSelectedIndex (λ prev, Z.max (prev - 1) (-1)) cs, app)
  | Enter =>
      if (0 <? Z.of_nat (length (results cs))) && (0 <=? selectedIndex cs)
         && (selectedIndex cs <? Z.of_nat (length (results cs)))
      then
        match results cs !! Z.to_nat (selectedIndex cs) with
        | Some city => Returns (handleSelectNew city cs app)
        | None =>
            Throws (mkError (lit "Cannot read properties of undefined"))
        end
      else Returns (cs, app)
  | OtherKey => Returns (cs, app)
  end.

End CitySelect.

(* ===================================================================== *)
(** * components/CityGridItem.tsx and components/WindowFrame.tsx *)
(* ===================================================================== *)

Inductive ImgState := img_loading | img_loaded | img_error.

(** [url] is truthy. *)
Definition url_truthy (url : option jsstring) : bool :=
  match url with Some u => truthy u | None => false end.

Module CityGridItem.

(** [parseInt(s, 10)]: leading white space is skipped, one sign is read,
    then the longest run of decimal digits; no digit gives [NaN]. *)
Definition parseInt (s : jsstring) : number :=
  let s1 := snd (span is_space s) in
  let '(negative, s2) :=
    match s1 with
    | c :: r =>
        if c =? 45 then (true, r) else if c =? 43 then (false, r)
        else (false, s1)
    | [] => (false, s1)
    end in
  match fst (span is_digit s2) with
  | [] => NaN
  | digits =>
      Num (if negative : bool then - parseInt_digits digits
           else parseInt_digits digits)
  end.

(** [handleDragStart]: what [setData('cityIndex', index.toString())]
    stores. *)
Definition handleDragStart (index : nat) : jsstring :=
  String_of_Z (Z.of_nat index).

(** [handleDrop] on the item at [index], with what
    [getData('cityIndex')] gives; [onReorder] is the App's
    [handleReorderCities]. *)
Definition handleDrop (fromIndexStr : jsstring) (index : nat) (app : App.State)
    : Reorder :=
  if truthy fromIndexStr then
    let fromIndex := parseInt fromIndexStr in
    handleReorderCities fromIndex (Num (Z.of_nat index)) app
  else Reordered app.

(** The cells of the illustration: two [useState] cells and the [prevSrc]
    ref. *)
Record Img := mkImg {
  imgState : ImgState;
  currentSrc : option jsstring;
  prevSrc : option jsstring;
}.

(** [loadManifest] from [await fetchFolderManifest(category)] on. *)
Definition loadManifest_resume (isMounted : bool) (category : jsstring)
    (manifest : FolderManifest) (city : City) (g : Img) : Img :=
  if negb isMounted then g
  else
    let url := selectImageFromManifest category manifest (id city) in
    if url_truthy url && negb (bool_decide (url = prevSrc g))
    then mkImg img_loading url url
    else if negb (url_truthy url) then mkImg img_error (currentSrc g) (prevSrc g)
    else g.

End CityGridItem.

Module WindowFrame.

(** The cells of the illustration: two [useState] cells and the two
    refs. *)
Record Img := mkImg {
  imgState : ImgState;
  currentSrc : option jsstring;
  prevSrc : option jsstring;
  categoryRef : option jsstring;
}.

(** [loadManifest] from [await fetchFolderManifest(category)] on.  The
    callback reads the [currentSrc] and [imgState] of the render that
    started the effect: [capturedSrc] and [capturedImg]. *)
Definition loadManifest_resume (isMounted : bool)
    (capturedSrc : option jsstring) (capturedImg : ImgState)
    (category : jsstring) (manifest : FolderManifest) (city : City) (w : Img)
    : Img :=
  if negb isMounted then w
  else
    let url := selectImageFromManifest category manifest (id city) in
    if url_truthy url then
      if negb (bool_decide (url = capturedSrc)) then
        let imgState' :=
          if negb (bool_decide (Some category = categoryRef w))
             || negb (bool_decide (id city = id city))
          then img_loading else imgState w in
        mkImg imgState' url url (Some category)
      else
        match capturedImg with
        | img_error => mkImg img_loading (currentSrc w) (prevSrc w) (categoryRef w)
        | _ => w
        end
    else mkImg img_error None (prevSrc w) (categoryRef w).

(** [AtmosphericOverlays]: which overlays are rendered for a snapshot:
    rain, snow, night lamps, clear-day shimmer. *)
Definition overlays (weather : WeatherData) : bool * bool * bool * bool :=
  let category :=
    match getWeatherCategory (Some weather) with
    | Some c => if truthy c then c else []
    | None => []
    end in
  let isRain := startsWith category (lit "rain") in
  let isSnow := startsWith category (lit "snow") in
  let isClear := startsWith category (lit "clear") in
  let isNight := negb (isDay weather) in
  (isRain, isSnow, isNight, isClear && negb isNight).

End WindowFrame.

(* ===================================================================== *)
(** * Sample data *)
(* ===================================================================== *)

Module Samples.

(** A rendering of coordinates with four decimals. *)
Definition decimal4 (q : Q) : jsstring :=
  let n := Qfloor (q * 10000 + (1 # 2))%Q in
  let digits := String_of_Z (Z.abs n mod 10000) in
  (if n <? 0 then lit "-" else []) ++ String_of_Z (Z.abs n / 10000) ++ lit "."
  ++ replicate (4 - length digits) 48 ++ digits.

Definition kyoto : City :=
  mkCity (lit "kyoto") (lit "Kyoto") (lit "Japan")
         (350116 # 10000) (1357681 # 10000) (lit "Asia/Tokyo").

Definition snowy_night : WeatherData :=
  mkWeatherData (-(3 # 2)) 71 (lit "Slight snow fall") false (lit "09:15 PM").

(** The provider answers 429, then the connection drops, then it answers
    500. *)
Definition outage : WeatherEnv :=
  mkWeatherEnv
    (λ i, match i with
          | O => WeatherHttp false 429 (Throws (mkError (lit "no body")))
          | S O => WeatherNetworkError (mkError (lit "Failed to fetch"))
          | _ => WeatherHttp false 500 (Throws (mkError (lit "no body")))
          end)
    (λ _, Returns (lit "09:15 PM")).

(** The first city of the default list. *)
Definition reykjavik : City :=
  mkCity (lit "reykjavik") (lit "Reykjav" ++ [237] ++ lit "k") (lit "Iceland")
         (641466 # 10000) (-(219426 # 10000)) (lit "Atlantic/Reykjavik").

(** The provider answers at once: light snow, at night. *)
Definition fair : WeatherEnv :=
  mkWeatherEnv
    (λ _, WeatherHttp true 200 (Returns (mkCurrent (-(3 # 2)) 71 0)))
    (λ _, Returns (lit "09:15 PM")).

(** The state in which Kyoto's weather has been cached. *)
Definition kyoto_cached : State :=
  setWeatherCache (λ prev, <[id kyoto := snowy_night]> prev) initial_state.

(** A geocoding service that knows one place, without a time zone. *)
Definition paris : GeoResult :=
  mkGeoResult 2988507 (lit "Paris") (lit "France")
              (488534 # 10000) (23488 # 10000) None.

Definition geocoder (url : jsstring) : SearchResponse :=
  SearchHttp true (BodyResults [paris]).

End Samples.

Import Samples.

(* ===================================================================== *)
(** * Properties *)
(* ===================================================================== *)

Section Int32.

Lemma toInt32_range z : - 2 ^ 31 <= toInt32 z < 2 ^ 31.
Proof. unfold toInt32. pose proof (Z.mod_pos_bound (z + 2 ^ 31) (2 ^ 32)). lia. Qed.

Lemma toInt32_small z : - 2 ^ 31 <= z < 2 ^ 31 -> toInt32 z = z.
Proof. intros H. unfold toInt32. rewrite Z.mod_small; lia. Qed.

Lemma toInt32_idem z : toInt32 (toInt32 z) = toInt32 z.
Proof. apply toInt32_small, toInt32_range. Qed.

Lemma toInt32_eqm a b : a mod 2 ^ 32 = b mod 2 ^ 32 -> toInt32 a = toInt32 b.
Proof.
  intros H. unfold toInt32.
  rewrite (Z.add_mod a), (Z.add_mod b), H by lia. reflexivity.
Qed.

Lemma toInt32_mod z : toInt32 z mod 2 ^ 32 = z mod 2 ^ 32.
Proof.
  unfold toInt32.
  rewrite Zminus_mod, Z.mod_mod, <- Zminus_mod by lia.
  f_equal. lia.
Qed.

End Int32.

Lemma lor_0_r_int32 z : bor z 0 = toInt32 z.
Proof.
  unfold bor. replace (toInt32 0) with 0 by reflexivity.
  rewrite Z.lor_0_r. apply toInt32_idem.
Qed.

Lemma shl_5 z : shl z 5 = toInt32 (z * 32).
Proof.
  unfold shl. replace (Z.land 5 31) with 5 by reflexivity.
  rewrite Z.shiftl_mul_pow2 by lia. apply toInt32_eqm.
  replace (2 ^ 5) with 32 by reflexivity.
  rewrite Z.mul_mod, toInt32_mod, <- Z.mul_mod by lia. reflexivity.
Qed.

(* ===================================================================== *)
(** ** getWeatherCategory *)
(* ===================================================================== *)

Section Category.

Lemma includes_elem (l : list Z) (x : Z) : includes l x = true <-> x ∈ l.
Proof.
  unfold includes. rewrite existsb_exists. split.
  - intros (y & Hy & ->%Z.eqb_eq). by apply list_elem_of_In.
  - intros Hx. exists x. split; [by apply list_elem_of_In | apply Z.eqb_refl].
Qed.

Lemma includes_not_elem (l : list Z) (x : Z) : includes l x = false <-> x ∉ l.
Proof.
  rewrite <- includes_elem. destruct (includes l x); split; congruence.
Qed.

(** No code is both a snow code and a rain code: the order of the two
    tests does not matter. *)
Lemma snow_rain_disjoint (code : Z) : code ∈ snow_codes -> code ∉ rain_codes.
Proof.
  intros Hs Hr. apply includes_elem in Hs, Hr.
  unfold includes, snow_codes, rain_codes in *. simpl in *.
  repeat match goal with
  | H : (_ || _)%bool = true |- _ => apply orb_prop in H; destruct H
  | H : (_ =? _) = true |- _ => apply Z.eqb_eq in H; subst
  end; discriminate.
Qed.

Lemma getWeatherCategory_unfold (w : WeatherData) :
  getWeatherCategory (Some w)
  = Some ((if includes snow_codes (conditionCode w) then lit "snow"
           else if includes rain_codes (conditionCode w) then lit "rain"
           else lit "clear")
          ++ lit "-" ++ (if isDay w then lit "day" else lit "night")).
Proof. reflexivity. Qed.

(** C7. For a non-null snapshot, [getWeatherCategory] returns the coarse
    class, a dash, and [day] or [night]; codes 71, 73, 75, 77, 85, 86 are
    snow; codes 51, 53, 55, 56, 57, 61, 63, 65, 66, 67, 80, 81, 82, 95, 96,
    99 are rain; every other code is clear.  Code 71 at night gives
    ["snow-night"]. *)
Theorem getWeatherCategory_classes (w : WeatherData) :
  let code := conditionCode w in
  let suffix := lit "-" ++ (if isDay w then lit "day" else lit "night") in
  (code ∈ [71; 73; 75; 77; 85; 86] ->
     getWeatherCategory (Some w) = Some (lit "snow" ++ suffix))
  /\ (code ∈ [51; 53; 55; 56; 57; 61; 63; 65; 66; 67; 80; 81; 82; 95; 96; 99] ->
     getWeatherCategory (Some w) = Some (lit "rain" ++ suffix))
  /\ (code ∉ [71; 73; 75; 77; 85; 86] ->
      code ∉ [51; 53; 55; 56; 57; 61; 63; 65; 66; 67; 80; 81; 82; 95; 96; 99] ->
     getWeatherCategory (Some w) = Some (lit "clear" ++ suffix))
  /\ (code = 71 -> isDay w = false ->
     getWeatherCategory (Some w) = Some (lit "snow-night")).
Proof.
  intros code suffix. subst code suffix.
  rewrite !getWeatherCategory_unfold.
  change [71; 73; 75; 77; 85; 86] with snow_codes.
  change [51; 53; 55; 56; 57; 61; 63; 65; 66; 67; 80; 81; 82; 95; 96; 99]
    with rain_codes.
  assert (Hsnow : conditionCode w ∈ snow_codes ->
                  includes snow_codes (conditionCode w) = true)
    by apply includes_elem.
  repeat split.
  - intros Hs. by rewrite Hsnow.
  - intros Hr.
    destruct (includes snow_codes (conditionCode w)) eqn:Hs.
    + apply includes_elem in Hs. by destruct (snow_rain_disjoint _ Hs).
    + apply includes_elem in Hr. by rewrite Hr.
  - intros Hs%includes_not_elem Hr%includes_not_elem. by rewrite Hs, Hr.
  - intros H71 Hnight. rewrite Hsnow, Hnight; [done|].
    rewrite H71. set_solver.
Qed.

Lemma getWeatherCategory_classes_witness :
  getWeatherCategory
    (Some (mkWeatherData (-(3 # 2)) 71 (lit "Slight snow fall") false
                         (lit "09:15 PM")))
  = Some (lit "snow-night").
Proof.
  apply (getWeatherCategory_classes
           (mkWeatherData (-(3 # 2)) 71 (lit "Slight snow fall") false
                          (lit "09:15 PM"))); reflexivity.
Defined.

End Category.

(* ===================================================================== *)
(** ** selectImageFromManifest *)
(* ===================================================================== *)

Section ImageSelection.

(** One turn of the source's loop is one turn of the multiply-and-add
    scheme. *)
Lemma hash_step_mul31 (hash c : Z) : hash_step hash c = toInt32 (hash * 31 + c).
Proof.
  unfold hash_step. rewrite lor_0_r_int32, shl_5. apply toInt32_eqm.
  rewrite <- Z.add_sub_swap, <- Z.add_sub_assoc.
  rewrite Z.add_mod, toInt32_mod, <- Z.add_mod by lia.
  f_equal. lia.
Qed.

(** The intermediate value of a turn stays far inside the range where the
    source's floating-point arithmetic is exact. *)
Lemma hash_step_exact (hash c : Z) :
  - 2 ^ 31 <= hash < 2 ^ 31 -> 0 <= c < 65536 ->
  - 2 ^ 53 < shl hash 5 - hash + c < 2 ^ 53.
Proof.
  intros Hh Hc. rewrite shl_5. pose proof (toInt32_range (hash * 32)). lia.
Qed.

Lemma seed_hash_spec (seed : jsstring) : seed_hash seed = spec_hash seed.
Proof.
  unfold seed_hash, spec_hash. generalize 0.
  induction seed as [|c seed IH]; intros h; simpl; [done|].
  by rewrite hash_step_mul31, IH.
Qed.

Lemma seed_hash_range (seed : jsstring) : - 2 ^ 31 <= seed_hash seed < 2 ^ 31.
Proof.
  unfold seed_hash.
  assert (H : - 2 ^ 31 <= 0 < 2 ^ 31) by lia. revert H. generalize 0.
  induction seed as [|c seed IH]; intros h Hh; simpl; [done|].
  apply IH. rewrite hash_step_mul31. apply toInt32_range.
Qed.

Lemma spec_index_lt (manifest : FolderManifest) (seed : jsstring) :
  manifest ≠ [] -> (spec_index manifest seed < length manifest)%nat.
Proof.
  intros Hne. unfold spec_index.
  assert (0 < Z.of_nat (length manifest)) by (destruct manifest; simpl; [done|lia]).
  pose proof (Z.mod_pos_bound (Z.abs (spec_hash seed)) (Z.of_nat (length manifest))).
  lia.
Qed.

(** C2. For every category, non-empty manifest and seed,
    [selectImageFromManifest] returns the URL, under the category's remote
    folder, of the file name at index |hash| mod length, where the hash is
    the fold of [hash*31 + charCode] wrapped to the signed 32-bit range;
    the result is a function of (category, manifest, seed) alone. *)
Theorem selectImageFromManifest_spec
    (category : jsstring) (manifest : FolderManifest) (seed : jsstring) :
  manifest ≠ [] ->
  exists filename,
    manifest !! spec_index manifest seed = Some filename
    /\ selectImageFromManifest category manifest seed
       = Some (RAW_GITHUB_BASE ++ lit "/" ++ category ++ lit "/" ++ filename).
Proof.
  intros Hne.
  destruct (lookup_lt_is_Some_2 manifest (spec_index manifest seed)
              (spec_index_lt manifest seed Hne)) as [filename Hf].
  exists filename. split; [done|].
  unfold selectImageFromManifest.
  destruct (Nat.eqb_spec (length manifest) 0) as [H0|_].
  { by destruct manifest. }
  unfold JS.rem. rewrite Z.rem_mod_nonneg, seed_hash_spec.
  - fold (spec_index manifest seed). by rewrite Hf.
  - lia.
  - destruct manifest; simpl in *; [done|lia].
Qed.

Lemma selectImageFromManifest_spec_witness :
  exists filename,
    [lit "a.png"; lit "b.png"; lit "c.png"] !!
      spec_index [lit "a.png"; lit "b.png"; lit "c.png"] (lit "kyoto")
    = Some filename
    /\ selectImageFromManifest (lit "snow-night")
         [lit "a.png"; lit "b.png"; lit "c.png"] (lit "kyoto")
       = Some (RAW_GITHUB_BASE ++ lit "/" ++ lit "snow-night" ++ lit "/"
               ++ filename).
Proof.
  apply (selectImageFromManifest_spec (lit "snow-night")
           [lit "a.png"; lit "b.png"; lit "c.png"] (lit "kyoto")).
  discriminate.
Defined.

End ImageSelection.

(* ===================================================================== *)
(** ** The time pattern, getTimeOfDayBg and getTextContrastClass *)
(* ===================================================================== *)

Section TimeOfDay.

Lemma match_ampm_upper (s ap : jsstring) :
  match_ampm s = Some ap ->
  toUpperCase ap = lit "AM" \/ toUpperCase ap = lit "PM".
Proof.
  unfold match_ampm. destruct s as [|a [|m s]]; try discriminate.
  destruct (upper_unit a =? 65) eqn:Ha; destruct (upper_unit a =? 80) eqn:Hp;
    destruct (upper_unit m =? 77) eqn:Hm; simpl; try discriminate;
    intros [= <-]; simpl;
    apply Z.eqb_eq in Hm; rewrite Hm;
    first [ apply Z.eqb_eq in Ha; rewrite Ha; by left
          | apply Z.eqb_eq in Hp; rewrite Hp; by right ].
Qed.

Lemma match_here_upper (s h m ap : jsstring) :
  match_here s = Some (h, m, ap) ->
  toUpperCase ap = lit "AM" \/ toUpperCase ap = lit "PM".
Proof.
  unfold match_here.
  destruct (span is_digit s) as [h' r1].
  destruct h' as [|d h']; [discriminate|].
  destruct r1 as [|c r2]; [discriminate|].
  destruct (c =? 58); [|discriminate].
  destruct (span is_digit r2) as [m' r3].
  destruct m' as [|d' m']; [discriminate|].
  destruct (span is_space r3) as [sp r4].
  destruct (match_ampm r4) as [ap'|] eqn:Hap; [|discriminate].
  intros [= _ _ <-]. by eapply match_ampm_upper.
Qed.

Lemma time_match_upper (s h m ap : jsstring) :
  time_match s = Some (h, m, ap) ->
  toUpperCase ap = lit "AM" \/ toUpperCase ap = lit "PM".
Proof.
  induction s as [|c s IH]; simpl.
  - discriminate.
  - destruct (match_here (c :: s)) as [[[h' m'] ap']|] eqn:Hm; [|exact IH].
    intros [= -> -> ->]. by eapply match_here_upper.
Qed.

Lemma time_match_nonempty (s : jsstring) : is_Some (time_match s) -> s ≠ [].
Proof. intros [g Hg] ->. vm_compute in Hg. discriminate. Qed.

(** The hour the code computes is the hour of the specification's
    conversion. *)
Lemma hour_of_spec (timeStr h m ap : jsstring) :
  time_match timeStr = Some (h, m, ap) ->
  hour_of timeStr
  = spec_hour24 (parseInt_digits h) (bool_decide (toUpperCase ap = lit "PM")).
Proof.
  intros Hm. unfold hour_of, spec_hour24. rewrite Hm.
  destruct (time_match_upper _ _ _ _ Hm) as [-> | ->].
  - rewrite (bool_decide_eq_false_2 (lit "AM" = lit "PM")) by discriminate.
    rewrite (bool_decide_eq_true_2 (lit "AM" = lit "AM")) by reflexivity.
    reflexivity.
  - rewrite (bool_decide_eq_true_2 (lit "PM" = lit "PM")) by reflexivity.
    rewrite (bool_decide_eq_false_2 (lit "PM" = lit "AM")) by discriminate.
    simpl. destruct (parseInt_digits h <? 12); reflexivity.
Qed.

Lemma hour_of_unmatched (timeStr : jsstring) :
  time_match timeStr = None -> hour_of timeStr = 12.
Proof. intros H. unfold hour_of. by rewrite H. Qed.

(** The comparison chain, by intervals. *)
Lemma bucket_and_color_intervals (H : Z) :
  (23 <= H \/ H < 3 -> bucket_and_color H = (lit "Deep Night", lit "#273657"))
  /\ (3 <= H < 6 -> bucket_and_color H = (lit "Late Night", lit "#4E72A0"))
  /\ (6 <= H < 12 -> bucket_and_color H = (lit "Morning", lit "#F7F9FF"))
  /\ (12 <= H < 18 -> bucket_and_color H = (lit "Afternoon", lit "#F2F4FF"))
  /\ (18 <= H < 23 -> bucket_and_color H = (lit "Evening", lit "#96A8C2")).
Proof.
  unfold bucket_and_color.
  repeat split; intros Hr;
    repeat match goal with
    | |- context [?a <=? ?b] => destruct (Z.leb_spec a b); try lia
    | |- context [?a <? ?b] => destruct (Z.ltb_spec a b); try lia
    end; reflexivity.
Qed.

(** C6. A time string that parses to hour H of the 24-hour clock (12 AM is
    0, 12 PM stays 12, PM hours below 12 get +12) is put in the bucket of
    the half-open interval H lies in, with that bucket's tint: Deep Night
    on [23,24) and [0,3), Late Night on [3,6), Morning on [6,12), Afternoon
    on [12,18), Evening on [18,23); so 23 and 2 are Deep Night, 5 Late
    Night, 11 Morning, 17 Afternoon, 22 Evening. *)
Theorem getTimeOfDayBg_buckets (timeStr h m ap : jsstring) (H : Z) :
  time_match timeStr = Some (h, m, ap) ->
  H = spec_hour24 (parseInt_digits h) (bool_decide (toUpperCase ap = lit "PM")) ->
  0 <= H < 24 ->
  exists bucket,
    bucket_and_color (hour_of timeStr) = (bucket, getTimeOfDayBg (Some timeStr))
    /\ (23 <= H < 24 \/ 0 <= H < 3 ->
        bucket = lit "Deep Night"
        /\ getTimeOfDayBg (Some timeStr) = lit "#273657")
    /\ (3 <= H < 6 ->
        bucket = lit "Late Night"
        /\ getTimeOfDayBg (Some timeStr) = lit "#4E72A0")
    /\ (6 <= H < 12 ->
        bucket = lit "Morning"
        /\ getTimeOfDayBg (Some timeStr) = lit "#F7F9FF")
    /\ (12 <= H < 18 ->
        bucket = lit "Afternoon"
        /\ getTimeOfDayBg (Some timeStr) = lit "#F2F4FF")
    /\ (18 <= H < 23 ->
        bucket = lit "Evening"
        /\ getTimeOfDayBg (Some timeStr) = lit "#96A8C2")
    /\ fst ∘ bucket_and_color <$> [23; 2; 5; 11; 17; 22]
       = [lit "Deep Night"; lit "Deep Night"; lit "Late Night"; lit "Morning";
          lit "Afternoon"; lit "Evening"].
Proof.
  intros Hm HH Hrange.
  assert (Hne : timeStr ≠ []) by (apply time_match_nonempty; eauto).
  assert (Hbg : getTimeOfDayBg (Some timeStr)
                = snd (bucket_and_color (hour_of timeStr))).
  { destruct timeStr; [done | reflexivity]. }
  rewrite Hbg, (hour_of_spec _ _ _ _ Hm), <- HH.
  exists (fst (bucket_and_color H)).
  destruct (bucket_and_color_intervals H) as (Hdeep & Hlate & Hmorn & Hnoon & Heve).
  split; [by destruct (bucket_and_color H)|].
  split; [intros Hr; rewrite Hdeep by lia; done|].
  split; [intros Hr; rewrite Hlate by lia; done|].
  split; [intros Hr; rewrite Hmorn by lia; done|].
  split; [intros Hr; rewrite Hnoon by lia; done|].
  split; [intros Hr; rewrite Heve by lia; done|].
  reflexivity.
Qed.

Lemma getTimeOfDayBg_buckets_witness :
  time_match (lit "11:45 PM") = Some (lit "11", lit "45", lit "PM")
  /\ getTimeOfDayBg (Some (lit "11:45 PM")) = lit "#273657".
Proof.
  split; [reflexivity|].
  destruct (getTimeOfDayBg_buckets (lit "11:45 PM") (lit "11") (lit "45")
              (lit "PM") 23) as (bucket & _ & Hdeep & _).
  - reflexivity.
  - reflexivity.
  - lia.
  - apply Hdeep. lia.
Defined.

(** The clock strings [Intl.DateTimeFormat] produces, two digits, a colon,
    two digits, one space of any kind (U+0020 or U+202F) and the marker, do
    match, with the groups one expects. *)
Lemma time_match_formatted (d1 d2 d3 d4 sp a : Z) :
  is_digit d1 = true -> is_digit d2 = true ->
  is_digit d3 = true -> is_digit d4 = true ->
  sp = 32 \/ sp = 8239 -> a = 65 \/ a = 80 ->
  time_match [d1; d2; 58; d3; d4; sp; a; 77]
  = Some ([d1; d2], [d3; d4], [a; 77]).
Proof.
  intros H1 H2 H3 H4 Hsp Ha.
  unfold time_match, match_here. simpl. rewrite H1, H2. simpl.
  rewrite H3, H4.
  destruct Hsp as [-> | ->], Ha as [-> | ->]; reflexivity.
Qed.

(** C8, as stated, fails: the placeholder clock string ["--:--"] does not
    parse, and both resolvers answer it differently from an absent
    string. *)
Lemma time_fallback_not_uniform :
  time_match (lit "--:--") = None
  /\ getTimeOfDayBg (Some (lit "--:--")) <> getTimeOfDayBg None
  /\ getTextContrastClass (Some (lit "--:--")) <> getTextContrastClass None.
Proof. repeat split; vm_compute; discriminate. Qed.

(** Past the guard the throwing reads are never made on [null]: the hour
    is the one [hour_of] gives. *)
Lemma Throwing_hour_of (s : jsstring) :
  Throwing.hour_of (Some s) = Returns (hour_of s).
Proof.
  unfold Throwing.hour_of, hour_of, Throwing.String_match, and_then.
  destruct (time_match s) as [[[h m] ap]|]; reflexivity.
Qed.

(** C8, amended.  An absent or empty time string gives the tint [#F7F9FF]
    and the text classes [text-zinc-950]/[text-zinc-500].  A non-empty
    string in which the pattern does not occur is read as hour 12 and gives
    the Afternoon tint [#F2F4FF] and the dark text classes
    [text-zinc-900]/[text-zinc-500].  A string in which the pattern occurs
    gets no fallback, whatever number stands before the colon: it is
    classified by that number after the AM/PM conversion, so a number of 24
    or more gives the Deep Night tint [#273657] and [text-white], as
    ["24:00 AM"] and ["99:99 pm"] do.  Neither resolver throws, for any
    input: the reads that throw on [null] are all behind their guards. *)
Theorem time_fallback_defaults (timeStr : option jsstring) :
  (timeStr = None \/ timeStr = Some [] ->
     getTimeOfDayBg timeStr = lit "#F7F9FF"
     /\ getTextContrastClass timeStr
        = mkContrast (lit "text-zinc-950") (lit "text-zinc-500"))
  /\ (forall s, timeStr = Some s -> s ≠ [] -> time_match s = None ->
        bucket_and_color (hour_of s) = (lit "Afternoon", lit "#F2F4FF")
        /\ getTimeOfDayBg timeStr = lit "#F2F4FF"
        /\ getTextContrastClass timeStr
           = mkContrast (lit "text-zinc-900") (lit "text-zinc-500"))
  /\ (forall s h m ap, timeStr = Some s -> time_match s = Some (h, m, ap) ->
        let H := spec_hour24 (parseInt_digits h)
                   (bool_decide (toUpperCase ap = lit "PM")) in
        getTimeOfDayBg timeStr = snd (bucket_and_color H)
        /\ getTextContrastClass timeStr
           = (if (6 <=? H) && (H <? 18)
              then mkContrast (lit "text-zinc-900") (lit "text-zinc-500")
              else mkContrast (lit "text-white") (lit "text-white/70"))
        /\ (24 <= H ->
            getTimeOfDayBg timeStr = lit "#273657"
            /\ getTextContrastClass timeStr
               = mkContrast (lit "text-white") (lit "text-white/70")))
  /\ getTimeOfDayBg <$> [Some (lit "24:00 AM"); Some (lit "99:99 pm")]
     = [lit "#273657"; lit "#273657"]
  /\ Throwing.getTimeOfDayBg timeStr = Returns (getTimeOfDayBg timeStr)
  /\ Throwing.getTextContrastClass timeStr
     = Returns (getTextContrastClass timeStr).
Proof.
  split; [|split; [|split; [|split; [|split]]]].
  - intros [-> | ->]; split; reflexivity.
  - intros s -> Hne Hm. destruct s as [|c s]; [done|].
    unfold getTimeOfDayBg, getTextContrastClass.
    rewrite (hour_of_unmatched _ Hm). repeat split; reflexivity.
  - intros s h m ap -> Hm H.
    assert (Hne : s ≠ []) by (apply time_match_nonempty; eauto).
    destruct s as [|c s]; [done|].
    unfold getTimeOfDayBg, getTextContrastClass.
    rewrite (hour_of_spec _ _ _ _ Hm). fold H.
    split; [reflexivity|]. split; [reflexivity|].
    intros HH. destruct (bucket_and_color_intervals H) as (Hdeep & _).
    rewrite Hdeep by lia. split; [reflexivity|].
    destruct (Z.leb_spec 6 H); destruct (Z.ltb_spec H 18); try lia; reflexivity.
  - reflexivity.
  - destruct timeStr as [[|c s]|]; try reflexivity.
    unfold Throwing.getTimeOfDayBg, getTimeOfDayBg. cbn [Throwing.absent truthy negb].
    by rewrite Throwing_hour_of.
  - destruct timeStr as [[|c s]|]; try reflexivity.
    unfold Throwing.getTextContrastClass, getTextContrastClass.
    cbn [Throwing.absent truthy negb]. rewrite Throwing_hour_of.
    cbn [and_then]. by destruct ((6 <=? hour_of (c :: s)) && (hour_of (c :: s) <? 18)).
Qed.

Lemma time_fallback_defaults_witness :
  getTimeOfDayBg (Some (lit "--:--")) = lit "#F2F4FF"
  /\ getTextContrastClass (Some (lit "--:--"))
     = mkContrast (lit "text-zinc-900") (lit "text-zinc-500")
  /\ getTextContrastClass (Some (lit "99:99 pm"))
     = mkContrast (lit "text-white") (lit "text-white/70")
  /\ Throwing.getTimeOfDayBg None = Returns (lit "#F7F9FF").
Proof.
  split; [|split; [|split]].
  - destruct (time_fallback_defaults (Some (lit "--:--"))) as (_ & H & _).
    destruct (H (lit "--:--")) as (_ & Hbg & _);
      [reflexivity | discriminate | reflexivity | exact Hbg].
  - destruct (time_fallback_defaults (Some (lit "--:--"))) as (_ & H & _).
    destruct (H (lit "--:--")) as (_ & _ & Hct);
      [reflexivity | discriminate | reflexivity | exact Hct].
  - destruct (time_fallback_defaults (Some (lit "99:99 pm"))) as (_ & _ & H & _).
    destruct (H (lit "99:99 pm") (lit "99") (lit "99") (lit "pm")) as (_ & _ & Hbig);
      [reflexivity | reflexivity |].
    apply Hbig. vm_compute. discriminate.
  - destruct (time_fallback_defaults None) as (_ & _ & _ & _ & Hbg & _).
    exact Hbg.
Defined.

End TimeOfDay.

(* ===================================================================== *)
(** ** App: adding a city *)
(* ===================================================================== *)

Section AddCity.

Lemma cities_handleCityChange (city : City) (st : State) :
  cities (handleCityChange city st) = cities st.
Proof.
  unfold handleCityChange.
  destruct (selectedCity st) as [sel|]; simpl;
    repeat match goal with |- context [if ?b then _ else _] => destruct b end;
    reflexivity.
Qed.

Lemma selected_handleCityChange (city : City) (st : State) :
  id <$> selectedCity (handleCityChange city st) = Some (id city).
Proof.
  unfold handleCityChange.
  destruct (selectedCity st) as [sel|] eqn:Hsel; simpl.
  - destruct (decide (id city = id sel)) as [Heq|Hne].
    + rewrite (bool_decide_eq_true_2 _ Heq). simpl.
      destruct (isGridView st); simpl; rewrite Hsel; simpl; congruence.
    + rewrite (bool_decide_eq_false_2 _ Hne). simpl.
      destruct (isGridView st); reflexivity.
  - destruct (isGridView st); reflexivity.
Qed.

Lemma same_city_true (newCity c : City) :
  same_city newCity c = true
  <-> id c = id newCity \/ (name c = name newCity /\ country c = country newCity).
Proof.
  unfold same_city.
  rewrite orb_true_iff, andb_true_iff, !bool_decide_eq_true. tauto.
Qed.

Lemma find_same_city_None (newCity : City) (l : list City) :
  find (same_city newCity) l = None
  <-> forall c, c ∈ l ->
        id c ≠ id newCity
        /\ ~ (name c = name newCity /\ country c = country newCity).
Proof.
  split.
  - intros Hf c Hc%list_elem_of_In.
    pose proof (find_none _ _ Hf c Hc) as Hn.
    destruct (same_city newCity c) eqn:Hs; [discriminate|].
    split; intros H; apply not_true_iff_false in Hs; apply Hs, same_city_true; tauto.
  - intros Hall. destruct (find (same_city newCity) l) as [c|] eqn:Hf; [|done].
    apply find_some in Hf as [Hc%list_elem_of_In Hs%same_city_true].
    destruct (Hall c Hc). tauto.
Qed.

(** C10. If the list already holds a city with the same id, or with the
    same name and country, [handleAddCity] leaves the list as it is and the
    first such entry is the selected city; otherwise the new city is
    appended at the end.  A list without duplicate ids, or without
    duplicate (name, country) pairs, stays so. *)
Theorem handleAddCity_unique (newCity : City) (st : State) :
  let st' := handleAddCity newCity st in
  ((exists c, c ∈ cities st
      /\ (id c = id newCity
          \/ (name c = name newCity /\ country c = country newCity))) ->
   cities st' = cities st
   /\ exists found,
        find (same_city newCity) (cities st) = Some found
        /\ found ∈ cities st
        /\ id <$> selectedCity st' = Some (id found))
  /\ ((forall c, c ∈ cities st ->
         id c ≠ id newCity
         /\ ~ (name c = name newCity /\ country c = country newCity)) ->
      cities st' = cities st ++ [newCity]
      /\ id <$> selectedCity st' = Some (id newCity))
  /\ (NoDup (id <$> cities st) -> NoDup (id <$> cities st'))
  /\ (NoDup ((λ c, (name c, country c)) <$> cities st) ->
      NoDup ((λ c, (name c, country c)) <$> cities st')).
Proof.
  intros st'. subst st'. unfold handleAddCity.
  destruct (find (same_city newCity) (cities st)) as [found|] eqn:Hf.
  - rewrite cities_handleCityChange, selected_handleCityChange.
    pose proof (find_some _ _ Hf) as [Hin%list_elem_of_In Hs%same_city_true].
    split; [|split; [|split]].
    + intros _. split; [done|]. exists found. done.
    + intros Hall. destruct (Hall found Hin). tauto.
    + done.
    + done.
  - rewrite cities_handleCityChange, selected_handleCityChange. simpl.
    pose proof (proj1 (find_same_city_None _ _) Hf) as Hall.
    split; [|split; [|split]].
    + intros (c & Hc & Hsame). destruct (Hall c Hc). tauto.
    + done.
    + intros Hnd. rewrite fmap_app. apply NoDup_app. split; [done|].
      split; [|apply NoDup_singleton].
      intros i (c & Hi & Hc)%list_elem_of_fmap Hn%list_elem_of_singleton.
      destruct (Hall c Hc). congruence.
    + intros Hnd. rewrite fmap_app. apply NoDup_app. split; [done|].
      split; [|apply NoDup_singleton].
      intros i (c & Hi & Hc)%list_elem_of_fmap Hn%list_elem_of_singleton.
      destruct (Hall c Hc) as [_ Hno]. apply Hno. split; congruence.
Qed.

Lemma handleAddCity_unique_witness :
  let kyoto := mkCity (lit "1857910") (lit "Kyoto") (lit "Japan")
                      (350211 # 10000) (1357538 # 10000) (lit "Asia/Tokyo") in
  cities (handleAddCity kyoto initial_state) = CITIES.
Proof.
  intros kyoto.
  destruct (handleAddCity_unique kyoto initial_state) as [Hsame _].
  apply Hsame.
  exists (mkCity (lit "kyoto") (lit "Kyoto") (lit "Japan")
                 (350116 # 10000) (1357681 # 10000) (lit "Asia/Tokyo")).
  split.
  - apply list_elem_of_In. simpl. right. left. reflexivity.
  - right. split; reflexivity.
Defined.

End AddCity.

(* ===================================================================== *)
(** ** App: the stale-preferred policy of loadScene *)
(* ===================================================================== *)

Section StalePreferred.

(** With a cached snapshot in the captured dictionary, the failure branch
    touches nothing, whatever the state has become in the meantime. *)
Lemma loadScene_resume_swallows
    (captured : gmap jsstring WeatherData) (city : City) (e : Error) (st : State) :
  is_Some (captured !! id city) ->
  loadScene_resume captured city (Throws e) st = st.
Proof. intros [w Hw]. unfold loadScene_resume. by rewrite Hw. Qed.

(** The only branch that writes [error]. *)
Lemma loadScene_resume_error
    (captured : gmap jsstring WeatherData) (city : City)
    (r : completion WeatherData) (st : State) :
  status (viewState (loadScene_resume captured city r st)) = error ->
  status (viewState st) ≠ error ->
  (exists e, r = Throws e) /\ captured !! id city = None.
Proof.
  unfold loadScene_resume. destruct r as [w|e]; simpl; [discriminate|].
  destruct (captured !! id city); [congruence|]. eauto.
Qed.

(** C1. The claim fails on the code.  On the first render the effect
    calls [loadScene] for the selected city, the first of the list, with
    the empty [weatherCache] of that render, while the prefetch fetches the
    same city.  The fetch of the prefetch succeeds and caches the city's
    snapshot; the effect runs again with the new dictionary and shows it.
    When the fetch of the first call then fails (429, a dropped connection,
    500), its [catch] tests the dictionary it captured, finds no entry, and
    moves the view to [error] and clears the weather on display, although
    [weatherCache] and [cacheRef.current] both hold the city's snapshot;
    and a failure of the second call leaves it so.  The caches themselves
    are not touched.  The same continuation with the live dictionary, which
    the prefetch reads through [cacheRef], changes nothing. *)
Theorem loadScene_stale_closure :
  let fresh := fst (fetchWeather decimal4 reykjavik fair) in
  let broken := fst (fetchWeather decimal4 reykjavik outage) in
  let cached : gmap jsstring WeatherData :=
    {[ id reykjavik := snowy_night ]} in
  exists st2 st3,
    selectedCity initial_state = Some reykjavik
    /\ prefetch_wanted reykjavik initial_state = true
    /\ fresh = Returns snowy_night
    /\ broken = Throws (mkError (lit "Weather API Error: 500"))
    /\ acts [SceneBegins (weatherCache initial_state) reykjavik;
             PrefetchResumes reykjavik fresh;
             SceneBegins cached reykjavik]
            initial_state = Some st2
    /\ weatherCache st2 = cached /\ cacheRef st2 = cached
    /\ weather st2 = Some snowy_night
    /\ status (viewState st2) = complete
    /\ acts [SceneResumes (weatherCache initial_state) reykjavik broken] st2
       = Some st3
    /\ weatherCache st3 = cached /\ cacheRef st3 = cached
    /\ status (viewState st3) = error
    /\ weather st3 = None
    /\ acts [SceneResumes cached reykjavik broken] st3 = Some st3
    /\ loadScene_resume (weatherCache st2) reykjavik broken st2 = st2.
Proof.
  intros fresh broken cached.
  assert (Hfresh : fresh = Returns snowy_night) by (vm_compute; reflexivity).
  assert (Hbroken : broken = Throws (mkError (lit "Weather API Error: 500")))
    by (vm_compute; reflexivity).
  rewrite Hfresh, Hbroken.
  eexists _, _.
  do 15 (split; [reflexivity|]).
  apply loadScene_resume_swallows. by eexists.
Qed.

End StalePreferred.

(* ===================================================================== *)
(** ** fetchWeather: the retry loop *)
(* ===================================================================== *)

Section Retry.

Variable url : jsstring.
Variable env : WeatherEnv.
Variable retries : nat.

Lemma fetches_fetch (u : jsstring) (t : list Effect) :
  fetches (Fetch u :: t) = S (fetches t).
Proof. reflexivity. Qed.

Lemma fetches_wait (ms : Z) (t : list Effect) : fetches (Wait ms :: t) = fetches t.
Proof. reflexivity. Qed.

Lemma loop_unfold (i todo : nat) :
  fetchWeather_loop url env retries i (S todo)
  = match attempt env i with
    | Succeeded w => (Returns w, [Fetch url])
    | RateLimited =>
        (fst (fetchWeather_loop url env retries (S i) todo),
         Fetch url :: Wait (1500 * (Z.of_nat i + 1))
           :: snd (fetchWeather_loop url env retries (S i) todo))
    | Failed e =>
        if (i =? retries - 1)%nat then (Throws e, [Fetch url])
        else
          (fst (fetchWeather_loop url env retries (S i) todo),
           Fetch url :: Wait (500 * 2 ^ Z.of_nat i)
             :: snd (fetchWeather_loop url env retries (S i) todo))
    end.
Proof.
  cbn [fetchWeather_loop].
  destruct (attempt env i); [done| |];
    destruct (fetchWeather_loop url env retries (S i) todo); reflexivity.
Qed.

(** The loop sends at most as many requests as it has turns. *)
Lemma loop_fetches_le (todo i : nat) :
  (fetches (snd (fetchWeather_loop url env retries i todo)) <= todo)%nat.
Proof.
  revert i. induction todo as [|todo IH]; intros i; [simpl; unfold fetches; simpl; lia|].
  rewrite loop_unfold. specialize (IH (S i)).
  destruct (attempt env i); [|
    |destruct (i =? retries - 1)%nat]; simpl snd;
    rewrite ?fetches_fetch, ?fetches_wait; unfold fetches in *; simpl; lia.
Qed.

(** A loop with a turn left starts with a request. *)
Lemma loop_head (todo i : nat) :
  (0 < todo)%nat ->
  exists rest, snd (fetchWeather_loop url env retries i todo) = Fetch url :: rest.
Proof.
  destruct todo as [|todo]; [lia|]. intros _. rewrite loop_unfold.
  destruct (attempt env i); [| |destruct (i =? retries - 1)%nat]; simpl; eauto.
Qed.

(** What follows each request of the trace, by the outcome of its turn. *)
Lemma loop_shape (todo i : nat) (pre post : list Effect) (u : jsstring) :
  snd (fetchWeather_loop url env retries i todo) = pre ++ Fetch u :: post ->
  let k := (i + fetches pre)%nat in
  u = url /\ (k < i + todo)%nat /\
  match attempt env k with
  | Succeeded _ => post = []
  | RateLimited =>
      exists rest, post = Wait (1500 * (Z.of_nat k + 1)) :: rest
        /\ ((S k < i + todo)%nat -> exists rest', rest = Fetch url :: rest')
        /\ ((S k = i + todo)%nat -> rest = [])
  | Failed _ =>
      if (k =? retries - 1)%nat then post = []
      else exists rest, post = Wait (500 * 2 ^ Z.of_nat k) :: rest
        /\ ((S k < i + todo)%nat -> exists rest', rest = Fetch url :: rest')
        /\ ((S k = i + todo)%nat -> rest = [])
  end.
Proof.
  revert i pre. induction todo as [|todo IH]; intros i pre.
  { simpl. intros H. by destruct pre. }
  rewrite loop_unfold. intros Htrace k. subst k.
  destruct pre as [|x pre].
  - (* the first request of this loop *)
    replace (i + fetches [])%nat with i by (unfold fetches; simpl; lia).
    simpl app in Htrace.
    destruct (attempt env i) as [w| |e].
    + simpl in Htrace. injection Htrace as <- <-.
      split; [done|]. split; [lia|done].
    + simpl in Htrace. injection Htrace as <- <-.
      split; [done|]. split; [lia|].
      eexists. split; [reflexivity|]. split;
        [ intros Hlt; apply loop_head; lia
        | intros Heq; assert (todo = 0)%nat as -> by lia; reflexivity ].
    + destruct (i =? retries - 1)%nat.
      * simpl in Htrace. injection Htrace as <- <-.
        split; [done|]. split; [lia|done].
      * simpl in Htrace. injection Htrace as <- <-.
        split; [done|]. split; [lia|].
        eexists. split; [reflexivity|]. split;
        [ intros Hlt; apply loop_head; lia
        | intros Heq; assert (todo = 0)%nat as -> by lia; reflexivity ].
  - (* a later request: it belongs to the rest of the loop *)
    assert (Hrest : exists pre', x = Fetch url /\
              ((exists ms, pre = Wait ms :: pre')
               /\ snd (fetchWeather_loop url env retries (S i) todo)
                  = pre' ++ Fetch u :: post)).
    { destruct (attempt env i) as [w| |e];
        [| |destruct (i =? retries - 1)%nat]; simpl in Htrace;
        injection Htrace as Hx Htrace; subst x;
        try (by destruct pre);
        (destruct pre as [|y pre]; [discriminate|]);
        injection Htrace as Hy Htrace; subst y; eauto 6. }
    destruct Hrest as (pre' & -> & (ms & ->) & Hrest).
    rewrite fetches_fetch, fetches_wait.
    specialize (IH (S i) pre' Hrest). simpl in IH.
    replace (i + S (fetches pre'))%nat with (S (i + fetches pre'))%nat by lia.
    replace (i + S todo)%nat with (S (i + todo))%nat by lia.
    exact IH.
Qed.

(** When no turn succeeds the loop ends by throwing. *)
Lemma loop_exhausted (todo i : nat) :
  (forall k w, (i <= k < i + todo)%nat -> attempt env k ≠ Succeeded w) ->
  exists e, fst (fetchWeather_loop url env retries i todo) = Throws e.
Proof.
  revert i. induction todo as [|todo IH]; intros i Hno; [simpl; eauto|].
  rewrite loop_unfold.
  destruct (attempt env i) as [w| |e] eqn:Hi.
  - destruct (Hno i w); [lia|done].
  - simpl. apply IH. intros k w Hk. apply Hno. lia.
  - destruct (i =? retries - 1)%nat; simpl; [eauto|].
    apply IH. intros k w Hk. apply Hno. lia.
Qed.

(** The first turn that succeeds, if it is within the budget, gives the
    result. *)
Lemma loop_success (todo i k : nat) (w : WeatherData) :
  (i + todo = retries)%nat -> (i <= k < retries)%nat ->
  attempt env k = Succeeded w ->
  (forall j w', (i <= j < k)%nat -> attempt env j ≠ Succeeded w') ->
  fst (fetchWeather_loop url env retries i todo) = Returns w.
Proof.
  revert i. induction todo as [|todo IH]; intros i Hsum Hk Hw Hfirst; [lia|].
  rewrite loop_unfold.
  destruct (decide (i = k)) as [->|Hne]; [by rewrite Hw|].
  destruct (attempt env i) as [w'| |e] eqn:Hi.
  - destruct (Hfirst i w'); [lia|done].
  - simpl. apply IH; [lia|lia|done|]. intros j w' Hj. apply Hfirst. lia.
  - destruct (Nat.eqb_spec i (retries - 1)); [lia|]. simpl.
    apply IH; [lia|lia|done|]. intros j w' Hj. apply Hfirst. lia.
Qed.

End Retry.

Section RetryPolicy.

Variable Number_toString : Q -> jsstring.

Lemma attempt_429 (env : WeatherEnv) (k : nat) (body : completion Current) :
  respond env k = WeatherHttp false 429 body -> attempt env k = RateLimited.
Proof. intros H. unfold attempt. by rewrite H. Qed.

Lemma attempt_network_error (env : WeatherEnv) (k : nat) (e : Error) :
  respond env k = WeatherNetworkError e -> attempt env k = Failed e.
Proof. intros H. unfold attempt. by rewrite H. Qed.

Lemma attempt_http_error (env : WeatherEnv) (k : nat) (s : Z)
    (body : completion Current) :
  respond env k = WeatherHttp false s body -> s ≠ 429 ->
  attempt env k
  = Failed (mkError (lit "Weather API Error: " ++ String_of_Z s)).
Proof.
  intros H Hs. unfold attempt. rewrite H.
  destruct (Z.eqb_spec s 429); [done|reflexivity].
Qed.

Lemma fetchWeather_unfold (city : City) (env : WeatherEnv) :
  fetchWeather Number_toString city env
  = match encodeURIComponent (or_else (Some (timezone city)) (lit "auto")) with
    | Throws e => (Throws e, [])
    | Returns tz =>
        fetchWeather_loop (weather_url Number_toString city tz) env 3 0 3
    end.
Proof. reflexivity. Qed.

(** C3. [fetchWeather] sends at most 3 requests.  After a 429 answer to
    request number k+1 it waits 1500 ms times (k+1) and, while the budget of
    3 lasts, sends the next request; after a network error or another
    non-success answer to one of the first two requests it waits 500 ms
    times 2^k and sends the next request; a failure of the third request
    ends the trace.  When no attempt succeeds the call fails with an error;
    the first successful attempt gives the result. *)
Theorem fetchWeather_retry_policy (city : City) (env : WeatherEnv) :
  let r := fst (fetchWeather Number_toString city env) in
  let t := snd (fetchWeather Number_toString city env) in
  (fetches t <= 3)%nat
  /\ (forall pre u post, t = pre ++ Fetch u :: post ->
        let k := fetches pre in
        (forall body, respond env k = WeatherHttp false 429 body ->
           exists rest, post = Wait (1500 * (Z.of_nat k + 1)) :: rest
             /\ ((k < 2)%nat -> exists rest', rest = Fetch u :: rest')
             /\ (k = 2%nat -> rest = []))
        /\ (forall e, respond env k = WeatherNetworkError e -> (k < 2)%nat ->
           exists rest, post = Wait (500 * 2 ^ Z.of_nat k) :: Fetch u :: rest)
        /\ (forall s body, respond env k = WeatherHttp false s body ->
             s ≠ 429 -> (k < 2)%nat ->
           exists rest, post = Wait (500 * 2 ^ Z.of_nat k) :: Fetch u :: rest)
        /\ (forall e, attempt env k = Failed e -> k = 2%nat -> post = []))
  /\ ((forall k w, (k < 3)%nat -> attempt env k ≠ Succeeded w) ->
      exists e, r = Throws e)
  /\ (forall k w, (k < 3)%nat -> attempt env k = Succeeded w ->
        (forall j w', (j < k)%nat -> attempt env j ≠ Succeeded w') ->
        (exists tz, encodeURIComponent
                      (or_else (Some (timezone city)) (lit "auto"))
                    = Returns tz) ->
        r = Returns w).
Proof.
  intros r t. subst r t. rewrite fetchWeather_unfold.
  destruct (encodeURIComponent (or_else (Some (timezone city)) (lit "auto")))
    as [tz|e0]; cbn [fst snd].
  2:{ split; [unfold fetches; simpl; lia|].
      split; [intros pre u post H; by destruct pre|].
      split; [eauto|]. intros k w _ _ _ [tz Htz]. discriminate. }
  set (url := weather_url Number_toString city tz).
  split; [apply loop_fetches_le|].
  split.
  - intros pre u post Htrace. set (k := fetches pre).
    pose proof (loop_shape url env 3 3 0 pre post u Htrace) as (-> & Hk & Hshape).
    simpl in Hk, Hshape. fold k in Hk, Hshape.
    split; [|split; [|split]].
    + intros body H429. rewrite (attempt_429 _ _ _ H429) in Hshape.
      destruct Hshape as (rest & -> & Hnext & Hlast). exists rest.
      split; [done|]. split.
      * intros Hlt. apply Hnext. lia.
      * intros H2. apply Hlast. lia.
    + intros e He Hlt. rewrite (attempt_network_error _ _ _ He) in Hshape.
      destruct (Nat.eqb_spec k 2); [lia|].
      destruct Hshape as (rest & -> & Hnext & _).
      destruct Hnext as [rest' ->]; [lia|]. eauto.
    + intros s body Hs Hne Hlt.
      rewrite (attempt_http_error _ _ _ _ Hs Hne) in Hshape.
      destruct (Nat.eqb_spec k 2); [lia|].
      destruct Hshape as (rest & -> & Hnext & _).
      destruct Hnext as [rest' ->]; [lia|]. eauto.
    + intros e He ->. rewrite He in Hshape. exact Hshape.
  - split.
    + intros Hno. apply loop_exhausted. intros k w Hk. apply Hno. lia.
    + intros k w Hk Hw Hfirst _.
      apply (loop_success url env 3 3 0 k w); [lia|lia|done|].
      intros j w' Hj. apply Hfirst. lia.
Qed.

End RetryPolicy.

Lemma fetchWeather_retry_policy_witness :
  snd (fetchWeather decimal4 kyoto outage)
  = [ Fetch (weather_url decimal4 kyoto (lit "Asia%2FTokyo")); Wait 1500;
      Fetch (weather_url decimal4 kyoto (lit "Asia%2FTokyo")); Wait 1000;
      Fetch (weather_url decimal4 kyoto (lit "Asia%2FTokyo")) ]
  /\ exists e, fst (fetchWeather decimal4 kyoto outage) = Throws e.
Proof.
  split; [reflexivity|].
  destruct (fetchWeather_retry_policy decimal4 kyoto outage)
    as (_ & _ & Hfail & _).
  apply Hfail. intros k w Hk.
  destruct k as [|[|[|k]]]; [discriminate | discriminate | discriminate | lia].
Defined.


(* ===================================================================== *)
(** ** searchCities *)
(* ===================================================================== *)

Section Search.

Lemma to_city_normalized (result : GeoResult) : normalized result (to_city result).
Proof.
  unfold normalized, to_city. simpl. repeat (split; [reflexivity|]). split.
  - by intros ->.
  - intros tz -> Hne. simpl. by destruct tz.
Qed.

(** C9. [searchCities] always returns a list and never throws.  The list
    is empty, and no request is sent, when the query has fewer than 2 code
    units; it is empty when the request fails, the answer is not a success,
    or the answer has no readable results; otherwise each entry is turned
    into a City, with ["UTC"] for a missing time zone. *)
Theorem searchCities_never_throws
    (query : jsstring) (net : jsstring -> SearchResponse) :
  exists found,
    fst (searchCities query net) = Returns found
    /\ ((length query < 2)%nat ->
        found = [] /\ snd (searchCities query net) = [])
    /\ (forall e, encodeURIComponent query = Throws e ->
        found = [] /\ snd (searchCities query net) = [])
    /\ (forall q, (2 <= length query)%nat -> encodeURIComponent query = Returns q ->
        snd (searchCities query net) = [Fetch (search_url q)]
        /\ (forall e, net (search_url q) = SearchNetworkError e -> found = [])
        /\ (forall body, net (search_url q) = SearchHttp false body -> found = [])
        /\ (forall e, net (search_url q) = SearchHttp true (BodyUnreadable e) ->
            found = [])
        /\ (net (search_url q) = SearchHttp true BodyWithoutResults -> found = [])
        /\ (forall e, net (search_url q) = SearchHttp true (BodyIllTyped e) ->
            found = [])
        /\ (forall results,
              net (search_url q) = SearchHttp true (BodyResults results) ->
              Forall2 normalized results found)).
Proof.
  unfold searchCities, searchCities_try.
  destruct (Nat.ltb_spec (length query) 2) as [Hshort|Hlong].
  { exists []. split; [done|]. split; [done|]. split; [done|]. intros; lia. }
  destruct (encodeURIComponent query) as [q|e0].
  2:{ exists []. split; [done|]. split; [done|]. split; [done|]. discriminate. }
  destruct (net (search_url q)) as [e|[] [e| |e|results]] eqn:Hnet; simpl;
    (eexists; split; [reflexivity|]);
    (split; [intros; lia|]); (split; [discriminate|]);
    intros q' _ [= <-]; rewrite Hnet;
    (split; [reflexivity|]);
    repeat split; try done; try discriminate.
  intros results' [= <-]. clear Hnet.
  induction results as [|r results IH]; constructor;
    [apply to_city_normalized | apply IH].
Qed.

Lemma searchCities_never_throws_witness :
  searchCities (lit "P") geocoder = (Returns [], [])
  /\ exists found,
       fst (searchCities (lit "Pa") geocoder) = Returns found
       /\ Forall2 normalized [paris] found
       /\ snd (searchCities (lit "Pa") geocoder)
          = [Fetch (lit "https://geocoding-api.open-meteo.com/v1/search?name=Pa&count=8&language=en&format=json")].
Proof.
  split; [reflexivity|].
  destruct (searchCities_never_throws (lit "Pa") geocoder)
    as (found & Hret & _ & _ & Hlong).
  destruct (Hlong (lit "Pa")) as (Htrace & _ & _ & _ & _ & _ & Hresults).
  - simpl. lia.
  - reflexivity.
  - exists found. split; [exact Hret|]. split; [|exact Htrace].
    apply Hresults. reflexivity.
Defined.

End Search.

(* ===================================================================== *)
(** ** fetchFolderManifest: memoization and single flight *)
(* ===================================================================== *)

Section ManifestCache.

Implicit Types (st : ManifestStore) (c : jsstring) (p : nat).

Lemma manifest_url_inj c c' : manifest_url c = manifest_url c' -> c = c'.
Proof.
  unfold manifest_url. intros H.
  apply app_inv_head in H. apply app_inv_head in H.
  by apply app_inv_tail in H.
Qed.

Lemma fetchFolderManifest_cached st c v :
  manifestCache st !! c = Some v -> fetchFolderManifest c st = (Now v, st).
Proof. intros H. unfold fetchFolderManifest. by rewrite H. Qed.

Lemma fetchFolderManifest_pending st c p :
  manifestCache st !! c = None -> pendingManifests st !! c = Some p ->
  fetchFolderManifest c st = (Later p, st).
Proof. intros H1 H2. unfold fetchFolderManifest. by rewrite H1, H2. Qed.

Lemma fetchFolderManifest_fresh st c :
  manifestCache st !! c = None -> pendingManifests st !! c = None ->
  fetchFolderManifest c st
  = (Later (length (promises st)),
     mkStore (manifestCache st)
             (<[c := length (promises st)]> (pendingManifests st))
             (promises st ++ [(c, Fetching)])
             (network st ++ [manifest_url c])).
Proof. intros H1 H2. unfold fetchFolderManifest. by rewrite H1, H2. Qed.

(** A category that is neither cached nor pending has no promise. *)
Lemma consistent_unknown st c p ph :
  consistent st ->
  manifestCache st !! c = None -> pendingManifests st !! c = None ->
  promises st !! p ≠ Some (c, ph).
Proof.
  intros Hst Hc Hp Hl. pose proof (phases_agree st Hst p c ph Hl) as H.
  destruct ph; destruct H; congruence.
Qed.

Lemma consistent_empty : consistent empty_store.
Proof. split; [intros p c ph H; by destruct p | intros p q c ph ph' H; by destruct p | done]. Qed.

Lemma consistent_call st c :
  consistent st -> consistent (snd (fetchFolderManifest c st)).
Proof.
  intros Hst. unfold fetchFolderManifest.
  destruct (manifestCache st !! c) as [v|] eqn:Hc; [done|].
  destruct (pendingManifests st !! c) as [p0|] eqn:Hp; [done|].
  simpl. split; simpl.
  - intros p c' ph Hl.
    apply lookup_app_Some in Hl as [Hl | [Hlen Hl]].
    + assert (c' ≠ c) as Hne.
      { intros ->. by eapply consistent_unknown. }
      rewrite lookup_insert_ne by done. by apply (phases_agree st Hst).
    + apply list_lookup_singleton_Some in Hl as [Hi Heq]. simplify_eq.
      rewrite lookup_insert_eq. split; [done|]. f_equal. lia.
  - intros p q c' ph ph' Hl1 Hl2.
    apply lookup_app_Some in Hl1 as [Hl1 | [Hlen1 Hl1]];
      apply lookup_app_Some in Hl2 as [Hl2 | [Hlen2 Hl2]].
    + by eapply (one_promise st Hst).
    + apply list_lookup_singleton_Some in Hl2 as [_ Heq]. simplify_eq.
      exfalso. eapply consistent_unknown; [exact Hst|exact Hc|exact Hp|exact Hl1].
    + apply list_lookup_singleton_Some in Hl1 as [_ Heq]. simplify_eq.
      exfalso. eapply consistent_unknown; [exact Hst|exact Hc|exact Hp|exact Hl2].
    + apply list_lookup_singleton_Some in Hl1 as [H1 _].
      apply list_lookup_singleton_Some in Hl2 as [H2 _]. lia.
  - rewrite fmap_app. by rewrite (requests_logged st Hst).
Qed.

Lemma on_response_Some st st' p r :
  on_response p r st = Some st' ->
  exists c,
    promises st !! p = Some (c, Fetching)
    /\ st' = mkStore (<[c := settled_value r]> (manifestCache st))
                     (pendingManifests st)
                     (<[p := (c, Settled (settled_value r))]> (promises st))
                     (network st).
Proof.
  unfold on_response. destruct (promises st !! p) as [[c []]|]; try discriminate.
  intros [= <-]. eauto.
Qed.

Lemma on_finally_Some st st' p :
  on_finally p st = Some st' ->
  exists c v,
    promises st !! p = Some (c, Settled v)
    /\ st' = mkStore (manifestCache st)
                     (delete c (pendingManifests st))
                     (<[p := (c, Fulfilled v)]> (promises st))
                     (network st).
Proof.
  unfold on_finally. destruct (promises st !! p) as [[c []]|]; try discriminate.
  intros [= <-]. eauto.
Qed.

(** Updating the phase of a promise keeps the categories in place. *)
Lemma phase_update_lookup (l : list (jsstring * Phase)) p q c c' ph0 ph1 ph' :
  l !! p = Some (c, ph0) ->
  <[p := (c, ph1)]> l !! q = Some (c', ph') ->
  (q = p /\ c' = c /\ ph' = ph1) \/ (q ≠ p /\ l !! q = Some (c', ph')).
Proof.
  intros Hp Hq. apply list_lookup_insert_Some in Hq as [(-> & [= <- <-] & _) | [Hne Hq]].
  - by left.
  - right. split; [congruence|done].
Qed.

Lemma phase_update_categories (l : list (jsstring * Phase)) p c ph0 ph1 :
  l !! p = Some (c, ph0) ->
  manifest_url ∘ fst <$> <[p := (c, ph1)]> l = manifest_url ∘ fst <$> l.
Proof.
  intros Hp. rewrite list_fmap_insert. apply list_insert_id.
  by rewrite list_lookup_fmap, Hp.
Qed.

Lemma consistent_response st st' p r :
  consistent st -> on_response p r st = Some st' -> consistent st'.
Proof.
  intros Hst (c & Hp & ->)%on_response_Some.
  destruct (phases_agree st Hst p c _ Hp) as [Hcache Hpend].
  split; simpl.
  - intros q c' ph' Hq.
    destruct (phase_update_lookup _ _ _ _ _ _ _ _ Hp Hq)
      as [(-> & -> & ->) | [Hne Hq']].
    + by rewrite lookup_insert_eq.
    + assert (c' ≠ c) as Hc'.
      { intros ->. apply Hne. by eapply (one_promise st Hst). }
      pose proof (phases_agree st Hst q c' ph' Hq') as H.
      destruct ph'; by rewrite lookup_insert_ne.
  - intros q1 q2 c' ph1 ph2 H1 H2.
    destruct (phase_update_lookup _ _ _ _ _ _ _ _ Hp H1)
      as [(-> & -> & ->) | [Hne1 H1']];
      destruct (phase_update_lookup _ _ _ _ _ _ _ _ Hp H2)
      as [(-> & ? & ?) | [Hne2 H2']]; subst; try done.
    + symmetry. by eapply (one_promise st Hst).
    + by eapply (one_promise st Hst).
    + by eapply (one_promise st Hst).
  - rewrite (phase_update_categories _ _ _ _ _ Hp). apply (requests_logged st Hst).
Qed.

Lemma consistent_finally st st' p :
  consistent st -> on_finally p st = Some st' -> consistent st'.
Proof.
  intros Hst (c & v & Hp & ->)%on_finally_Some.
  destruct (phases_agree st Hst p c _ Hp) as [Hcache Hpend].
  split; simpl.
  - intros q c' ph' Hq.
    destruct (phase_update_lookup _ _ _ _ _ _ _ _ Hp Hq)
      as [(-> & -> & ->) | [Hne Hq']].
    + by rewrite lookup_delete_eq.
    + assert (c' ≠ c) as Hc'.
      { intros ->. apply Hne. by eapply (one_promise st Hst). }
      pose proof (phases_agree st Hst q c' ph' Hq') as H.
      destruct ph'; by rewrite lookup_delete_ne.
  - intros q1 q2 c' ph1 ph2 H1 H2.
    destruct (phase_update_lookup _ _ _ _ _ _ _ _ Hp H1)
      as [(-> & -> & ->) | [Hne1 H1']];
      destruct (phase_update_lookup _ _ _ _ _ _ _ _ Hp H2)
      as [(-> & ? & ?) | [Hne2 H2']]; subst; try done.
    + symmetry. by eapply (one_promise st Hst).
    + by eapply (one_promise st Hst).
    + by eapply (one_promise st Hst).
  - rewrite (phase_update_categories _ _ _ _ _ Hp). apply (requests_logged st Hst).
Qed.

Lemma consistent_step st st' (e : Event) :
  consistent st -> step e st = Some st' -> consistent st'.
Proof.
  intros Hst. destruct e as [c|p r|p]; simpl.
  - intros [= <-]. by apply consistent_call.
  - by apply consistent_response.
  - by apply consistent_finally.
Qed.

Lemma consistent_run (es : list Event) st st' :
  consistent st -> run es st = Some st' -> consistent st'.
Proof.
  revert st. induction es as [|e es IH]; intros st Hst; simpl.
  - by intros [= <-].
  - destruct (step e st) as [st1|] eqn:He; [|discriminate].
    apply IH. by eapply consistent_step.
Qed.

(** Every state the event loop reaches from the empty store is
    consistent. *)
Lemma reachable_consistent (es : list Event) st :
  run es empty_store = Some st -> consistent st.
Proof. apply consistent_run, consistent_empty. Qed.

Lemma requests_for_snoc st c c' cache pending proms :
  requests_for c (mkStore cache pending proms (network st ++ [manifest_url c']))
  = (requests_for c st + (if decide (c' = c) then 1 else 0))%nat.
Proof.
  unfold requests_for. simpl. rewrite filter_app, length_app. f_equal.
  destruct (decide (c' = c)) as [->|Hne].
  - by rewrite filter_cons_True.
  - rewrite filter_cons_False; [done|]. intros H%manifest_url_inj. done.
Qed.

(** No request has gone out for a category that is neither cached nor
    pending. *)
Lemma unknown_no_requests st c :
  consistent st ->
  manifestCache st !! c = None -> pendingManifests st !! c = None ->
  requests_for c st = 0%nat.
Proof.
  intros Hst Hc Hp. unfold requests_for. rewrite (requests_logged st Hst).
  apply length_zero_iff_nil, elem_of_nil_inv. intros u Hu.
  apply list_elem_of_filter in Hu as [-> Hu].
  apply list_elem_of_fmap in Hu as ([c' ph] & Heq & Hin).
  simpl in Heq. apply manifest_url_inj in Heq as ->.
  apply list_elem_of_lookup in Hin as [p Hl].
  by eapply consistent_unknown.
Qed.

(** Once a category is cached or pending, it stays so, and no event sends
    a request for it. *)
Lemma known_step st st' (e : Event) c :
  consistent st -> known c st -> step e st = Some st' ->
  known c st' /\ requests_for c st' = requests_for c st.
Proof.
  intros Hst Hk. destruct e as [c'|p r|p]; simpl.
  - intros [= <-]. unfold fetchFolderManifest.
    destruct (manifestCache st !! c') as [v|] eqn:Hc; [done|].
    destruct (pendingManifests st !! c') as [p0|] eqn:Hp; [done|].
    assert (c' ≠ c) as Hne.
    { intros ->. destruct Hk as [[? H]|[? H]]; congruence. }
    simpl. split.
    + destruct Hk as [Hk|Hk]; [by left|right]. simpl.
      by rewrite lookup_insert_ne.
    + rewrite requests_for_snoc. destruct (decide (c' = c)); [done|lia].
  - intros (c0 & Hp & ->)%on_response_Some. split; [|done].
    destruct Hk as [Hk|Hk]; [left|by right]. simpl.
    apply lookup_insert_is_Some. destruct (decide (c0 = c)); auto.
  - intros (c0 & v & Hp & ->)%on_finally_Some. split; [|done].
    destruct (phases_agree st Hst p c0 _ Hp) as [Hcache Hpend].
    destruct (decide (c0 = c)) as [->|Hne]; [left; eauto|].
    destruct Hk as [Hk|Hk]; [by left|right]. simpl.
    by rewrite lookup_delete_ne.
Qed.

Lemma known_run (es : list Event) st st' c :
  consistent st -> known c st -> run es st = Some st' ->
  known c st' /\ requests_for c st' = requests_for c st.
Proof.
  revert st. induction es as [|e es IH]; intros st Hst Hk; simpl.
  - by intros [= <-].
  - destruct (step e st) as [st1|] eqn:He; [|discriminate]. intros Hrun.
    destruct (known_step _ _ _ _ Hst Hk He) as [Hk1 Hreq1].
    destruct (IH st1 (consistent_step _ _ _ Hst He) Hk1 Hrun) as [Hk' Hreq'].
    split; [done|congruence].
Qed.

(** A cached manifest is never replaced. *)
Lemma cached_step st st' (e : Event) c v :
  consistent st -> manifestCache st !! c = Some v -> step e st = Some st' ->
  manifestCache st' !! c = Some v.
Proof.
  intros Hst Hc. destruct e as [c'|p r|p]; simpl.
  - intros [= <-]. unfold fetchFolderManifest.
    destruct (manifestCache st !! c'); [done|].
    by destruct (pendingManifests st !! c').
  - intros (c0 & Hp & ->)%on_response_Some. simpl.
    destruct (phases_agree st Hst p c0 _ Hp) as [Hcache _].
    rewrite lookup_insert_ne; [done|congruence].
  - by intros (c0 & v0 & Hp & ->)%on_finally_Some.
Qed.

Lemma cached_run (es : list Event) st st' c v :
  consistent st -> manifestCache st !! c = Some v -> run es st = Some st' ->
  manifestCache st' !! c = Some v.
Proof.
  revert st. induction es as [|e es IH]; intros st Hst Hc; simpl.
  - by intros [= <-].
  - destruct (step e st) as [st1|] eqn:He; [|discriminate].
    apply IH; [by eapply consistent_step | by eapply cached_step].
Qed.

Lemma follows_refl ph : follows ph ph.
Proof. destruct ph; simpl; auto. Qed.

Lemma follows_trans ph1 ph2 ph3 : follows ph1 ph2 -> follows ph2 ph3 -> follows ph1 ph3.
Proof.
  destruct ph1; simpl; [done| |].
  - intros [-> | ->]; simpl; [done|]. intros ->. by right.
  - intros ->. done.
Qed.

(** A promise keeps its category, and its phase only moves on. *)
Lemma promise_step st st' (e : Event) p c ph :
  promises st !! p = Some (c, ph) -> step e st = Some st' ->
  exists ph', promises st' !! p = Some (c, ph') /\ follows ph ph'.
Proof.
  intros Hl. destruct e as [c'|q r|q]; simpl.
  - intros [= <-]. exists ph. split; [|apply follows_refl].
    unfold fetchFolderManifest.
    destruct (manifestCache st !! c'); [done|].
    destruct (pendingManifests st !! c'); [done|]. simpl.
    by apply lookup_app_l_Some.
  - intros (c0 & Hq & ->)%on_response_Some. simpl.
    destruct (decide (q = p)) as [->|Hne].
    + rewrite Hl in Hq. injection Hq as <- ->.
      eexists. split; [|done].
      apply list_lookup_insert_eq. by eapply lookup_lt_Some.
    + exists ph. split; [|apply follows_refl]. by rewrite list_lookup_insert_ne.
  - intros (c0 & v & Hq & ->)%on_finally_Some. simpl.
    destruct (decide (q = p)) as [->|Hne].
    + rewrite Hl in Hq. injection Hq as <- ->.
      eexists. split; [|by right].
      apply list_lookup_insert_eq. by eapply lookup_lt_Some.
    + exists ph. split; [|apply follows_refl]. by rewrite list_lookup_insert_ne.
Qed.

Lemma promise_run (es : list Event) st st' p c ph :
  promises st !! p = Some (c, ph) -> run es st = Some st' ->
  exists ph', promises st' !! p = Some (c, ph') /\ follows ph ph'.
Proof.
  revert st ph. induction es as [|e es IH]; intros st ph Hl; simpl.
  - intros [= <-]. exists ph. split; [done|apply follows_refl].
  - destruct (step e st) as [st1|] eqn:He; [|discriminate]. intros Hrun.
    destruct (promise_step _ _ _ _ _ _ Hl He) as (ph1 & Hl1 & Hf1).
    destruct (IH _ _ Hl1 Hrun) as (ph' & Hl' & Hf').
    exists ph'. split; [done|by eapply follows_trans].
Qed.

Lemma resolved_Some st p v :
  resolved p st = Some v <-> exists c, promises st !! p = Some (c, Fulfilled v).
Proof.
  unfold resolved. split.
  - destruct (promises st !! p) as [[c []]|]; try discriminate.
    intros [= ->]. eauto.
  - intros [c ->]. done.
Qed.

Lemma failed_settles_empty (r : ManifestResponse) : failed r -> settled_value r = [].
Proof. intros [-> | [[body ->] | ->]]; reflexivity. Qed.

(** C4. When the fetch of a category's manifest fails, its promise
    resolves to the empty sequence, the empty sequence is stored in the
    cache, and whatever happens afterwards every call for that category
    returns the empty sequence, changes nothing and sends no request. *)
Theorem manifest_failure_memoized
    (es : list Event) st p c (r : ManifestResponse) :
  run es empty_store = Some st ->
  promises st !! p = Some (c, Fetching) ->
  failed r ->
  exists st1,
    step (Respond p r) st = Some st1
    /\ manifestCache st1 !! c = Some []
    /\ promises st1 !! p = Some (c, Settled [])
    /\ forall later st2, run later st1 = Some st2 ->
         fetchFolderManifest c st2 = (Now [], st2)
         /\ requests_for c st2 = requests_for c st
         /\ (promises st2 !! p = Some (c, Settled [])
             \/ resolved p st2 = Some []).
Proof.
  intros Hst%reachable_consistent Hp Hr.
  set (st1 := mkStore (<[c := []]> (manifestCache st))
                      (pendingManifests st)
                      (<[p := (c, Settled [])]> (promises st))
                      (network st)).
  assert (Hstep : step (Respond p r) st = Some st1).
  { simpl. unfold on_response. by rewrite Hp, (failed_settles_empty r Hr). }
  exists st1. split; [exact Hstep|].
  pose proof (consistent_step _ _ _ Hst Hstep) as Hst1.
  assert (Hl1 : promises st1 !! p = Some (c, Settled [])).
  { apply list_lookup_insert_eq. by eapply lookup_lt_Some. }
  assert (Hc1 : manifestCache st1 !! c = Some []) by apply lookup_insert_eq.
  split; [exact Hc1|]. split; [exact Hl1|].
  intros later st2 Hrun. split; [|split].
  - apply fetchFolderManifest_cached. by eapply cached_run.
  - destruct (known_run later st1 st2 c Hst1) as [_ ->]; [|exact Hrun|done].
    left. eauto.
  - destruct (promise_run later st1 st2 p c _ Hl1 Hrun) as (ph & Hl2 & Hf).
    destruct Hf as [-> | ->]; [by left|right].
    apply resolved_Some. eauto.
Qed.

Lemma manifest_failure_memoized_witness :
  exists st1,
    step (Respond 0 ManifestNetworkError)
         (snd (fetchFolderManifest (lit "rain-day") empty_store)) = Some st1
    /\ forall st2,
         run [Call (lit "rain-day"); Finally 0; Call (lit "rain-day")] st1
         = Some st2 ->
         fetchFolderManifest (lit "rain-day") st2 = (Now [], st2)
         /\ requests_for (lit "rain-day") st2 = 1%nat.
Proof.
  destruct (manifest_failure_memoized [Call (lit "rain-day")]
              (snd (fetchFolderManifest (lit "rain-day") empty_store))
              0 (lit "rain-day") ManifestNetworkError)
    as (st1 & Hstep & _ & _ & Hlater).
  - reflexivity.
  - reflexivity.
  - left. reflexivity.
  - exists st1. split; [exact Hstep|]. intros st2 Hrun.
    destruct (Hlater _ _ Hrun) as (Hcall & Hreq & _).
    split; [exact Hcall|]. rewrite Hreq. reflexivity.
Defined.

(** The [then]/[catch] handlers of an outstanding fetch run on every
    answer and settle its promise with the value of the answer. *)
Lemma response_settles st c p (r : ManifestResponse) :
  promises st !! p = Some (c, Fetching) ->
  exists st',
    step (Respond p r) st = Some st'
    /\ promises st' !! p = Some (c, Settled (settled_value r))
    /\ manifestCache st' !! c = Some (settled_value r).
Proof.
  intros Hl. simpl. unfold on_response. rewrite Hl.
  eexists. split; [reflexivity|]. simpl. split.
  - apply list_lookup_insert_eq. by eapply lookup_lt_Some.
  - apply lookup_insert_eq.
Qed.

(** The [finally] handler of a settled promise runs and fulfils it with
    the value it was settled with. *)
Lemma finally_fulfils st c p v :
  promises st !! p = Some (c, Settled v) ->
  exists st', step (Finally p) st = Some st' /\ resolved p st' = Some v.
Proof.
  intros Hl. simpl. unfold on_finally. rewrite Hl.
  eexists. split; [reflexivity|]. apply resolved_Some. exists c. simpl.
  apply list_lookup_insert_eq. by eapply lookup_lt_Some.
Qed.

(** A fulfilled promise stays fulfilled with its value. *)
Lemma resolved_run (es : list Event) st st' p v :
  resolved p st = Some v -> run es st = Some st' -> resolved p st' = Some v.
Proof.
  intros [c Hl]%resolved_Some Hrun.
  destruct (promise_run es _ st' p c _ Hl Hrun) as (ph & Hl' & Hf).
  simpl in Hf. subst ph. apply resolved_Some. eauto.
Qed.

(** C5. A call for a category that is neither cached nor pending sends
    one request and hands out a new promise.  Any number of further calls
    for the category leave the store as it is.  Whatever the event loop
    runs afterwards, that request stays the only one for the category;
    while it is outstanding every call for the category hands out the same
    promise and changes nothing; and the value that promise is fulfilled
    with is one value, the one every later call returns.  The promise is
    there in every later state; while it is outstanding every answer of
    the network is handled and settles it with the value of that answer,
    the [finally] handler of a settled promise fulfils it with that value,
    and so after the answer and the [finally] handler the one promise all
    the callers hold is fulfilled, for good, with the value of the answer,
    which is also what every later call returns, still with the one
    request. *)
Theorem manifest_single_flight (es : list Event) st c :
  run es empty_store = Some st ->
  manifestCache st !! c = None -> pendingManifests st !! c = None ->
  let p := length (promises st) in
  let st1 := snd (fetchFolderManifest c st) in
  fetchFolderManifest c st = (Later p, st1)
  /\ requests_for c st = 0%nat
  /\ requests_for c st1 = 1%nat
  /\ (forall n, run (replicate n (Call c)) st1 = Some st1)
  /\ forall during st2, run during st1 = Some st2 ->
       requests_for c st2 = 1%nat
       /\ (promises st2 !! p = Some (c, Fetching) ->
           fetchFolderManifest c st2 = (Later p, st2))
       /\ (forall v, promises st2 !! p = Some (c, Settled v) ->
           fetchFolderManifest c st2 = (Now v, st2)
           /\ forall more st3 v', run more st2 = Some st3 ->
                resolved p st3 = Some v' -> v' = v)
       /\ (forall v, resolved p st2 = Some v ->
           fetchFolderManifest c st2 = (Now v, st2)
           /\ forall more st3, run more st2 = Some st3 ->
                resolved p st3 = Some v)
       /\ (exists ph, promises st2 !! p = Some (c, ph))
       /\ (promises st2 !! p = Some (c, Fetching) ->
           forall r, exists st3 st4,
             step (Respond p r) st2 = Some st3
             /\ promises st3 !! p = Some (c, Settled (settled_value r))
             /\ step (Finally p) st3 = Some st4
             /\ forall more st5, run more st4 = Some st5 ->
                  resolved p st5 = Some (settled_value r)
                  /\ fetchFolderManifest c st5 = (Now (settled_value r), st5)
                  /\ requests_for c st5 = 1%nat)
       /\ (forall v, promises st2 !! p = Some (c, Settled v) ->
           exists st3,
             step (Finally p) st2 = Some st3 /\ resolved p st3 = Some v).
Proof.
  intros Hst%reachable_consistent Hc Hp p st1. subst p st1.
  rewrite (fetchFolderManifest_fresh st c Hc Hp). simpl snd.
  set (p := length (promises st)).
  set (st1 := mkStore _ _ _ _).
  assert (Hst1 : consistent st1).
  { pose proof (consistent_call st c Hst) as H.
    by rewrite (fetchFolderManifest_fresh st c Hc Hp) in H. }
  assert (Hl1 : promises st1 !! p = Some (c, Fetching)).
  { subst st1. simpl. by apply list_lookup_middle. }
  assert (Hk1 : known c st1).
  { right. subst st1. simpl. rewrite lookup_insert_eq. eauto. }
  assert (Hreq0 : requests_for c st = 0%nat) by by apply unknown_no_requests.
  assert (Hreq1 : requests_for c st1 = 1%nat).
  { subst st1. rewrite requests_for_snoc, Hreq0.
    destruct (decide (c = c)); [done|congruence]. }
  split; [done|]. split; [done|]. split; [done|]. split.
  { destruct (phases_agree st1 Hst1 p c _ Hl1) as [Hc1 Hp1].
    intros n. induction n as [|n IH]; [done|]. simpl.
    rewrite (fetchFolderManifest_pending st1 c p Hc1 Hp1). exact IH. }
  intros during st2 Hrun.
  pose proof (consistent_run _ _ _ Hst1 Hrun) as Hst2.
  destruct (known_run during _ st2 c Hst1 Hk1 Hrun) as [Hk2 Hreq2].
  split; [congruence|]. split; [|split; [|split; [|split; [|split]]]].
  - intros Hl2. destruct (phases_agree st2 Hst2 p c _ Hl2) as [Hc2 Hp2].
    by apply fetchFolderManifest_pending.
  - intros v Hl2. destruct (phases_agree st2 Hst2 p c _ Hl2) as [Hc2 Hp2].
    split; [by apply fetchFolderManifest_cached|].
    intros more st3 v' Hmore [c' Hl3]%resolved_Some.
    destruct (promise_run more _ st3 p c _ Hl2 Hmore) as (ph & Hl3' & Hf).
    rewrite Hl3 in Hl3'. injection Hl3' as -> <-.
    destruct Hf as [Hf | Hf]; congruence.
  - intros v [c' Hl2]%resolved_Some.
    destruct (promise_run during _ st2 p c _ Hl1 Hrun) as (ph & Hl2' & _).
    rewrite Hl2 in Hl2'. injection Hl2' as -> <-.
    destruct (phases_agree st2 Hst2 p c _ Hl2) as [Hc2 Hp2].
    split; [by apply fetchFolderManifest_cached|].
    intros more st3 Hmore.
    destruct (promise_run more _ st3 p c _ Hl2 Hmore) as (ph & Hl3 & Hf).
    simpl in Hf. subst ph. apply resolved_Some. eauto.
  - destruct (promise_run during _ st2 p c _ Hl1 Hrun) as (ph & Hl2 & _).
    eauto.
  - intros Hl2 r.
    destruct (response_settles st2 c p r Hl2) as (st3 & Hstep3 & Hl3 & Hc3).
    destruct (finally_fulfils st3 c p _ Hl3) as (st4 & Hstep4 & Hres4).
    exists st3, st4. split; [done|]. split; [done|]. split; [done|].
    pose proof (consistent_step _ _ _ Hst2 Hstep3) as Hst3.
    pose proof (consistent_step _ _ _ Hst3 Hstep4) as Hst4.
    destruct (known_step _ _ _ c Hst2 Hk2 Hstep3) as [Hk3 Hreq3].
    destruct (known_step _ _ _ c Hst3 Hk3 Hstep4) as [Hk4 Hreq4].
    pose proof (cached_step _ _ _ _ _ Hst3 Hc3 Hstep4) as Hc4.
    intros more st5 Hmore. split; [by eapply resolved_run|]. split.
    + apply fetchFolderManifest_cached. by eapply cached_run.
    + destruct (known_run more _ st5 c Hst4 Hk4 Hmore) as [_ ->]. congruence.
  - intros v Hl2. by eapply finally_fulfils.
Qed.

Lemma manifest_single_flight_witness :
  let c := lit "snow-night" in
  let st1 := snd (fetchFolderManifest c empty_store) in
  let answer := ManifestHttp true (Some [lit "a.jpg"; lit "b.jpg"]) in
  fetchFolderManifest c empty_store = (Later 0%nat, st1)
  /\ forall st2, run [Call c; Call (lit "rain-day"); Call c] st1 = Some st2 ->
       requests_for c st2 = 1%nat
       /\ fetchFolderManifest c st2 = (Later 0%nat, st2)
       /\ exists st5,
            run [Respond 0 answer; Finally 0; Call c] st2 = Some st5
            /\ resolved 0 st5 = Some [lit "a.jpg"; lit "b.jpg"]
            /\ requests_for c st5 = 1%nat.
Proof.
  intros c st1 answer.
  destruct (manifest_single_flight [] empty_store c)
    as (Hcall & _ & _ & _ & Hduring).
  - reflexivity.
  - reflexivity.
  - reflexivity.
  - split; [exact Hcall|]. intros st2 Hrun.
    change (length (promises empty_store)) with 0%nat in Hduring.
    destruct (Hduring _ _ Hrun) as (Hreq & Hjoin & _ & _ & _ & Hanswer & _).
    assert (Hl2 : promises st2 !! 0%nat = Some (c, Fetching)).
    { vm_compute in Hrun. injection Hrun as <-. reflexivity. }
    split; [exact Hreq|]. split; [by apply Hjoin|].
    destruct (Hanswer Hl2 answer) as (st3 & st4 & Hstep3 & _ & Hstep4 & Hlater).
    destruct (Hlater [Call c] (snd (fetchFolderManifest c st4)) eq_refl)
      as (Hres & _ & Hreq5).
    exists (snd (fetchFolderManifest c st4)).
    split; [|split; [exact Hres | exact Hreq5]].
    cbn [run]. rewrite Hstep3, Hstep4. reflexivity.
Defined.

End ManifestCache.

(* ===================================================================== *)
(** ** Text contrast, gradient and overlays against the category and the
       time bucket *)
(* ===================================================================== *)

Section Presentation.

(** Closes a propositional combination of equations between literals. *)
Ltac lits :=
  vm_compute; repeat split; intros;
  repeat match goal with H : _ \/ _ |- _ => destruct H end;
  first [ discriminate | reflexivity | by auto 6 ].

Lemma bucket_color_by_hour (h : Z) :
  (6 <= h < 18 ->
   snd (bucket_and_color h) = lit "#F7F9FF"
   \/ snd (bucket_and_color h) = lit "#F2F4FF")
  /\ (~ 6 <= h < 18 ->
      snd (bucket_and_color h) = lit "#273657"
      \/ snd (bucket_and_color h) = lit "#4E72A0"
      \/ snd (bucket_and_color h) = lit "#96A8C2").
Proof.
  unfold bucket_and_color. split; intros Hh;
    repeat match goal with
    | |- context [?a <=? ?b] => destruct (Z.leb_spec a b); try lia
    | |- context [?a <? ?b] => destruct (Z.ltb_spec a b); try lia
    end; simpl; auto.
Qed.

(** X1. For every time string, absent or not, parsable or not, the detail
    view's text is dark ([text-zinc-900] or [text-zinc-950]) exactly when
    the tint of [getTimeOfDayBg] is one of the two light tints, and is
    [text-white] exactly when the tint is one of the three dark ones. *)
Theorem contrast_follows_tint (timeStr : option jsstring) :
  let text := main (getTextContrastClass timeStr) in
  let tint := getTimeOfDayBg timeStr in
  (text = lit "text-zinc-900" \/ text = lit "text-zinc-950"
   <-> tint = lit "#F7F9FF" \/ tint = lit "#F2F4FF")
  /\ (text = lit "text-white"
      <-> tint = lit "#273657" \/ tint = lit "#4E72A0" \/ tint = lit "#96A8C2")
  /\ (text = lit "text-zinc-900" \/ text = lit "text-zinc-950"
      \/ text = lit "text-white").
Proof.
  intros text tint. subst text tint.
  destruct timeStr as [[|c s]|].
  - lits.
  - unfold getTextContrastClass, getTimeOfDayBg.
    set (h := hour_of (c :: s)).
    destruct (bucket_color_by_hour h) as [Hlight Hdark].
    destruct (Z.leb_spec 6 h) as [Hlo|Hlo], (Z.ltb_spec h 18) as [Hhi|Hhi];
      simpl.
    + specialize (Hlight ltac:(lia)). destruct Hlight as [-> | ->]; lits.
    + specialize (Hdark ltac:(lia)). destruct Hdark as [-> | [-> | ->]]; lits.
    + specialize (Hdark ltac:(lia)). destruct Hdark as [-> | [-> | ->]]; lits.
    + lia.
  - lits.
Qed.

Lemma startsWith_app (p s : jsstring) : startsWith (p ++ s) p = true.
Proof. induction p as [|c p IH]; simpl; [done|]. by rewrite Z.eqb_refl. Qed.

(** The class a category string starts with, by the code. *)
Lemma category_prefix (w : WeatherData) :
  exists c, getWeatherCategory (Some w) = Some c
    /\ c ≠ []
    /\ (startsWith c (lit "snow") = true <-> conditionCode w ∈ snow_codes)
    /\ (startsWith c (lit "rain") = true <-> conditionCode w ∈ rain_codes)
    /\ (startsWith c (lit "clear") = true
        <-> ((conditionCode w ∉ snow_codes) /\ (conditionCode w ∉ rain_codes))).
Proof.
  eexists. split; [apply getWeatherCategory_unfold|].
  destruct (includes snow_codes (conditionCode w)) eqn:Hs.
  - pose proof (proj1 (includes_elem _ _) Hs) as Hs'.
    pose proof (snow_rain_disjoint _ Hs') as Hr.
    split; [done|]. split; [by rewrite startsWith_app|].
    split; (split; [destruct (isDay w); discriminate|]); [done|tauto].
  - pose proof (proj1 (includes_not_elem _ _) Hs) as Hs'.
    destruct (includes rain_codes (conditionCode w)) eqn:Hr.
    + pose proof (proj1 (includes_elem _ _) Hr) as Hr'.
      split; [done|].
      split; [split; [destruct (isDay w); discriminate|done]|].
      split; [by rewrite startsWith_app|].
      split; [destruct (isDay w); discriminate|tauto].
    + pose proof (proj1 (includes_not_elem _ _) Hr) as Hr'.
      split; [done|].
      split; [split; [destruct (isDay w); discriminate|done]|].
      split; [split; [destruct (isDay w); discriminate|done]|].
      by rewrite startsWith_app.
Qed.

(** Splits on the membership tests of a code that is a variable; where a
    test succeeds the code becomes one of the listed numbers. *)
Ltac by_code :=
  repeat match goal with
  | |- context [includes ?l ?x] =>
      is_var x;
      let H := fresh "Hin" in
      destruct (includes l x) eqn:H;
      [ apply includes_elem in H;
        repeat (apply elem_of_cons in H; destruct H as [-> | H]);
        [ .. | by apply elem_of_nil in H ]
      | ]
  end.

(** X2. The gradient of [getWeatherGradient] agrees with the category of
    [getWeatherCategory] on snow, by day and by night: the snow gradients
    are shown exactly for the snow categories.  The rain gradient is shown
    only for the category rain-day, and the category rain-night always gets
    the default night gradient. *)
Theorem gradient_follows_category (w : WeatherData) :
  let g := getWeatherGradient (Some w) in
  let category := getWeatherCategory (Some w) in
  (category = Some (lit "snow-day")
   <-> g = lit "bg-gradient-to-br from-[#dfe4ea] to-[#f1f2f6]")
  /\ (category = Some (lit "snow-night")
      <-> g = lit "bg-gradient-to-br from-[#1a1b26] to-[#2e3440]")
  /\ (g = lit "bg-gradient-to-br from-[#4d5b6b] to-[#8fa2b8]" ->
      category = Some (lit "rain-day"))
  /\ (category = Some (lit "rain-night") ->
      g = lit "bg-gradient-to-br from-[#08090a] to-[#161a1d]").
Proof.
  intros g category. subst g category.
  destruct w as [t code text day time].
  unfold getWeatherGradient, getWeatherCategory, snow_codes, rain_codes.
  cbn [conditionCode isDay].
  destruct day; by_code; lits.
Qed.

(** X3. Of the rain, snow and clear overlays of the detail view at most
    one kind is rendered: rain exactly for the rain codes, snow exactly for
    the snow codes, the shimmer exactly for the other codes by day; the
    night lamps exactly at night. *)
Theorem overlays_exclusive (w : WeatherData) :
  let '(isRain, isSnow, isNight, shimmer) := WindowFrame.overlays w in
  (isRain = true <->
     conditionCode w
     ∈ [51; 53; 55; 56; 57; 61; 63; 65; 66; 67; 80; 81; 82; 95; 96; 99])
  /\ (isSnow = true <-> conditionCode w ∈ [71; 73; 75; 77; 85; 86])
  /\ isNight = negb (isDay w)
  /\ (shimmer = true <-> (isRain = false /\ isSnow = false /\ isDay w = true))
  /\ (isRain = false \/ isSnow = false).
Proof.
  unfold WindowFrame.overlays.
  destruct (category_prefix w) as (c & -> & Hne & Hsnow & Hrain & Hclear).
  change [51; 53; 55; 56; 57; 61; 63; 65; 66; 67; 80; 81; 82; 95; 96; 99]
    with rain_codes.
  change [71; 73; 75; 77; 85; 86] with snow_codes.
  assert (truthy c = true) as -> by (by destruct c).
  pose proof (snow_rain_disjoint (conditionCode w)) as Hdisjoint.
  destruct (startsWith c (lit "rain")), (startsWith c (lit "snow")),
           (startsWith c (lit "clear")), (isDay w); simpl;
    intuition (discriminate || auto).
Qed.

End Presentation.

(* ===================================================================== *)
(** ** fetchFolderManifest: request count, success path, live promises *)
(* ===================================================================== *)

Section ManifestLifetime.

Implicit Types (st : ManifestStore) (c : jsstring) (p : nat).

Lemma not_known st c :
  ~ known c st <->
  manifestCache st !! c = None /\ pendingManifests st !! c = None.
Proof.
  unfold known.
  destruct (manifestCache st !! c) as [v|], (pendingManifests st !! c) as [q|].
  - split; [intros H; exfalso; apply H; eauto | intros [? ?]; discriminate].
  - split; [intros H; exfalso; apply H; eauto | intros [? ?]; discriminate].
  - split; [intros H; exfalso; apply H; eauto | intros [? ?]; discriminate].
  - split; [done | intros _ [[? ?]|[? ?]]; discriminate].
Qed.

(** A step from a state that does not know the category: either it is the
    call that sends the one request, or the category stays unknown. *)
Lemma unknown_step st st' (e : Event) c :
  consistent st -> ~ known c st -> step e st = Some st' ->
  (known c st' /\ requests_for c st' = S (requests_for c st))
  \/ (~ known c st' /\ requests_for c st' = requests_for c st).
Proof.
  intros Hst [Hc Hp]%not_known. destruct e as [c'|p r|p]; simpl.
  - intros [= <-]. destruct (decide (c' = c)) as [->|Hne].
    + left. rewrite (fetchFolderManifest_fresh st c Hc Hp). simpl. split.
      * right. simpl. rewrite lookup_insert_eq. eauto.
      * rewrite requests_for_snoc. destruct (decide (c = c)); [lia|done].
    + right. unfold fetchFolderManifest.
      destruct (manifestCache st !! c') as [v|] eqn:Hc';
        [by split; [apply not_known|]|].
      destruct (pendingManifests st !! c') as [p0|] eqn:Hp';
        [by split; [apply not_known|]|].
      simpl. split.
      * apply not_known. simpl. by rewrite lookup_insert_ne.
      * rewrite requests_for_snoc. destruct (decide (c' = c)); [done|lia].
  - intros (c0 & Hl & ->)%on_response_Some. right. split; [|done].
    destruct (phases_agree st Hst p c0 _ Hl) as [_ Hp0].
    apply not_known. simpl. split; [|done].
    rewrite lookup_insert_ne; [done|congruence].
  - intros (c0 & v & Hl & ->)%on_finally_Some. right. split; [|done].
    destruct (phases_agree st Hst p c0 _ Hl) as [_ Hp0].
    apply not_known. simpl. split; [done|].
    rewrite lookup_delete_ne; [done|congruence].
Qed.

Lemma requests_counted (es : list Event) st st' c :
  consistent st ->
  (known c st /\ requests_for c st = 1%nat)
  \/ (~ known c st /\ requests_for c st = 0%nat) ->
  run es st = Some st' ->
  (known c st' /\ requests_for c st' = 1%nat)
  \/ (~ known c st' /\ requests_for c st' = 0%nat).
Proof.
  revert st. induction es as [|e es IH]; intros st Hst Hcount; simpl.
  - by intros [= <-].
  - destruct (step e st) as [st1|] eqn:He; [|discriminate].
    apply IH; [by eapply consistent_step|].
    destruct Hcount as [[Hk Hreq] | [Hk Hreq]].
    + left. destruct (known_step _ _ _ _ Hst Hk He) as [Hk1 Hreq1].
      split; [done|congruence].
    + destruct (unknown_step _ _ _ _ Hst Hk He) as [[Hk1 Hreq1] | [Hk1 Hreq1]].
      * left. split; [done|lia].
      * right. split; [done|lia].
Qed.

(** X4. Whatever calls and answers the event loop interleaves, at most
    one request is ever sent for a category: one once the category has been
    asked for, none before. *)
Theorem one_request_per_category (es : list Event) st c :
  run es empty_store = Some st ->
  (requests_for c st <= 1)%nat
  /\ (requests_for c st = 1%nat <-> known c st).
Proof.
  intros Hrun.
  destruct (requests_counted es empty_store st c consistent_empty) as
    [[Hk Hreq] | [Hk Hreq]]; [|done| |].
  - right. split; [|done]. apply not_known. done.
  - split; [lia|]. tauto.
  - split; [lia|]. split; [lia|tauto].
Qed.

Lemma one_request_per_category_witness :
  exists st,
    run [Call (lit "rain-day"); Call (lit "rain-day");
         Respond 0 (ManifestHttp true (Some [lit "a.png"]));
         Call (lit "rain-day"); Finally 0; Call (lit "rain-day")]
        empty_store = Some st
    /\ requests_for (lit "rain-day") st = 1%nat.
Proof.
  destruct (run [Call (lit "rain-day"); Call (lit "rain-day");
                 Respond 0 (ManifestHttp true (Some [lit "a.png"]));
                 Call (lit "rain-day"); Finally 0; Call (lit "rain-day")]
                empty_store) as [st|] eqn:Hrun;
    [|vm_compute in Hrun; discriminate].
  exists st. split; [reflexivity|].
  apply (one_request_per_category _ st (lit "rain-day") Hrun).
  vm_compute in Hrun. injection Hrun as <-. left. vm_compute. eauto.
Defined.

(** X5. A manifest that was fetched successfully is memoized for good:
    the answer is handled and settles the promise of the fetch with the
    fetched list, which is stored in the cache; after it, whatever happens,
    every call for the category returns the fetched list, changes nothing
    and sends no request; and the promise of the fetch is fulfilled with
    that list, or is still settled with it and its [finally] handler
    fulfils it with that list. *)
Theorem manifest_success_memoized
    (es : list Event) st p c (data : FolderManifest) :
  run es empty_store = Some st ->
  promises st !! p = Some (c, Fetching) ->
  exists st1,
    step (Respond p (ManifestHttp true (Some data))) st = Some st1
    /\ manifestCache st1 !! c = Some data
    /\ promises st1 !! p = Some (c, Settled data)
    /\ forall later st2, run later st1 = Some st2 ->
         fetchFolderManifest c st2 = (Now data, st2)
         /\ requests_for c st2 = requests_for c st
         /\ (resolved p st2 = Some data
             \/ (promises st2 !! p = Some (c, Settled data)
                 /\ exists st3,
                      step (Finally p) st2 = Some st3
                      /\ resolved p st3 = Some data)).
Proof.
  intros Hst%reachable_consistent Hp.
  set (st1 := mkStore (<[c := data]> (manifestCache st))
                      (pendingManifests st)
                      (<[p := (c, Settled data)]> (promises st))
                      (network st)).
  assert (Hstep : step (Respond p (ManifestHttp true (Some data))) st = Some st1).
  { simpl. unfold on_response. by rewrite Hp. }
  exists st1. split; [exact Hstep|].
  pose proof (consistent_step _ _ _ Hst Hstep) as Hst1.
  assert (Hl1 : promises st1 !! p = Some (c, Settled data)).
  { apply list_lookup_insert_eq. by eapply lookup_lt_Some. }
  assert (Hc1 : manifestCache st1 !! c = Some data) by apply lookup_insert_eq.
  split; [exact Hc1|]. split; [exact Hl1|].
  intros later st2 Hrun. split; [|split].
  - apply fetchFolderManifest_cached. by eapply cached_run.
  - destruct (known_run later st1 st2 c Hst1) as [_ ->]; [|exact Hrun|done].
    left. eauto.
  - destruct (promise_run later st1 st2 p c _ Hl1 Hrun) as (ph & Hl2 & Hf).
    destruct Hf as [-> | ->].
    + right. split; [done|]. by eapply finally_fulfils.
    + left. apply resolved_Some. eauto.
Qed.

Lemma manifest_success_memoized_witness :
  exists st1,
    step (Respond 0 (ManifestHttp true (Some [lit "a.png"; lit "b.png"])))
         (snd (fetchFolderManifest (lit "clear-day") empty_store)) = Some st1
    /\ promises st1 !! 0%nat
       = Some (lit "clear-day", Settled [lit "a.png"; lit "b.png"])
    /\ forall st2,
         run [Finally 0; Call (lit "clear-day")] st1 = Some st2 ->
         fetchFolderManifest (lit "clear-day") st2
         = (Now [lit "a.png"; lit "b.png"], st2).
Proof.
  destruct (manifest_success_memoized [Call (lit "clear-day")]
              (snd (fetchFolderManifest (lit "clear-day") empty_store))
              0 (lit "clear-day") [lit "a.png"; lit "b.png"])
    as (st1 & Hstep & _ & Hsettled & Hlater).
  - reflexivity.
  - reflexivity.
  - exists st1. split; [exact Hstep|]. split; [exact Hsettled|].
    intros st2 Hrun. apply (Hlater _ _ Hrun).
Defined.

Lemma tracked_step st st' (e : Event) :
  tracked st -> step e st = Some st' -> tracked st'.
Proof.
  intros Htr. destruct e as [c'|p r|p]; simpl.
  - intros [= <-]. unfold fetchFolderManifest.
    destruct (manifestCache st !! c') as [v|]; [done|].
    destruct (pendingManifests st !! c') as [p0|]; [done|].
    intros c p. simpl. rewrite lookup_insert.
    destruct (decide (c' = c)) as [->|Hne].
    + intros [= <-]. exists Fetching. by apply list_lookup_middle.
    + intros Hp. destruct (Htr c p Hp) as [ph Hl].
      exists ph. by apply lookup_app_l_Some.
  - intros (c0 & Hl0 & ->)%on_response_Some c q. simpl. intros Hq.
    destruct (Htr c q Hq) as [ph Hl].
    destruct (decide (p = q)) as [->|Hne].
    + rewrite Hl in Hl0. injection Hl0 as -> ->. eexists.
      apply list_lookup_insert_eq. by eapply lookup_lt_Some.
    + exists ph. by rewrite list_lookup_insert_ne.
  - intros (c0 & v & Hl0 & ->)%on_finally_Some c q. simpl. intros Hq.
    apply lookup_delete_Some in Hq as [Hne Hq].
    destruct (Htr c q Hq) as [ph Hl].
    destruct (decide (p = q)) as [->|Hpq].
    + rewrite Hl in Hl0. congruence.
    + exists ph. by rewrite list_lookup_insert_ne.
Qed.

Lemma tracked_run (es : list Event) st st' :
  tracked st -> run es st = Some st' -> tracked st'.
Proof.
  revert st. induction es as [|e es IH]; intros st Htr; simpl.
  - by intros [= <-].
  - destruct (step e st) as [st1|] eqn:He; [|discriminate].
    apply IH. by eapply tracked_step.
Qed.

(** X6. A call never hands out a dead promise: in every state the event
    loop reaches, the promise a call returns belongs to a fetch for that
    very category that is still out, so that its answer, whatever it is,
    will be handled and from then on calls return the value it settled
    with. *)
Theorem handed_out_promise_is_live (es : list Event) st c p st' :
  run es empty_store = Some st ->
  fetchFolderManifest c st = (Later p, st') ->
  promises st' !! p = Some (c, Fetching)
  /\ forall r, exists st'',
       step (Respond p r) st' = Some st''
       /\ fetchFolderManifest c st'' = (Now (settled_value r), st'').
Proof.
  intros Hrun Hcall.
  pose proof (reachable_consistent _ _ Hrun) as Hst.
  assert (Htr : tracked st).
  { eapply tracked_run; [|exact Hrun]. intros c0 p0 H. simpl in H.
    by rewrite lookup_empty in H. }
  assert (Hst' : consistent st').
  { pose proof (consistent_call st c Hst) as H. by rewrite Hcall in H. }
  assert (Hl : promises st' !! p = Some (c, Fetching)).
  { unfold fetchFolderManifest in Hcall.
    destruct (manifestCache st !! c) as [v|] eqn:Hc; [discriminate|].
    destruct (pendingManifests st !! c) as [p0|] eqn:Hp.
    - injection Hcall as <- <-. destruct (Htr c p0 Hp) as [ph Hl].
      pose proof (phases_agree st Hst p0 c ph Hl) as Hph.
      destruct ph; destruct Hph; congruence.
    - injection Hcall as <- <-. simpl. by apply list_lookup_middle. }
  split; [exact Hl|]. intros r.
  simpl. unfold on_response. rewrite Hl. eexists. split; [reflexivity|].
  apply fetchFolderManifest_cached. simpl. apply lookup_insert_eq.
Qed.

Lemma handed_out_promise_is_live_witness :
  exists st'',
    step (Respond 0 ManifestNetworkError)
         (snd (fetchFolderManifest (lit "snow-day") empty_store)) = Some st''
    /\ fetchFolderManifest (lit "snow-day") st'' = (Now [], st'').
Proof.
  destruct (handed_out_promise_is_live [] empty_store (lit "snow-day") 0
              (snd (fetchFolderManifest (lit "snow-day") empty_store)))
    as [_ Hlive].
  - reflexivity.
  - reflexivity.
  - exact (Hlive ManifestNetworkError).
Defined.

End ManifestLifetime.

(* ===================================================================== *)
(** ** fetchWeather: how long it waits *)
(* ===================================================================== *)

Section WaitBound.

Variable Number_toString : Q -> jsstring.

(** X7. The waits of one [fetchWeather] call add up to at most 9000 ms; a
    call that returns a snapshot has waited at most 4500 ms; and when no
    answer is a 429 the waits add up to at most 1500 ms. *)
Theorem fetchWeather_wait_bound (city : City) (env : WeatherEnv) :
  let r := fst (fetchWeather Number_toString city env) in
  let t := snd (fetchWeather Number_toString city env) in
  0 <= total_wait t <= 9000
  /\ (forall w, r = Returns w -> total_wait t <= 4500)
  /\ ((forall k, (k < 3)%nat -> attempt env k ≠ RateLimited) ->
      total_wait t <= 1500).
Proof.
  intros r t. subst r t. rewrite fetchWeather_unfold.
  destruct (encodeURIComponent (or_else (Some (timezone city)) (lit "auto")))
    as [tz|e0]; [|cbn; repeat split; intros; (discriminate || lia)].
  rewrite !loop_unfold.
  assert (H429 : (forall k, (k < 3)%nat -> attempt env k ≠ RateLimited) ->
                 attempt env 0 ≠ RateLimited /\ attempt env 1 ≠ RateLimited
                 /\ attempt env 2 ≠ RateLimited).
  { intros H. repeat split; apply H; lia. }
  destruct (attempt env 0) as [w0| |e0], (attempt env 1) as [w1| |e1],
           (attempt env 2) as [w2| |e2];
    cbn; (split; [lia|]); (split; [intros; (discriminate || lia)|]);
    intros (H0 & H1 & H2)%H429; (congruence || lia).
Qed.

End WaitBound.

Lemma fetchWeather_wait_bound_witness :
  total_wait (snd (fetchWeather decimal4 kyoto outage)) = 2500
  /\ total_wait (snd (fetchWeather decimal4 kyoto outage)) <= 9000.
Proof.
  split; [reflexivity|].
  apply (fetchWeather_wait_bound decimal4 kyoto outage).
Defined.

(* ===================================================================== *)
(** ** App: removing and reordering cities *)
(* ===================================================================== *)

Section ListHandlers.

Lemma relative_index_le (start : number) (len : nat) :
  (relative_index start len <= len)%nat.
Proof.
  destruct start as [|z]; simpl; [lia|].
  destruct (Z.ltb_spec z 0); lia.
Qed.

Lemma relative_index_nat (i len : nat) :
  (i <= len)%nat -> relative_index (Num (Z.of_nat i)) len = i.
Proof.
  intros Hi. simpl. destruct (Z.ltb_spec (Z.of_nat i) 0); lia.
Qed.

Lemma relative_index_beyond (z : Z) (len : nat) :
  Z.of_nat len <= z -> relative_index (Num z) len = len.
Proof.
  intros Hz. simpl. destruct (Z.ltb_spec z 0); lia.
Qed.

(** Removing one element where there is one. *)
Lemma splice_remove {A} (start : number) (l : list A) (x : A) :
  l !! relative_index start (length l) = Some x ->
  splice start 1 [] l = ([x], delete (relative_index start (length l)) l).
Proof.
  intros Hx. unfold splice. set (s := relative_index start (length l)) in *.
  pose proof (lookup_lt_Some _ _ _ Hx) as Hlt.
  replace (Nat.min 1 (length l - s)) with 1%nat by lia.
  rewrite (drop_S l x s Hx). simpl. rewrite take_0.
  by rewrite delete_take_drop, Nat.add_1_r.
Qed.

(** Removing one element past the end removes nothing. *)
Lemma splice_remove_nothing {A} (start : number) (l : list A) :
  l !! relative_index start (length l) = None ->
  splice start 1 [] l = ([], l).
Proof.
  intros Hx%lookup_ge_None. unfold splice.
  pose proof (relative_index_le start (length l)) as Hle.
  set (s := relative_index start (length l)) in *.
  replace (Nat.min 1 (length l - s)) with 0%nat by lia.
  rewrite take_0. simpl. rewrite Nat.add_0_r. by rewrite take_drop.
Qed.

Lemma splice_insert {A} (start : number) (l : list A) (x : A) :
  snd (splice start 0 [x] l)
  = take (relative_index start (length l)) l
    ++ x :: drop (relative_index start (length l)) l.
Proof. unfold splice. simpl. by rewrite Nat.add_0_r. Qed.

Lemma insert_at_Permutation {A} (t : nat) (l : list A) (x : A) :
  take t l ++ x :: drop t l ≡ₚ x :: l.
Proof. rewrite <- Permutation_middle. by rewrite take_drop. Qed.

(** What [handleReorderCities] does, by whether the first [splice] finds
    an element. *)
Lemma handleReorderCities_unfold (fromIndex toIndex : number) (st : State) :
  strict_eq fromIndex toIndex = false ->
  let f := relative_index fromIndex (length (cities st)) in
  handleReorderCities fromIndex toIndex st
  = match cities st !! f with
    | Some movedCity =>
        let rest := delete f (cities st) in
        let t := relative_index toIndex (length rest) in
        Reordered (setCities (take t rest ++ movedCity :: drop t rest) st)
    | None =>
        let holes := Some <$> cities st in
        let t := relative_index toIndex (length holes) in
        Undefined_entry (take t holes ++ None :: drop t holes)
    end.
Proof.
  intros Hne f. unfold handleReorderCities. rewrite Hne.
  destruct (cities st !! f) as [x|] eqn:Hx.
  - rewrite (splice_remove fromIndex (cities st) x Hx). by rewrite splice_insert.
  - rewrite (splice_remove_nothing fromIndex (cities st) Hx).
    by rewrite splice_insert.
Qed.

Lemma strict_eq_nat (i j : nat) :
  strict_eq (Num (Z.of_nat i)) (Num (Z.of_nat j)) = bool_decide (i = j).
Proof.
  simpl. destruct (Z.eqb_spec (Z.of_nat i) (Z.of_nat j)), (decide (i = j));
    [by rewrite bool_decide_eq_true_2 | lia | lia
    | by rewrite bool_decide_eq_false_2].
Qed.

Lemma setCities_id (st : State) : setCities (cities st) st = st.
Proof. by destruct st. Qed.

(** Whenever the list survives, it is a rearrangement of the old one and
    nothing else has changed. *)
Lemma handleReorderCities_Reordered (fromIndex toIndex : number) (st st' : State) :
  handleReorderCities fromIndex toIndex st = Reordered st' ->
  cities st' ≡ₚ cities st /\ st' = setCities (cities st') st.
Proof.
  destruct (strict_eq fromIndex toIndex) eqn:Heq.
  - unfold handleReorderCities. rewrite Heq. intros [= <-].
    by rewrite setCities_id.
  - rewrite (handleReorderCities_unfold _ _ _ Heq). cbv zeta.
    destruct (cities st !! _) as [x|] eqn:Hx; [|discriminate].
    intros [= <-]. simpl. split; [|done].
    rewrite insert_at_Permutation. symmetry. by apply delete_Permutation.
Qed.

(** X8. Dragging the city at position i onto position j (both in the list)
    rearranges the list: the result is a permutation of the old list of the
    same length, the moved city stands at position j, and the other cities
    keep their order; nothing else of the state changes. *)
Theorem handleReorderCities_moves (i j : nat) (st : State) :
  (i < length (cities st))%nat -> (j < length (cities st))%nat ->
  exists st',
    handleReorderCities (Num (Z.of_nat i)) (Num (Z.of_nat j)) st = Reordered st'
    /\ st' = setCities (cities st') st
    /\ cities st' ≡ₚ cities st
    /\ length (cities st') = length (cities st)
    /\ cities st' !! j = cities st !! i
    /\ delete j (cities st') = delete i (cities st).
Proof.
  intros Hi Hj.
  destruct (decide (i = j)) as [->|Hne].
  { exists st. unfold handleReorderCities.
    rewrite strict_eq_nat, bool_decide_eq_true_2 by done.
    by rewrite setCities_id. }
  assert (Heq : strict_eq (Num (Z.of_nat i)) (Num (Z.of_nat j)) = false).
  { by rewrite strict_eq_nat, bool_decide_eq_false_2. }
  rewrite (handleReorderCities_unfold _ _ _ Heq). cbv zeta.
  rewrite relative_index_nat by lia.
  destruct (lookup_lt_is_Some_2 (cities st) i Hi) as [x Hx]. rewrite Hx.
  set (rest := delete i (cities st)).
  assert (Hlen : length rest = (length (cities st) - 1)%nat).
  { subst rest. rewrite length_delete by eauto. lia. }
  rewrite relative_index_nat by lia.
  eexists. split; [reflexivity|]. simpl.
  assert (Htake : length (take j rest) = j) by (rewrite length_take; lia).
  split; [done|]. split; [|split; [|split]].
  - rewrite insert_at_Permutation. symmetry. by apply delete_Permutation.
  - rewrite length_app, Htake. simpl. rewrite length_drop. lia.
  - by apply list_lookup_middle.
  - rewrite <- Htake at 1. rewrite delete_middle. by rewrite take_drop.
Qed.

Lemma handleReorderCities_moves_witness :
  exists st',
    handleReorderCities (Num 5) (Num 1) initial_state = Reordered st'
    /\ cities st' !! 1%nat = CITIES !! 5%nat
    /\ delete 1%nat (cities st') = delete 5%nat CITIES.
Proof.
  destruct (handleReorderCities_moves 5 1 initial_state)
    as (st' & Hre & _ & _ & _ & Hat & Hrest).
  - simpl. lia.
  - simpl. lia.
  - exists st'. split; [exact Hre|]. split; [exact Hat|exact Hrest].
Defined.

(** X9. A source position at or past the end of the list (and different
    from the target) makes [handleReorderCities] put an [undefined] entry
    into the list: the new array is one longer, holds [undefined], and its
    defined entries are the old list in its old order. *)
Theorem handleReorderCities_out_of_range (z : Z) (toIndex : number) (st : State) :
  Z.of_nat (length (cities st)) <= z ->
  strict_eq (Num z) toIndex = false ->
  exists newCities,
    handleReorderCities (Num z) toIndex st = Undefined_entry newCities
    /\ length newCities = S (length (cities st))
    /\ None ∈ newCities
    /\ omap (λ entry, entry) newCities = cities st.
Proof.
  intros Hz Hne. rewrite (handleReorderCities_unfold _ _ _ Hne). cbv zeta.
  rewrite relative_index_beyond by done.
  rewrite (proj2 (lookup_ge_None (cities st) (length (cities st)))) by lia.
  set (holes := Some <$> cities st).
  pose proof (relative_index_le toIndex (length holes)) as Ht.
  set (t := relative_index toIndex (length holes)) in *.
  eexists. split; [reflexivity|]. split; [|split].
  - rewrite length_app, length_take. simpl. rewrite length_drop.
    subst holes. rewrite length_fmap in *. lia.
  - apply elem_of_app. right. apply elem_of_cons. by left.
  - rewrite omap_app. simpl. rewrite <- omap_app, take_drop.
    subst holes. clear. induction (cities st) as [|c l IH]; [done|].
    cbn. f_equal. exact IH.
Qed.

Lemma handleReorderCities_out_of_range_witness :
  exists newCities,
    handleReorderCities (Num 7) (Num 0) initial_state = Undefined_entry newCities
    /\ newCities !! 0%nat = Some None.
Proof.
  destruct (handleReorderCities_out_of_range 7 (Num 0) initial_state)
    as (newCities & Hre & _).
  - simpl. lia.
  - reflexivity.
  - exists newCities. split; [exact Hre|].
    vm_compute in Hre. injection Hre as <-. reflexivity.
Defined.

End ListHandlers.

(* ===================================================================== *)
(** ** App: what every handler keeps *)
(* ===================================================================== *)

Section AppInvariants.

Lemma acts_invariant (P : State -> Prop) :
  (forall a st st', P st -> act a st = Some st' -> P st') ->
  forall l st st', P st -> acts l st = Some st' -> P st'.
Proof.
  intros Hstep l. induction l as [|a l IH]; intros st st' HP; simpl.
  - by intros [= <-].
  - destruct (act a st) as [st1|] eqn:Ha; [|discriminate].
    apply IH. by eapply Hstep.
Qed.

Lemma handleCityChange_fields (city : City) (st : State) :
  cities (handleCityChange city st) = cities st
  /\ weatherCache (handleCityChange city st) = weatherCache st
  /\ cacheRef (handleCityChange city st) = cacheRef st
  /\ isGridView (handleCityChange city st) = false.
Proof.
  unfold handleCityChange.
  destruct (selectedCity st) as [sel|]; simpl;
    repeat match goal with |- context [if ?b then _ else _] => destruct b eqn:? end;
    simpl; auto.
Qed.

Lemma handleAddCity_cases (newCity : City) (st : State) :
  (exists found,
     found ∈ cities st /\ same_city newCity found = true
     /\ handleAddCity newCity st = handleCityChange found st)
  \/ (find (same_city newCity) (cities st) = None
      /\ handleAddCity newCity st
         = handleCityChange newCity (setCities (cities st ++ [newCity]) st)).
Proof.
  unfold handleAddCity.
  destruct (find (same_city newCity) (cities st)) as [found|] eqn:Hf; [left|by right].
  apply find_some in Hf as [Hin%list_elem_of_In Hs]. eauto.
Qed.

Lemma cities_handleRemoveCity (cityId : jsstring) (st : State) :
  cities (handleRemoveCity cityId st)
  = filter (λ c, id c ≠ cityId) (cities st).
Proof.
  unfold handleRemoveCity. destruct (selectedCity st) as [sel|]; [|done].
  destruct (bool_decide (id sel = cityId)); [|done].
  by destruct (filter _ (cities st)).
Qed.

Lemma caches_handleRemoveCity (cityId : jsstring) (st : State) :
  weatherCache (handleRemoveCity cityId st) = weatherCache st
  /\ cacheRef (handleRemoveCity cityId st) = cacheRef st.
Proof.
  unfold handleRemoveCity. destruct (selectedCity st) as [sel|]; [|done].
  destruct (bool_decide (id sel = cityId)); [|done].
  by destruct (filter _ (cities st)).
Qed.

Lemma loadScene_begin_fields (captured : gmap jsstring WeatherData)
    (city : City) (st : State) :
  cities (loadScene_begin captured city st) = cities st
  /\ selectedCity (loadScene_begin captured city st) = selectedCity st
  /\ weatherCache (loadScene_begin captured city st) = weatherCache st
  /\ cacheRef (loadScene_begin captured city st) = cacheRef st.
Proof. unfold loadScene_begin. by destruct (captured !! id city). Qed.

Lemma loadScene_resume_fields (captured : gmap jsstring WeatherData)
    (city : City) (r : completion WeatherData) (st : State) :
  cities (loadScene_resume captured city r st) = cities st
  /\ selectedCity (loadScene_resume captured city r st) = selectedCity st.
Proof.
  unfold loadScene_resume. destruct r; [done|].
  by destruct (captured !! id city).
Qed.

Lemma prefetch_resume_fields (city : City) (r : completion WeatherData)
    (st : State) :
  cities (prefetch_resume city r st) = cities st
  /\ selectedCity (prefetch_resume city r st) = selectedCity st.
Proof. by destruct r. Qed.

(** What an event does to the list: nothing, an append of a city that
    matches none, a removal by id, or a rearrangement. *)
Lemma act_cities (a : Action) (st st' : State) :
  act a st = Some st' ->
  cities st' ≡ₚ cities st
  \/ (exists newCity,
        find (same_city newCity) (cities st) = None
        /\ cities st' = cities st ++ [newCity])
  \/ (exists cityId, cities st' = filter (λ c, id c ≠ cityId) (cities st)).
Proof.
  destruct a as [index|newCity|cityId|fromIndex toIndex| |captured city
                |captured city r|city r]; simpl.
  - destruct (cities st !! index) as [city|]; [|discriminate].
    intros [= <-]. left. by rewrite (proj1 (handleCityChange_fields _ _)).
  - intros [= <-].
    destruct (handleAddCity_cases newCity st) as [(found & _ & _ & ->) | [Hf ->]].
    + left. by rewrite (proj1 (handleCityChange_fields _ _)).
    + right. left. exists newCity. split; [done|].
      by rewrite (proj1 (handleCityChange_fields _ _)).
  - intros [= <-]. right. right. exists cityId. apply cities_handleRemoveCity.
  - destruct (handleReorderCities fromIndex toIndex st) as [st1|l] eqn:Hre;
      [|discriminate].
    intros [= <-]. left. by apply handleReorderCities_Reordered in Hre as [Hperm _].
  - destruct (selectedCity st), (isGridView st); try discriminate;
      intros [= <-]; by left.
  - intros [= <-]. left. by rewrite (proj1 (loadScene_begin_fields _ _ _)).
  - intros [= <-]. left. by rewrite (proj1 (loadScene_resume_fields _ _ _ _)).
  - intros [= <-]. left. by rewrite (proj1 (prefetch_resume_fields _ _ _)).
Qed.

(** X10. No list of events gives the city list a duplicate: if the ids are
    pairwise different, and the (name, country) pairs are, they stay so
    through every selection, addition, removal, reordering and fetch. *)
Theorem cities_stay_distinct (l : list Action) (st st' : State) :
  NoDup (id <$> cities st) ->
  NoDup ((λ c, (name c, country c)) <$> cities st) ->
  acts l st = Some st' ->
  NoDup (id <$> cities st')
  /\ NoDup ((λ c, (name c, country c)) <$> cities st').
Proof.
  intros Hid Hname.
  apply (acts_invariant
           (λ st, NoDup (id <$> cities st)
                  /\ NoDup ((λ c, (name c, country c)) <$> cities st)));
    [|done].
  clear. intros a st st' [Hid Hname] Ha.
  destruct (act_cities a st st' Ha)
    as [Hperm | [(newCity & Hf & ->) | (cityId & ->)]].
  - by rewrite Hperm.
  - pose proof (proj1 (find_same_city_None _ _) Hf) as Hall.
    rewrite !fmap_app. split; apply NoDup_app; (split; [done|]);
      (split; [|apply NoDup_singleton]);
      intros x (c & Hx & Hc)%list_elem_of_fmap Hn%list_elem_of_singleton;
      destruct (Hall c Hc) as [Hi Hnc].
    + congruence.
    + apply Hnc. split; congruence.
  - split; (eapply sublist_NoDup; [done|apply fmap_sublist, sublist_filter]).
Qed.

Lemma cities_stay_distinct_witness :
  exists st',
    acts [AddCity kyoto; RemoveCity (lit "seoul");
          ReorderCities (Num 0) (Num 3); SelectCity 2] initial_state
    = Some st'
    /\ NoDup (id <$> cities st').
Proof.
  destruct (acts [AddCity kyoto; RemoveCity (lit "seoul");
                  ReorderCities (Num 0) (Num 3); SelectCity 2] initial_state)
    as [st'|] eqn:Hacts; [|vm_compute in Hacts; discriminate].
  exists st'. split; [reflexivity|].
  apply (cities_stay_distinct
           [AddCity kyoto; RemoveCity (lit "seoul");
            ReorderCities (Num 0) (Num 3); SelectCity 2] initial_state st');
    [| |exact Hacts]; refine (bool_decide_unpack _ _); vm_compute; exact I.
Defined.

Lemma selection_listed_change (city : City) (st : State) :
  city ∈ cities st -> selection_listed (handleCityChange city st).
Proof.
  intros Hin sel Hsel. exists city.
  rewrite (proj1 (handleCityChange_fields city st)). split; [done|].
  pose proof (selected_handleCityChange city st) as H.
  rewrite Hsel in H. simpl in H. congruence.
Qed.

Lemma selection_listed_act (a : Action) (st st' : State) :
  selection_listed st -> act a st = Some st' -> selection_listed st'.
Proof.
  intros Hst.
  destruct a as [index|newCity|cityId|fromIndex toIndex| |captured city
                |captured city r|city r]; simpl.
  - destruct (cities st !! index) as [city|] eqn:Hc; [|discriminate].
    intros [= <-]. apply selection_listed_change.
    by eapply list_elem_of_lookup_2.
  - intros [= <-].
    destruct (handleAddCity_cases newCity st) as [(found & Hin & _ & ->) | [_ ->]].
    + by apply selection_listed_change.
    + apply selection_listed_change. simpl. apply elem_of_app. right.
      by apply list_elem_of_singleton.
  - intros [= <-]. unfold handleRemoveCity. intros sel.
    destruct (selectedCity st) as [sel0|] eqn:Hsel0;
      [|intros H; simpl in H; congruence].
    destruct (decide (id sel0 = cityId)) as [Heq|Hne].
    + rewrite (bool_decide_eq_true_2 _ Heq).
      destruct (filter (λ c, id c ≠ cityId) (cities st)) as [|first rest] eqn:Hf;
        simpl; [done|].
      intros [= <-]. exists first. split; [|done]. apply elem_of_cons. by left.
    + rewrite (bool_decide_eq_false_2 _ Hne). simpl. rewrite Hsel0.
      intros [= <-]. destruct (Hst sel0 Hsel0) as (c & Hc & Hid).
      exists c. split; [|done]. apply list_elem_of_filter. split; [congruence|done].
  - destruct (handleReorderCities fromIndex toIndex st) as [st1|l] eqn:Hre;
      [|discriminate].
    intros [= <-]. apply handleReorderCities_Reordered in Hre as [Hperm Hst1].
    intros sel Hsel. rewrite Hst1 in Hsel. simpl in Hsel.
    destruct (Hst sel Hsel) as (c & Hc & Hid). exists c. split; [|done].
    by rewrite Hperm.
  - destruct (selectedCity st) eqn:Hs, (isGridView st); try discriminate;
      intros [= <-] sel Hsel; simpl in Hsel; apply Hst; congruence.
  - intros [= <-] sel.
    destruct (loadScene_begin_fields captured city st) as (-> & -> & _).
    apply Hst.
  - intros [= <-] sel.
    destruct (loadScene_resume_fields captured city r st) as (-> & ->).
    apply Hst.
  - intros [= <-] sel.
    destruct (prefetch_resume_fields city r st) as (-> & ->).
    apply Hst.
Qed.

(** X11. The selected city is always one of the listed cities: starting
    from a list with its first city selected (or from any state where the
    selection is listed), no sequence of selections, additions, removals,
    reorderings and fetches leaves a selected city that the list does not
    hold. *)
Theorem selection_stays_listed (l : list Action) (st st' : State) :
  selectedCity st = head (cities st) \/ selection_listed st ->
  acts l st = Some st' ->
  selection_listed st'.
Proof.
  intros Hstart. apply (acts_invariant selection_listed selection_listed_act).
  destruct Hstart as [Hhead | Hst]; [|done].
  intros sel Hsel. exists sel. split; [|done].
  rewrite Hhead in Hsel. by apply head_Some_elem_of.
Qed.

Lemma selection_stays_listed_witness :
  exists st',
    acts [SelectCity 5; RemoveCity (lit "seoul"); AddCity kyoto] initial_state
    = Some st'
    /\ selection_listed st'.
Proof.
  destruct (acts [SelectCity 5; RemoveCity (lit "seoul"); AddCity kyoto]
                 initial_state) as [st'|] eqn:Hacts;
    [|vm_compute in Hacts; discriminate].
  exists st'. split; [reflexivity|].
  apply (selection_stays_listed
           [SelectCity 5; RemoveCity (lit "seoul"); AddCity kyoto]
           initial_state st'); [|exact Hacts].
  left. reflexivity.
Defined.

Lemma caches_act (a : Action) (st st' : State) :
  act a st = Some st' ->
  (weatherCache st' = weatherCache st /\ cacheRef st' = cacheRef st)
  \/ (exists i w, weatherCache st' = <[i := w]> (weatherCache st)
                  /\ cacheRef st' = <[i := w]> (cacheRef st)).
Proof.
  destruct a as [index|newCity|cityId|fromIndex toIndex| |captured city
                |captured city r|city r]; simpl.
  - destruct (cities st !! index) as [city|]; [|discriminate].
    intros [= <-]. left.
    by destruct (handleCityChange_fields city st) as (_ & -> & -> & _).
  - intros [= <-]. left.
    destruct (handleAddCity_cases newCity st) as [(found & _ & _ & ->) | [_ ->]].
    + by destruct (handleCityChange_fields found st) as (_ & -> & -> & _).
    + by destruct (handleCityChange_fields newCity
                     (setCities (cities st ++ [newCity]) st))
        as (_ & -> & -> & _).
  - intros [= <-]. left. apply caches_handleRemoveCity.
  - destruct (handleReorderCities fromIndex toIndex st) as [st1|l] eqn:Hre;
      [|discriminate].
    intros [= <-]. apply handleReorderCities_Reordered in Hre as [_ ->]. by left.
  - destruct (selectedCity st), (isGridView st); try discriminate;
      intros [= <-]; by left.
  - intros [= <-]. left.
    by destruct (loadScene_begin_fields captured city st) as (_ & _ & -> & ->).
  - intros [= <-]. unfold loadScene_resume. destruct r as [w|e].
    + right. exists (id city), w. done.
    + left. by destruct (captured !! id city).
  - intros [= <-]. destruct r as [w|e]; [right|by left].
    exists (id city), w. done.
Qed.

(** X12. The [cacheRef] ref and the [weatherCache] state never part: no
    sequence of events makes them differ, so the guard of the prefetch
    (which reads the ref) is open for a city exactly when the state holds
    no snapshot for it. *)
Theorem cacheRef_mirrors_weatherCache (l : list Action) (st st' : State) :
  weatherCache st = cacheRef st ->
  acts l st = Some st' ->
  weatherCache st' = cacheRef st'
  /\ forall city,
       prefetch_wanted city st' = true <-> weatherCache st' !! id city = None.
Proof.
  intros Hstart Hacts.
  assert (Heq : weatherCache st' = cacheRef st').
  { revert Hstart Hacts.
    apply (acts_invariant (λ st, weatherCache st = cacheRef st)).
    intros a s s' Hs Ha.
    destruct (caches_act a s s' Ha) as [[-> ->] | (i & w & -> & ->)];
      congruence. }
  split; [done|]. intros city. unfold prefetch_wanted.
  rewrite Heq. apply bool_decide_eq_true.
Qed.

Lemma cacheRef_mirrors_weatherCache_witness :
  exists st',
    acts [SceneBegins ∅ kyoto; PrefetchResumes kyoto (Returns snowy_night);
          SceneResumes ∅ kyoto (Throws URIError)] initial_state = Some st'
    /\ weatherCache st' = cacheRef st'.
Proof.
  destruct (acts [SceneBegins ∅ kyoto;
                  PrefetchResumes kyoto (Returns snowy_night);
                  SceneResumes ∅ kyoto (Throws URIError)] initial_state)
    as [st'|] eqn:Hacts; [|vm_compute in Hacts; discriminate].
  exists st'. split; [reflexivity|].
  apply (cacheRef_mirrors_weatherCache
           [SceneBegins ∅ kyoto; PrefetchResumes kyoto (Returns snowy_night);
            SceneResumes ∅ kyoto (Throws URIError)] initial_state st');
    [reflexivity|exact Hacts].
Defined.

End AppInvariants.

(* ===================================================================== *)
(** ** App: removal, selection, prefetch *)
(* ===================================================================== *)

Section AppHandlers.

(** X13. [handleRemoveCity] removes exactly the cities with the given id
    and keeps the others in their order.  If the selected city was removed,
    the first remaining city is selected, and with no city left both the
    selection and the displayed weather are cleared; otherwise selection
    and weather stay.  The cached snapshots are kept in every case. *)
Theorem handleRemoveCity_spec (cityId : jsstring) (st : State) :
  let st' := handleRemoveCity cityId st in
  (forall c, c ∈ cities st' <-> c ∈ cities st /\ id c ≠ cityId)
  /\ cities st' `sublist_of` cities st
  /\ weatherCache st' = weatherCache st
  /\ (forall sel, selectedCity st = Some sel -> id sel = cityId ->
        selectedCity st' = head (cities st')
        /\ (cities st' = [] -> weather st' = None)
        /\ (cities st' ≠ [] -> weather st' = weather st))
  /\ ((forall sel, selectedCity st = Some sel -> id sel ≠ cityId) ->
      selectedCity st' = selectedCity st /\ weather st' = weather st).
Proof.
  intros st'. subst st'.
  split; [|split; [|split; [|split]]].
  - intros c. rewrite cities_handleRemoveCity, list_elem_of_filter. tauto.
  - rewrite cities_handleRemoveCity. apply sublist_filter.
  - apply caches_handleRemoveCity.
  - intros sel Hsel Hid. unfold handleRemoveCity. rewrite Hsel.
    rewrite (bool_decide_eq_true_2 _ Hid).
    by destruct (filter (λ c, id c ≠ cityId) (cities st)).
  - intros Hother. unfold handleRemoveCity.
    destruct (selectedCity st) as [sel|] eqn:Hsel; [|done].
    rewrite (bool_decide_eq_false_2 _ (Hother sel eq_refl)). done.
Qed.

Lemma handleRemoveCity_spec_witness :
  selectedCity (handleRemoveCity (lit "reykjavik") initial_state)
  = head (cities (handleRemoveCity (lit "reykjavik") initial_state))
  /\ selectedCity (handleRemoveCity (lit "reykjavik") initial_state)
     = Some kyoto.
Proof.
  destruct (handleRemoveCity_spec (lit "reykjavik") initial_state)
    as (_ & _ & _ & Hsel & _).
  destruct (Hsel (mkCity (lit "reykjavik") (lit "Reykjav" ++ [237] ++ lit "k")
                         (lit "Iceland") (641466 # 10000) (-(219426 # 10000))
                         (lit "Atlantic/Reykjavik")))
    as (Hhead & _).
  - reflexivity.
  - reflexivity.
  - split; [exact Hhead|reflexivity].
Defined.

(** Selecting the city that is selected, outside the grid view, does
    nothing. *)
Lemma handleCityChange_noop (city : City) (st : State) :
  id <$> selectedCity st = Some (id city) -> isGridView st = false ->
  handleCityChange city st = st.
Proof.
  intros Hsel Hgrid. unfold handleCityChange.
  destruct (selectedCity st) as [sel|]; [|discriminate].
  injection Hsel as Hsel.
  rewrite bool_decide_eq_true_2 by done. simpl. by rewrite Hgrid.
Qed.

(** X14. Selecting a city twice is the same as selecting it once.  After a
    selection the grid view is off and the selected city has the id of the
    chosen one; when the choice is a different city than before, the chosen
    city itself is selected and the weather on display is exactly what the
    cache holds for it (nothing, when it holds nothing). *)
Theorem handleCityChange_idempotent (city : City) (st : State) :
  let st' := handleCityChange city st in
  handleCityChange city st' = st'
  /\ isGridView st' = false
  /\ id <$> selectedCity st' = Some (id city)
  /\ ((forall sel, selectedCity st = Some sel -> id sel ≠ id city) ->
      selectedCity st' = Some city
      /\ weather st' = weatherCache st !! id city).
Proof.
  intros st'. subst st'.
  split; [|split; [|split]].
  - apply handleCityChange_noop.
    + apply selected_handleCityChange.
    + apply handleCityChange_fields.
  - apply handleCityChange_fields.
  - apply selected_handleCityChange.
  - intros Hnew. unfold handleCityChange.
    destruct (selectedCity st) as [sel|] eqn:Hsel; simpl.
    + rewrite bool_decide_eq_false_2; [|intros H; by apply (Hnew sel)].
      simpl. by destruct (isGridView st).
    + by destruct (isGridView st).
Qed.

Lemma handleCityChange_idempotent_witness :
  selectedCity (handleCityChange kyoto kyoto_cached) = Some kyoto
  /\ weather (handleCityChange kyoto kyoto_cached) = Some snowy_night.
Proof.
  destruct (handleCityChange_idempotent kyoto kyoto_cached) as (_ & _ & _ & H).
  destruct H as [Hsel Hweather].
  - intros sel [= <-]. discriminate.
  - split; [exact Hsel|]. rewrite Hweather. reflexivity.
Defined.

(** X15. Adding a city that matches none of the list and then removing it
    by its id gives back the list as it was; the first city of the list is
    then selected (none, if the list is empty), and the caches are as
    before. *)
Theorem add_then_remove (newCity : City) (st : State) :
  (forall c, c ∈ cities st ->
     id c ≠ id newCity
     /\ ~ (name c = name newCity /\ country c = country newCity)) ->
  let st' := handleRemoveCity (id newCity) (handleAddCity newCity st) in
  cities st' = cities st
  /\ selectedCity st' = head (cities st)
  /\ weatherCache st' = weatherCache st
  /\ cacheRef st' = cacheRef st.
Proof.
  intros Hfresh st'. subst st'.
  pose proof (proj2 (find_same_city_None newCity (cities st)) Hfresh) as Hf.
  assert (Hadd : handleAddCity newCity st
                 = handleCityChange newCity
                     (setCities (cities st ++ [newCity]) st)).
  { unfold handleAddCity. by rewrite Hf. }
  assert (Hfilter : filter (λ c, id c ≠ id newCity) (cities st ++ [newCity])
                    = cities st).
  { rewrite filter_app, filter_cons_False, filter_nil, app_nil_r by tauto.
    clear Hf Hadd. induction (cities st) as [|c l IH]; [done|].
    rewrite filter_cons_True.
    - f_equal. apply IH. intros c' Hc'. apply Hfresh. by right.
    - apply Hfresh. by left. }
  rewrite Hadd.
  set (st1 := handleCityChange newCity (setCities (cities st ++ [newCity]) st)).
  destruct (handleCityChange_fields newCity
              (setCities (cities st ++ [newCity]) st))
    as (Hc1 & Hw1 & Hr1 & _).
  pose proof (selected_handleCityChange newCity
                (setCities (cities st ++ [newCity]) st)) as Hs1.
  fold st1 in Hc1, Hw1, Hr1, Hs1. simpl in Hc1, Hw1, Hr1.
  assert (Hcities : cities (handleRemoveCity (id newCity) st1) = cities st).
  { by rewrite cities_handleRemoveCity, Hc1. }
  split; [exact Hcities|]. split.
  - unfold handleRemoveCity. rewrite Hc1, Hfilter.
    destruct (selectedCity st1) as [sel|]; [|discriminate].
    injection Hs1 as Hs1. rewrite (bool_decide_eq_true_2 _ Hs1).
    by destruct (cities st).
  - destruct (caches_handleRemoveCity (id newCity) st1) as [-> ->]. done.
Qed.

Lemma add_then_remove_witness :
  cities (handleRemoveCity (lit "2988507")
            (handleAddCity (to_city paris) initial_state))
  = CITIES.
Proof.
  apply (add_then_remove (to_city paris) initial_state).
  intros c Hc. apply list_elem_of_In in Hc. simpl in Hc.
  repeat (destruct Hc as [<- | Hc]; [split; [discriminate|intros [H _]; discriminate]|]).
  destruct Hc.
Defined.

End AppHandlers.

(* ===================================================================== *)
(** ** App: the prefetch of the whole list *)
(* ===================================================================== *)

Section Prefetch.

Implicit Types (done : list (City * completion WeatherData)) (st : State).

Lemma prefetch_settle_cons cr done st :
  prefetch_settle (cr :: done) st
  = prefetch_settle done (prefetch_resume (fst cr) (snd cr) st).
Proof. reflexivity. Qed.

Lemma cacheRef_prefetch_resume (city : City) (r : completion WeatherData) st :
  cacheRef (prefetch_resume city r st)
  = match r with
    | Returns w => <[id city := w]> (cacheRef st)
    | Throws _ => cacheRef st
    end.
Proof. by destruct r. Qed.

(** Only the fetches that succeeded write, each under its city's id. *)
Lemma cacheRef_settle_other done st (i : jsstring) :
  (forall city w, (city, Returns w) ∈ done -> id city ≠ i) ->
  cacheRef (prefetch_settle done st) !! i = cacheRef st !! i.
Proof.
  revert st. induction done as [|[city r] done IH]; intros st Hother; [done|].
  rewrite prefetch_settle_cons, IH.
  - simpl. rewrite cacheRef_prefetch_resume. destruct r as [w|e]; [|done].
    apply lookup_insert_ne. apply (Hother city w). by left.
  - intros city' w' Hin. apply (Hother city' w'). by right.
Qed.

Lemma cacheRef_settle_kept done st (i : jsstring) :
  is_Some (cacheRef st !! i) ->
  is_Some (cacheRef (prefetch_settle done st) !! i).
Proof.
  revert st. induction done as [|[city r] done IH]; intros st Hi; [done|].
  rewrite prefetch_settle_cons. apply IH. simpl.
  rewrite cacheRef_prefetch_resume. destruct r as [w|e]; [|done].
  apply lookup_insert_is_Some. destruct (decide (id city = i)); auto.
Qed.

Lemma prefetch_settle_fields done st :
  cities (prefetch_settle done st) = cities st
  /\ selectedCity (prefetch_settle done st) = selectedCity st
  /\ weather (prefetch_settle done st) = weather st
  /\ viewState (prefetch_settle done st) = viewState st.
Proof.
  revert st. induction done as [|[city r] done IH]; intros st; [done|].
  rewrite prefetch_settle_cons. cbn [fst snd].
  destruct (IH (prefetch_resume city r st)) as (-> & -> & -> & ->).
  by destruct r.
Qed.

(** X16. The prefetch of the list, whatever the order in which its fetches
    come back and however many of them fail: no snapshot that was cached
    before is replaced, every city whose fetch succeeded is cached
    afterwards, an id none of the successful fetches was for stays
    uncached, and the list, the selection, the displayed weather and the
    view state are not touched. *)
Theorem prefetch_settle_spec done st :
  (forall cr, cr ∈ done -> fst cr ∈ prefetch_batch st) ->
  let st' := prefetch_settle done st in
  (forall i w, cacheRef st !! i = Some w -> cacheRef st' !! i = Some w)
  /\ (forall city w, (city, Returns w) ∈ done ->
        is_Some (cacheRef st' !! id city))
  /\ (forall i, cacheRef st !! i = None ->
        (forall city w, (city, Returns w) ∈ done -> id city ≠ i) ->
        cacheRef st' !! i = None)
  /\ cities st' = cities st
  /\ selectedCity st' = selectedCity st
  /\ weather st' = weather st
  /\ viewState st' = viewState st.
Proof.
  intros Hbatch st'. subst st'.
  split; [|split; [|split; [|apply prefetch_settle_fields]]].
  - intros i w Hi. rewrite cacheRef_settle_other; [done|].
    intros city w' Hin Heq.
    apply Hbatch, list_elem_of_filter in Hin as [Hwanted _]. simpl in Hwanted.
    apply bool_decide_eq_true in Hwanted. congruence.
  - intros city w. clear Hbatch. revert st.
    induction done as [|[city' r'] done IH]; intros st Hin.
    + by apply elem_of_nil in Hin.
    + rewrite prefetch_settle_cons.
      apply elem_of_cons in Hin as [[= <- <-] | Hin]; [|by apply IH].
      apply cacheRef_settle_kept. simpl. rewrite lookup_insert_eq. eauto.
  - intros i Hi Hother. by rewrite cacheRef_settle_other.
Qed.

Lemma prefetch_settle_spec_witness :
  is_Some (cacheRef (prefetch_settle
                       [(kyoto, Returns snowy_night);
                        (to_city paris, Throws URIError)]
                       (setCities [kyoto; to_city paris] initial_state))
           !! lit "kyoto")
  /\ cacheRef (prefetch_settle
                 [(kyoto, Returns snowy_night);
                  (to_city paris, Throws URIError)]
                 (setCities [kyoto; to_city paris] initial_state))
     !! lit "2988507" = None.
Proof.
  destruct (prefetch_settle_spec
              [(kyoto, Returns snowy_night); (to_city paris, Throws URIError)]
              (setCities [kyoto; to_city paris] initial_state))
    as (_ & Hok & Hfail & _).
  - intros cr Hcr. apply list_elem_of_In in Hcr. simpl in Hcr.
    destruct Hcr as [<- | [<- | []]];
      (apply list_elem_of_filter; split;
       [vm_compute; reflexivity | apply list_elem_of_In; simpl; auto]).
  - split.
    + apply (Hok kyoto snowy_night). by left.
    + apply Hfail; [reflexivity|].
      intros city w Hin. apply list_elem_of_In in Hin. simpl in Hin.
      destruct Hin as [[= <- <-] | [H | []]]; discriminate.
Defined.

End Prefetch.

(* ===================================================================== *)
(** ** CitySelect: the keyboard and the choice of a search result *)
(* ===================================================================== *)

Section Search_box.

Import CitySelect.

(** X17. The key handler of the search box never reads outside the
    results and never throws.  The highlighted index stays at or above -1;
    Arrow Down always leaves it at most at the last result, and Arrow Up
    keeps it there; only Enter on a highlighted result acts on the city
    list, with exactly that result. *)
Theorem handleSearchKeyDown_bounds (key : Key) (cs : Select) (app : App.State) :
  exists cs' app',
    handleSearchKeyDown key cs app = Returns (cs', app')
    /\ (-1 <= selectedIndex cs -> -1 <= selectedIndex cs')
    /\ (key = ArrowDown ->
        selectedIndex cs' <= Z.of_nat (length (results cs')) - 1)
    /\ (key = ArrowUp ->
        selectedIndex cs <= Z.of_nat (length (results cs)) - 1 ->
        selectedIndex cs' <= Z.of_nat (length (results cs')) - 1)
    /\ ((cs', app') = (cs, app)
        \/ (key = Escape /\ (cs', app') = (closeSearch cs, app))
        \/ (exists prev', (key = ArrowDown \/ key = ArrowUp)
              /\ (cs', app') = (setSelectedIndex (λ _, prev') cs, app))
        \/ (exists city,
              key = Enter
              /\ 0 <= selectedIndex cs < Z.of_nat (length (results cs))
              /\ results cs !! Z.to_nat (selectedIndex cs) = Some city
              /\ (cs', app') = handleSelectNew city cs app)).
Proof.
  destruct key; simpl.
  - eexists _, _. split; [reflexivity|]. simpl.
    split; [done|]. split; [done|]. split; [done|]. right. left. done.
  - eexists _, _. split; [reflexivity|]. simpl.
    split; [lia|]. split; [lia|]. split; [done|].
    right. right. left. eexists. split; [by left|reflexivity].
  - eexists _, _. split; [reflexivity|]. simpl.
    split; [lia|]. split; [done|]. split; [lia|].
    right. right. left. eexists. split; [by right|reflexivity].
  - destruct (Z.ltb_spec 0 (Z.of_nat (length (results cs)))) as [Hlen|Hlen],
             (Z.leb_spec 0 (selectedIndex cs)) as [Hlo|Hlo],
             (Z.ltb_spec (selectedIndex cs) (Z.of_nat (length (results cs))))
               as [Hhi|Hhi]; simpl;
      try (eexists _, _; split; [reflexivity|];
           split; [done|]; split; [done|]; split; [done|]; by left).
    destruct (lookup_lt_is_Some_2 (results cs) (Z.to_nat (selectedIndex cs)))
      as [city Hcity]; [lia|].
    rewrite Hcity. eexists _, _. split; [reflexivity|]. simpl.
    split; [done|]. split; [done|]. split; [done|].
    right. right. right. exists city. done.
  - eexists _, _. split; [reflexivity|].
    split; [done|]. split; [done|]. split; [done|]. by left.
Qed.

(** X18. Choosing a search result closes the search and clears its query
    and results.  The city list is left as it is or gets the chosen city
    appended; afterwards the selected city is a listed city that matches
    the chosen one by id, or by name and country; when a listed city has
    the chosen id, it is the id of the selected city; and a list without
    duplicate ids stays without. *)
Theorem handleSelectNew_spec (city : City) (cs : Select) (app : App.State) :
  let cs' := fst (handleSelectNew city cs app) in
  let app' := snd (handleSelectNew city cs app) in
  (isSearchOpen cs' = false /\ query cs' = [] /\ results cs' = [])
  /\ (cities app' = cities app \/ cities app' = cities app ++ [city])
  /\ (exists target,
        target ∈ cities app'
        /\ (id target = id city
            \/ (name target = name city /\ country target = country city))
        /\ id <$> selectedCity app' = Some (id target))
  /\ ((exists c, c ∈ cities app /\ id c = id city) ->
      cities app' = cities app
      /\ id <$> selectedCity app' = Some (id city))
  /\ (NoDup (id <$> cities app) -> NoDup (id <$> cities app')).
Proof.
  intros cs' app'. subst cs' app'. unfold handleSelectNew. cbn [fst snd].
  split; [done|].
  destruct (find (λ c, bool_decide (id c = id city)) (cities app))
    as [saved|] eqn:Hfind.
  - apply find_some in Hfind as [Hin%list_elem_of_In Hid%bool_decide_eq_true].
    rewrite (proj1 (handleCityChange_fields saved app)).
    rewrite selected_handleCityChange.
    split; [by left|]. split; [exists saved; auto|].
    split; [intros _; split; [done|congruence]|done].
  - assert (Hnone : forall c, c ∈ cities app -> id c ≠ id city).
    { intros c Hc%list_elem_of_In Hid.
      pose proof (find_none _ _ Hfind c Hc) as Hn. simpl in Hn.
      by rewrite bool_decide_eq_true_2 in Hn. }
    destruct (handleAddCity_cases city app)
      as [(found & Hin & Hsame%same_city_true & ->) | [Hf ->]].
    + rewrite (proj1 (handleCityChange_fields found app)).
      rewrite selected_handleCityChange.
      split; [by left|]. split; [exists found; auto|].
      split; [|done]. intros (c & Hc & Hid). by destruct (Hnone c Hc).
    + rewrite (proj1 (handleCityChange_fields city _)).
      rewrite selected_handleCityChange. simpl.
      split; [by right|]. split.
      { exists city. split; [|auto]. apply elem_of_app. right.
        by apply list_elem_of_singleton. }
      split; [intros (c & Hc & Hid); by destruct (Hnone c Hc)|].
      intros Hnd. rewrite fmap_app. apply NoDup_app. split; [done|].
      split; [|apply NoDup_singleton].
      intros x (c & Hx & Hc)%list_elem_of_fmap Hn%list_elem_of_singleton.
      destruct (Hnone c Hc). congruence.
Qed.

Lemma handleSelectNew_spec_witness :
  let picked := mkCity (lit "1857910") (lit "Kyoto") (lit "Japan")
                       (350211 # 10000) (1357538 # 10000) (lit "Asia/Tokyo") in
  let cs := mkSelect false true (lit "Kyo") [picked] false 0 in
  cities (snd (handleSelectNew picked cs initial_state)) = CITIES
  /\ id <$> selectedCity (snd (handleSelectNew picked cs initial_state))
     = Some (lit "kyoto").
Proof.
  intros picked cs. split; [|reflexivity].
  destruct (handleSelectNew_spec picked cs initial_state)
    as (_ & [Hsame | Happ] & _).
  - exact Hsame.
  - vm_compute in Happ. discriminate.
Defined.

End Search_box.

(* ===================================================================== *)
(** ** CityGridItem: the index carried by a drag *)
(* ===================================================================== *)

Section DragAndDrop.

Lemma lit_String (a : ascii) (s : string) :
  lit (String a s) = Z.of_N (N_of_ascii a) :: lit s.
Proof. reflexivity. Qed.

Lemma pretty_N_char_code (d : N) :
  (d < 10)%N -> Z.of_N (N_of_ascii (pretty_N_char d)) = 48 + Z.of_N d.
Proof.
  intros Hd.
  assert (d = 0 \/ d = 1 \/ d = 2 \/ d = 3 \/ d = 4 \/ d = 5 \/ d = 6 \/ d = 7
          \/ d = 8 \/ d = 9)%N as Hcases by lia.
  repeat destruct Hcases as [-> | Hcases]; try reflexivity.
  by subst.
Qed.

(** The digits of a number, most significant first, followed by what was
    accumulated. *)
Lemma lit_pretty_N_go (x : N) (s : string) :
  lit (pretty_N_go x s) = lit (pretty_N_go x "") ++ lit s.
Proof.
  revert s. induction (N.lt_wf_0 x) as [x _ IH]. intros s.
  destruct (decide (x = 0)%N) as [->|Hx]; [by rewrite !pretty_N_go_0|].
  assert (Hlt : (x `div` 10 < x)%N) by (apply N.div_lt; lia).
  rewrite !(pretty_N_go_step x) by lia.
  rewrite (IH _ Hlt (String _ s)), (IH _ Hlt (String _ "")).
  by rewrite <- app_assoc.
Qed.

Lemma lit_pretty_N_go_step (x : N) :
  (0 < x)%N ->
  lit (pretty_N_go x "")
  = lit (pretty_N_go (x `div` 10) "") ++ [48 + Z.of_N (x `mod` 10)].
Proof.
  intros Hx. rewrite pretty_N_go_step by done.
  rewrite lit_pretty_N_go, lit_String, pretty_N_char_code; [done|].
  by apply N.mod_lt.
Qed.

Lemma parseInt_digits_snoc (l : jsstring) (c : Z) :
  parseInt_digits (l ++ [c]) = parseInt_digits l * 10 + (c - 48).
Proof. unfold parseInt_digits. by rewrite fold_left_app. Qed.

Lemma digits_pretty_N_go (x : N) :
  Forall (λ c, is_digit c = true) (lit (pretty_N_go x ""))
  /\ parseInt_digits (lit (pretty_N_go x "")) = Z.of_N x.
Proof.
  induction (N.lt_wf_0 x) as [x _ IH].
  destruct (decide (x = 0)%N) as [->|Hx]; [by rewrite pretty_N_go_0|].
  rewrite lit_pretty_N_go_step by lia.
  destruct (IH (x `div` 10)%N) as [Hdigits Hvalue]; [apply N.div_lt; lia|].
  assert (Hmod : (x `mod` 10 < 10)%N) by (by apply N.mod_lt).
  split.
  - apply Forall_app. split; [done|]. apply Forall_singleton.
    unfold is_digit. apply andb_true_iff.
    clear -Hmod. set (d := (x `mod` 10)%N) in *.
    split; apply Z.leb_le; lia.
  - rewrite parseInt_digits_snoc, Hvalue.
    rewrite (N.div_mod x 10) at 3 by lia.
    set (q := (x `div` 10)%N). set (d := (x `mod` 10)%N). lia.
Qed.

Lemma span_all (p : Z -> bool) (l : jsstring) :
  Forall (λ c, p c = true) l -> span p l = (l, []).
Proof.
  induction 1 as [|c l Hc _ IH]; simpl; [done|]. by rewrite Hc, IH.
Qed.

Lemma span_none (p : Z -> bool) (c : Z) (l : jsstring) :
  p c = false -> span p (c :: l) = ([], c :: l).
Proof. intros Hc. simpl. by rewrite Hc. Qed.

Lemma digit_not_space (c : Z) : is_digit c = true -> is_space c = false.
Proof.
  unfold is_digit. intros [H1%Z.leb_le H2%Z.leb_le]%andb_true_iff.
  unfold is_space.
  repeat match goal with
  | |- context [?a <=? ?b] => destruct (Z.leb_spec a b); try lia
  | |- context [?a =? ?b] => destruct (Z.eqb_spec a b); try lia
  end; reflexivity.
Qed.

(** [parseInt] on a text of digits reads all of it. *)
Lemma parseInt_of_digits (c : Z) (l : jsstring) :
  Forall (λ c, is_digit c = true) (c :: l) ->
  CityGridItem.parseInt (c :: l) = Num (parseInt_digits (c :: l)).
Proof.
  intros Hdigits. assert (Hc : is_digit c = true) by (by inversion Hdigits).
  unfold CityGridItem.parseInt.
  rewrite (span_none is_space c l (digit_not_space c Hc)). cbn [snd].
  unfold is_digit in Hc. apply andb_true_iff in Hc as [H1%Z.leb_le H2%Z.leb_le].
  destruct (Z.eqb_spec c 45); [lia|]. destruct (Z.eqb_spec c 43); [lia|].
  by rewrite (span_all is_digit (c :: l) Hdigits).
Qed.

(** The text of an index: digits only, at least one, reading back as the
    index. *)
Lemma index_text (index : nat) :
  exists c l,
    String_of_Z (Z.of_nat index) = c :: l
    /\ Forall (λ c, is_digit c = true) (c :: l)
    /\ parseInt_digits (c :: l) = Z.of_nat index.
Proof.
  unfold String_of_Z. destruct index as [|n].
  { exists 48, []. split; [reflexivity|]. split; [|reflexivity].
    by apply Forall_singleton. }
  change (pretty (Z.of_nat (S n))) with
    (pretty_N_go (N.pos (Pos.of_succ_nat n)) "").
  destruct (digits_pretty_N_go (N.pos (Pos.of_succ_nat n))) as [Hd Hv].
  rewrite lit_pretty_N_go_step in * by lia.
  destruct (lit (pretty_N_go (N.pos (Pos.of_succ_nat n) `div` 10) "")
            ++ [48 + Z.of_N (N.pos (Pos.of_succ_nat n) `mod` 10)])
    as [|c l] eqn:Hl.
  { by destruct (lit (pretty_N_go _ "")). }
  exists c, l. split; [done|]. split; [done|]. rewrite Hv. lia.
Qed.

(** X19. The index a drag stores as text is read back exactly by the
    drop: dropping the item dragged from position i on the item at position
    j calls the reordering with (i, j).  A drop without stored text leaves
    the state as it is. *)
Theorem handleDrop_round_trip (i j : nat) (app : App.State) :
  CityGridItem.parseInt (CityGridItem.handleDragStart i) = Num (Z.of_nat i)
  /\ CityGridItem.handleDrop (CityGridItem.handleDragStart i) j app
     = handleReorderCities (Num (Z.of_nat i)) (Num (Z.of_nat j)) app
  /\ CityGridItem.handleDrop [] j app = Reordered app.
Proof.
  unfold CityGridItem.handleDrop, CityGridItem.handleDragStart.
  destruct (index_text i) as (c & l & -> & Hdigits & Hvalue).
  assert (Hc : is_digit c = true) by (by inversion Hdigits).
  assert (Hparse : CityGridItem.parseInt (c :: l) = Num (Z.of_nat i)).
  { rewrite (parseInt_of_digits c l Hdigits). by rewrite Hvalue. }
  split; [exact Hparse|]. split; [|reflexivity].
  by rewrite Hparse.
Qed.

End DragAndDrop.

(* ===================================================================== *)
(** ** The illustration in the grid cell and in the detail view *)
(* ===================================================================== *)

Section Illustration.

Lemma selectImage_truthy (category : jsstring) (manifest : FolderManifest)
    (seed : jsstring) :
  manifest ≠ [] ->
  exists url,
    selectImageFromManifest category manifest seed = Some url
    /\ truthy url = true.
Proof.
  intros Hne. unfold selectImageFromManifest.
  destruct (Nat.eqb_spec (length manifest) 0) as [H0|_].
  { by destruct manifest. }
  eexists. split; [reflexivity|]. reflexivity.
Qed.

(** X20. When the manifest of a category arrives, the grid cell and the
    detail view of a city resolve to the same illustration.  With a
    non-empty manifest both end up showing the URL that
    [selectImageFromManifest] picks for the city's id; with an empty
    manifest both go to the error state, the detail view dropping its image
    and the grid cell keeping the one it had.  A component that has been
    unmounted in the meantime changes nothing. *)
Theorem views_show_the_same_image
    (category : jsstring) (manifest : FolderManifest) (city : City)
    (g : CityGridItem.Img) (w : WindowFrame.Img) (capturedImg : ImgState) :
  CityGridItem.prevSrc g = CityGridItem.currentSrc g ->
  let url := selectImageFromManifest category manifest (id city) in
  let g' := CityGridItem.loadManifest_resume true category manifest city g in
  let w' := WindowFrame.loadManifest_resume true (WindowFrame.currentSrc w)
              capturedImg category manifest city w in
  (manifest ≠ [] ->
     is_Some url
     /\ CityGridItem.currentSrc g' = url
     /\ WindowFrame.currentSrc w' = url)
  /\ (manifest = [] ->
      CityGridItem.imgState g' = img_error
      /\ WindowFrame.imgState w' = img_error
      /\ WindowFrame.currentSrc w' = None
      /\ CityGridItem.currentSrc g' = CityGridItem.currentSrc g)
  /\ CityGridItem.prevSrc g' = CityGridItem.currentSrc g'
  /\ CityGridItem.loadManifest_resume false category manifest city g = g
  /\ WindowFrame.loadManifest_resume false (WindowFrame.currentSrc w)
       capturedImg category manifest city w = w.
Proof.
  intros Hinv url g' w'. subst url g' w'.
  unfold CityGridItem.loadManifest_resume, WindowFrame.loadManifest_resume.
  cbn [negb].
  split; [|split; [|split; [|done]]].
  - intros Hne.
    destruct (selectImage_truthy category manifest (id city) Hne)
      as (url & -> & Htruthy).
    cbn [url_truthy]. rewrite Htruthy. cbn [andb negb].
    split; [eauto|]. split.
    + destruct (decide (Some url = CityGridItem.prevSrc g)) as [Heq|Hneq].
      * rewrite (bool_decide_eq_true_2 _ Heq). cbn. congruence.
      * by rewrite (bool_decide_eq_false_2 _ Hneq).
    + destruct (decide (Some url = WindowFrame.currentSrc w)) as [Heq|Hneq].
      * rewrite (bool_decide_eq_true_2 _ Heq). cbn.
        by destruct capturedImg.
      * by rewrite (bool_decide_eq_false_2 _ Hneq).
  - intros ->. done.
  - destruct (selectImageFromManifest category manifest (id city)) as [url|];
      [|done].
    cbn [url_truthy]. destruct (truthy url); cbn [andb negb]; [|done].
    by destruct (bool_decide (Some url = CityGridItem.prevSrc g)).
Qed.

Lemma views_show_the_same_image_witness :
  let manifest := [lit "a.png"; lit "b.png"; lit "c.png"] in
  CityGridItem.currentSrc
    (CityGridItem.loadManifest_resume true (lit "snow-night") manifest kyoto
       (CityGridItem.mkImg img_loading None None))
  = WindowFrame.currentSrc
      (WindowFrame.loadManifest_resume true None img_loading
         (lit "snow-night") manifest kyoto
         (WindowFrame.mkImg img_loading None None None)).
Proof.
  intros manifest.
  destruct (views_show_the_same_image (lit "snow-night") manifest kyoto
              (CityGridItem.mkImg img_loading None None)
              (WindowFrame.mkImg img_loading None None None) img_loading)
    as (Hsame & _).
  - reflexivity.
  - destruct Hsame as (_ & Hg & Hw); [discriminate|].
    rewrite Hg. symmetry. exact Hw.
Defined.

End Illustration.

(* ===================================================================== *)
(** ** Instances *)
(* ===================================================================== *)

Section Instances.

Lemma contrast_follows_tint_witness :
  getTimeOfDayBg (Some (lit "09:15 PM")) = lit "#96A8C2"
  /\ main (getTextContrastClass (Some (lit "09:15 PM"))) = lit "text-white".
Proof.
  split; [reflexivity|].
  destruct (contrast_follows_tint (Some (lit "09:15 PM")))
    as (_ & [_ Hwhite] & _).
  apply Hwhite. right. right. reflexivity.
Defined.

Lemma gradient_follows_category_witness :
  getWeatherGradient (Some snowy_night)
  = lit "bg-gradient-to-br from-[#1a1b26] to-[#2e3440]".
Proof.
  destruct (gradient_follows_category snowy_night) as (_ & [Hsnow _] & _).
  apply Hsnow. reflexivity.
Defined.

Lemma overlays_exclusive_witness :
  snd (fst (fst (WindowFrame.overlays snowy_night))) = true
  /\ fst (fst (fst (WindowFrame.overlays snowy_night))) = false.
Proof.
  pose proof (overlays_exclusive snowy_night) as H.
  change (WindowFrame.overlays snowy_night) with (false, true, true, false)
    in *.
  cbn iota beta in H. destruct H as (_ & [_ Hsnow] & _).
  split; [|reflexivity]. apply Hsnow.
  apply list_elem_of_In. simpl. auto.
Defined.

Lemma handleSearchKeyDown_bounds_witness :
  let picked := mkCity (lit "1857910") (lit "Kyoto") (lit "Japan")
                       (350211 # 10000) (1357538 # 10000) (lit "Asia/Tokyo") in
  let cs := CitySelect.mkSelect false true (lit "Kyo") [picked] false (-1) in
  exists cs' app',
    CitySelect.handleSearchKeyDown CitySelect.ArrowDown cs initial_state
    = Returns (cs', app')
    /\ -1 <= CitySelect.selectedIndex cs'
       <= Z.of_nat (length (CitySelect.results cs')) - 1.
Proof.
  intros picked cs.
  destruct (handleSearchKeyDown_bounds CitySelect.ArrowDown cs initial_state)
    as (cs' & app' & Hret & Hlow & Hhigh & _).
  exists cs', app'. split; [exact Hret|]. split.
  - apply Hlow. simpl. lia.
  - apply Hhigh. reflexivity.
Defined.

End Instances.

(* ===================================================================== *)
(** ** The manifest requests of a whole session *)
(* ===================================================================== *)

Section SessionRequests.

(** The strings [getWeatherCategory] can return. *)
Lemma category_values (w : WeatherData) (c : jsstring) :
  getWeatherCategory (Some w) = Some c ->
  c ∈ [lit "snow-day"; lit "snow-night"; lit "rain-day"; lit "rain-night";
       lit "clear-day"; lit "clear-night"].
Proof.
  rewrite getWeatherCategory_unfold.
  destruct (includes snow_codes (conditionCode w)),
           (includes rain_codes (conditionCode w)), (isDay w);
    intros [= <-]; apply list_elem_of_In; simpl;
    repeat (first [left; reflexivity | right]).
Qed.

(** Every promise was created by a call for its category. *)
Lemma promise_called (es : list Event) (st st' : ManifestStore) p c ph :
  run es st = Some st' ->
  promises st' !! p = Some (c, ph) ->
  (exists ph0, promises st !! p = Some (c, ph0)) \/ Call c ∈ es.
Proof.
  revert st. induction es as [|e es IH]; intros st; simpl.
  { intros [= <-] Hl. eauto. }
  destruct (step e st) as [st1|] eqn:He; [|discriminate].
  intros Hrun Hl.
  destruct (IH st1 Hrun Hl) as [[ph1 Hl1] | Hin]; [|right; by right].
  destruct e as [c'|q r|q]; simpl in He.
  - injection He as <-. unfold fetchFolderManifest in Hl1.
    destruct (manifestCache st !! c'); [eauto|].
    destruct (pendingManifests st !! c'); [eauto|]. simpl in Hl1.
    apply lookup_app_Some in Hl1 as [Hl1 | [_ Hl1]]; [eauto|].
    apply list_lookup_singleton_Some in Hl1 as [_ [= -> _]].
    right. by left.
  - apply on_response_Some in He as (c0 & Hq & ->). simpl in Hl1. left.
    destruct (phase_update_lookup _ _ _ _ _ _ _ _ Hq Hl1)
      as [(-> & -> & _) | [_ Hl0]]; eauto.
  - apply on_finally_Some in He as (c0 & v & Hq & ->). simpl in Hl1. left.
    destruct (phase_update_lookup _ _ _ _ _ _ _ _ Hq Hl1)
      as [(-> & -> & _) | [_ Hl0]]; eauto.
Qed.

(** X21. Both views ask for the manifest of the category that
    [getWeatherCategory] gives, and that is one of six strings; so a whole
    session, however many cities and views it has, sends at most six
    manifest requests. *)
Theorem at_most_six_manifest_requests (es : list Event) (st : ManifestStore) :
  run es empty_store = Some st ->
  (forall c, Call c ∈ es -> exists w, getWeatherCategory (Some w) = Some c) ->
  (length (network st) <= 6)%nat.
Proof.
  intros Hrun Hcalls.
  pose proof (reachable_consistent _ _ Hrun) as Hst.
  rewrite (requests_logged st Hst), length_fmap.
  rewrite <- (length_fmap fst).
  change 6%nat with
    (length [lit "snow-day"; lit "snow-night"; lit "rain-day";
             lit "rain-night"; lit "clear-day"; lit "clear-night"]).
  apply submseteq_length, NoDup_submseteq.
  - apply NoDup_alt. intros i j c Hi Hj.
    rewrite list_lookup_fmap in Hi, Hj.
    destruct (promises st !! i) as [[ci phi]|] eqn:Hli; [|discriminate].
    destruct (promises st !! j) as [[cj phj]|] eqn:Hlj; [|discriminate].
    simpl in Hi, Hj. injection Hi as ->. injection Hj as ->.
    by eapply (one_promise st Hst).
  - intros c (cp & -> & Hin)%list_elem_of_fmap.
    destruct cp as [c ph]. apply list_elem_of_lookup in Hin as [p Hl].
    destruct (promise_called es empty_store st p c ph Hrun Hl)
      as [[ph0 H0] | Hcall]; [by destruct p|].
    destruct (Hcalls c Hcall) as [w Hw]. by eapply category_values.
Qed.

Lemma at_most_six_manifest_requests_witness :
  exists st,
    run [Call (lit "snow-night"); Call (lit "rain-day");
         Respond 0 ManifestNetworkError; Call (lit "snow-night")]
        empty_store = Some st
    /\ (length (network st) <= 6)%nat.
Proof.
  destruct (run [Call (lit "snow-night"); Call (lit "rain-day");
                 Respond 0 ManifestNetworkError; Call (lit "snow-night")]
                empty_store) as [st|] eqn:Hrun;
    [|vm_compute in Hrun; discriminate].
  exists st. split; [reflexivity|].
  apply (at_most_six_manifest_requests
           [Call (lit "snow-night"); Call (lit "rain-day");
            Respond 0 ManifestNetworkError; Call (lit "snow-night")] st Hrun).
  intros c Hc. apply list_elem_of_In in Hc. simpl in Hc.
  destruct Hc as [[= <-] | [[= <-] | [H | [[= <-] | []]]]]; [| |discriminate|].
  - exists snowy_night. reflexivity.
  - exists (mkWeatherData (12 # 1) 61 (lit "Slight rain") true (lit "10:00 AM")).
    reflexivity.
  - exists snowy_night. reflexivity.
Defined.

End SessionRequests.

(* ===================================================================== *)
(** ** loadScene: a success followed by later loads *)
(* ===================================================================== *)

Section SceneSequences.

(** No event takes a snapshot out of [weatherCache]. *)
Lemma cached_act (a : Action) (st st' : State) (i : jsstring) :
  is_Some (weatherCache st !! i) -> act a st = Some st' ->
  is_Some (weatherCache st' !! i).
Proof.
  intros Hi.
  destruct a as [index|newCity|cityId|fromIndex toIndex| |captured city
                |captured city r|city r]; simpl.
  - destruct (cities st !! index) as [city|]; [|discriminate].
    intros [= <-].
    by rewrite (proj1 (proj2 (handleCityChange_fields city st))).
  - intros [= <-].
    destruct (handleAddCity_cases newCity st) as [(c & _ & _ & Heq)|[_ Heq]];
      rewrite Heq, (proj1 (proj2 (handleCityChange_fields _ _))); done.
  - intros [= <-]. by rewrite (proj1 (caches_handleRemoveCity cityId st)).
  - destruct (handleReorderCities fromIndex toIndex st) as [st0|l] eqn:Hr;
      [|discriminate].
    intros [= <-]. apply handleReorderCities_Reordered in Hr as [_ Heq].
    by rewrite Heq.
  - destruct (selectedCity st), (isGridView st); try discriminate;
      by intros [= <-].
  - intros [= <-].
    by destruct (loadScene_begin_fields captured city st) as (_ & _ & -> & _).
  - intros [= <-]. unfold loadScene_resume. destruct r as [w|e].
    + simpl. apply lookup_insert_is_Some. destruct (decide (id city = i)); auto.
    + by destruct (captured !! id city).
  - intros [= <-]. unfold prefetch_resume. destruct r as [w|e]; [|done].
    simpl. apply lookup_insert_is_Some. destruct (decide (id city = i)); auto.
Qed.

Lemma cached_acts (l : list Action) (st st' : State) (i : jsstring) :
  is_Some (weatherCache st !! i) -> acts l st = Some st' ->
  is_Some (weatherCache st' !! i).
Proof.
  revert st. induction l as [|a l IH]; intros st Hi; simpl.
  - by intros [= <-].
  - destruct (act a st) as [st1|] eqn:Ha; [|discriminate].
    apply IH. by eapply cached_act.
Qed.

(** X22. When a load of a city succeeds, whatever dictionary its callback
    had captured and whatever state it resumes on, the snapshot is stored
    under the city's id in both caches, displayed, and the view completes.
    From then on the city stays cached through every sequence of events;
    so a load of that city started from any later render (its callback
    captures the [weatherCache] of that render) shows a cached snapshot and
    the status complete when it begins, and when its fetch fails it
    changes nothing, whatever has happened between its start and its
    failure.  (A load started from a render before the success is not
    covered: its callback has the older dictionary.) *)
Theorem loadScene_success_then_failures
    (captured0 : gmap jsstring WeatherData) (city : City) (w : WeatherData)
    (st : State) (between : list Action) (st2 : State) :
  let st1 := loadScene_resume captured0 city (Returns w) st in
  acts between st1 = Some st2 ->
  (weatherCache st1 !! id city = Some w
   /\ cacheRef st1 !! id city = Some w
   /\ weather st1 = Some w
   /\ viewState st1 = mkViewState complete (Some (describe city w)))
  /\ exists w2,
       weatherCache st2 !! id city = Some w2
       /\ weather (loadScene_begin (weatherCache st2) city st2) = Some w2
       /\ status (viewState (loadScene_begin (weatherCache st2) city st2))
          = complete
       /\ forall meanwhile st3 e,
            acts meanwhile (loadScene_begin (weatherCache st2) city st2)
            = Some st3 ->
            acts [SceneResumes (weatherCache st2) city (Throws e)] st3
            = Some st3.
Proof.
  intros st1 Hbetween.
  assert (Hcache : weatherCache st1 !! id city = Some w).
  { subst st1. unfold loadScene_resume. simpl. apply lookup_insert_eq. }
  split.
  { split; [done|]. split; [|done].
    subst st1. unfold loadScene_resume. simpl. apply lookup_insert_eq. }
  destruct (cached_acts between st1 st2 (id city)) as [w2 Hw2]; [eauto|done|].
  exists w2. split; [done|].
  unfold loadScene_begin at 1 2. rewrite Hw2.
  split; [done|]. split; [done|].
  intros meanwhile st3 e _. cbn [acts act]. f_equal.
  apply loadScene_resume_swallows. eauto.
Qed.

Lemma loadScene_success_then_failures_witness :
  let st1 := loadScene_resume ∅ kyoto (Returns snowy_night) initial_state in
  let begun := loadScene_begin (weatherCache st1) kyoto st1 in
  let e := mkError (lit "Weather API Error: 500") in
  acts [ToggleGrid; ToggleGrid] st1 = Some st1
  /\ weatherCache st1 !! id kyoto = Some snowy_night
  /\ acts [SceneResumes (weatherCache st1) kyoto (Throws e)]
          (handleRemoveCity (lit "seoul") begun)
     = Some (handleRemoveCity (lit "seoul") begun).
Proof.
  intros st1 begun e.
  destruct (loadScene_success_then_failures ∅ kyoto snowy_night initial_state
              [ToggleGrid; ToggleGrid] st1)
    as ((Hcached & _) & w2 & _ & _ & _ & Hfail).
  - reflexivity.
  - split; [reflexivity|]. split; [exact Hcached|].
    apply (Hfail [RemoveCity (lit "seoul")]). reflexivity.
Defined.

End SceneSequences.
